(** * High-Performance-Python kernels: Julia-set escape counts and the
      angular-velocity particle integrator

    A shallow embedding of
      - [Part 1_Benchmarking and Profiling/benchmarking_and_profiling.py]
        (grid construction, the escape-time kernel, the checksum assertion);
      - [Part 4_Matrix and Vector Computations/ParticleSim.py]
        (the scalar and the NumPy particle integrators);
      - [Part 3_Dictionaries and Sets/dics_and_sets_func.py]
        (the comparisons of two census frames by identifier).

    Python floats are IEEE-754 binary64 numbers; they are embedded as Rocq's
    primitive [float]s, whose operations are the same correctly rounded
    binary64 operations.  The two functions of the C library that the
    programs reach, [hypot] and [pow], are not correctly rounded on every
    platform: the definitions named [..._with] take them as parameters.
    Python integers are embedded as [Z]. *)

From Stdlib Require Import ZArith Bool Lia Floats.
From stdpp Require Import base list strings gmap.

Set Warnings "-inexact-float".
Set Default Proof Using "Type".

(* ===================================================================== *)
(** * The Python runtime fragment used by the two programs *)
(* ===================================================================== *)

Module Py.

(** Exceptions that the modelled statements can raise. *)
Inductive exn : Set :=
  | ZeroDivisionError
  | OverflowError
  | ValueError
  | IndexError
  | AssertionError
  | AttributeError
  | AxisError
  | ComplexResult.
(** [ComplexResult] is not a Python exception: it marks the one place where
    control would leave the modelled fragment, a negative float raised to
    the power 0.5, which Python evaluates to a [complex]. *)

(** Outcome of running a statement: a value, a raised exception, or the
    exhaustion of the step budget given to a [while] loop (the embedding of
    a loop that has not returned yet).  The state left behind by a raised
    exception is not modelled. *)
Inductive res (A : Type) : Type :=
  | Ok (a : A)
  | Raise (e : exn)
  | OutOfFuel.
Arguments Ok {A} a.
Arguments Raise {A} e.
Arguments OutOfFuel {A}.

#[global] Instance res_ret : MRet res := fun A a => Ok a.
#[global] Instance res_bind : MBind res := fun A B f m =>
  match m with
  | Ok a => f a
  | Raise e => Raise e
  | OutOfFuel => OutOfFuel
  end.
#[global] Instance res_fmap : FMap res := fun A B f m =>
  match m with
  | Ok a => Ok (f a)
  | Raise e => Raise e
  | OutOfFuel => OutOfFuel
  end.

(** [while cond: body], with a budget of [fuel] evaluations of the test. *)
Fixpoint while {S : Type} (fuel : nat) (cond : S -> res bool)
    (body : S -> res S) (s : S) : res S :=
  match fuel with
  | O => OutOfFuel
  | Datatypes.S fuel' =>
      b ← cond s;
      if b : bool then s' ← body s; while fuel' cond body s' else Ok s
  end.

(** [for a in l: body], threading the loop's variables as a state. *)
Fixpoint for_in {A S : Type} (l : list A) (body : A -> S -> res S) (s : S)
    : res S :=
  match l with
  | [] => Ok s
  | a :: l' => s' ← body a s; for_in l' body s'
  end.

(** [range(n)] for an integer [n]: empty when [n <= 0]. *)
Definition range (n : Z) : list nat := seq 0 (Z.to_nat n).

(** [l[i]] for [0 <= i]: [IndexError] past the end. *)
Definition getitem {A : Type} (l : list A) (i : nat) : res A :=
  match l !! i with
  | Some a => Ok a
  | None => Raise IndexError
  end.

(** [sum(l)] on a list of integers. *)
Definition sum (l : list Z) : Z := foldl Z.add 0%Z l.

(** ** Floats *)

Open Scope float_scope.

(** [float(n)] for an integer [n]: the nearest binary64 number (ties to
    even); [OverflowError] when [n] is beyond the float range. *)
Definition float_of_int (n : Z) : res float :=
  match binary_normalize prec emax n 0 false with
  | S754_infinity _ => Raise OverflowError
  | sf => Ok (SF2Prim sf)
  end.

(** [a / b] on floats: [ZeroDivisionError] on a zero divisor (of either
    sign); no other error, an overflowing quotient is an infinity. *)
Definition truediv (a b : float) : res float :=
  if b =? 0 then Raise ZeroDivisionError else Ok (a / b).

(** [int(f)]: truncation toward zero; [ValueError] on a NaN and
    [OverflowError] on an infinity. *)
Definition int_of_float (f : float) : res Z :=
  match Prim2SF f with
  | S754_zero _ => Ok 0%Z
  | S754_finite s m e =>
      let mag := if (0 <=? e)%Z then (Z.pos m * 2 ^ e)%Z
                 else (Z.pos m / 2 ^ (- e))%Z in
      Ok (if s then (- mag)%Z else mag)
  | S754_infinity _ => Raise OverflowError
  | S754_nan => Raise ValueError
  end.

(** [math.ceil(f)], with the same errors as [int]. *)
Definition ceil (f : float) : res Z :=
  match Prim2SF f with
  | S754_zero _ => Ok 0%Z
  | S754_finite s m e =>
      let v := if s then Z.neg m else Z.pos m in
      Ok (if (0 <=? e)%Z then (v * 2 ^ e)%Z else (- ((- v) / 2 ^ (- e)))%Z)
  | S754_infinity _ => Raise OverflowError
  | S754_nan => Raise ValueError
  end.

(** [v ** 2.0] as CPython's [float_pow] computes it.  A NaN is returned as
    it is, an infinity gives [+inf], a zero gives [+0.0], a negative base
    is negated first (the exponent is an even integer), and the C library's
    [pow] does the rest; its result is taken to be the correctly rounded
    square (the library's own can differ from it in the last place, see
    [float_pow_2_with] below).  A finite base whose square is infinite
    raises [OverflowError]; a square that underflows is returned
    silently. *)
Definition float_pow_2 (v : float) : res float :=
  let r := abs v * abs v in
  if is_finite v && is_infinity r then Raise OverflowError else Ok r.

(** [v ** 0.5] as [float_pow] computes it.  The special cases come first:
    a NaN is returned as it is and an infinity of either sign gives [+inf],
    a zero gives [+0.0], and a negative base with this exponent leaves the
    floats; otherwise the C library's [pow] is called, and its result is
    taken to be the correctly rounded square root (the library's own can
    differ from it in the last place, see [float_pow_half_with] below).
    (For a NaN and for [+inf] the special case returns what the square
    root is.) *)
Definition float_pow_half (v : float) : res float :=
  if v =? neg_infinity then Ok infinity
  else if v =? 0 then Ok 0
  else if v <? 0 then Raise ComplexResult
  else Ok (sqrt v).

(** ** Complex numbers: a pair of floats *)

Record complex : Set := Complex { real : float; imag : float }.

(** [a * b] ([_Py_c_prod]). *)
Definition c_prod (a b : complex) : complex :=
  Complex (real a * real b - imag a * imag b)
          (real a * imag b + imag a * real b).

(** [a + b] ([_Py_c_sum]). *)
Definition c_sum (a b : complex) : complex :=
  Complex (real a + real b) (imag a + imag b).

(** A reference [hypot] on two finite arguments (the C library's own can
    differ from it in the last place, see [c_abs_with] below): the square
    root of the sum of the squares, computed on the
    arguments themselves when the larger one is far from both ends of the
    exponent range, and on the arguments scaled by a power of two (an exact
    operation) otherwise, so that the result is infinite only when the
    modulus is beyond the float range and zero only when both arguments
    are. *)
Definition hypot (a b : float) : float :=
  let a := abs a in
  let b := abs b in
  let hi := if a <? b then b else a in
  if 0x1p+500 <=? hi then
    sqrt ((a * 0x1p-600) * (a * 0x1p-600) + (b * 0x1p-600) * (b * 0x1p-600))
    * 0x1p+600
  else if hi <? 0x1p-500 then
    sqrt ((a * 0x1p+600) * (a * 0x1p+600) + (b * 0x1p+600) * (b * 0x1p+600))
    * 0x1p-600
  else sqrt (a * a + b * b).

(** The modulus of a complex number as C99 defines it ([_Py_c_abs] without
    its error flag): an infinite part gives [+inf] even next to a NaN, a
    NaN part gives NaN otherwise. *)
Definition modulus (z : complex) : float :=
  if is_finite (real z) && is_finite (imag z) then hypot (real z) (imag z)
  else if is_infinity (real z) || is_infinity (imag z) then infinity
  else nan.

(** [abs(z)] ([complex_abs]): the modulus, and [OverflowError] ("absolute
    value too large") when both parts are finite but the modulus is not. *)
Definition c_abs (z : complex) : res float :=
  let m := modulus z in
  if is_finite (real z) && is_finite (imag z) && negb (is_finite m)
  then Raise OverflowError
  else Ok m.

(** [-z] ([_Py_c_neg]). *)
Definition c_neg (z : complex) : complex := Complex (- real z) (- imag z).

(** ** Built-ins on lists of integers *)

(** [max(l)]: [ValueError] on an empty list. *)
Definition py_max (l : list Z) : res Z :=
  match l with
  | [] => Raise ValueError
  | n :: l' => Ok (foldl Z.max n l')
  end.

(** [array.array(typecode, l)] for an unsigned type code of [bits] bits
    (['B'], 8 bits; ['I'], 32 bits on the platforms CPython supports): the
    values as they are, and [OverflowError] on a value outside the range
    of the type. *)
Definition array_unsigned (bits : Z) (l : list Z) : res (list Z) :=
  mapM (fun v => if (0 <=? v)%Z && (v <? 2 ^ bits)%Z then Ok v
                 else Raise OverflowError) l.

(** [assert b]. *)
Definition py_assert (b : bool) : res unit :=
  if b then Ok tt else Raise AssertionError.

(** ** The C library as a parameter

    [hypot] and the two powers above give one float for every argument.
    The C standard does not fix the results of the library's [hypot] and
    [pow]: they are those of the platform's library, which need not round
    correctly and can differ from the functions above in the last place.
    The definitions below take the library function as an argument, so
    that what is proved of them holds whatever the library returns. *)

(** The modulus ([_Py_c_abs]) with the library's [hypot] as [hyp]. *)
Definition modulus_with (hyp : float -> float -> float) (z : complex) : float :=
  if is_finite (real z) && is_finite (imag z) then hyp (real z) (imag z)
  else if is_infinity (real z) || is_infinity (imag z) then infinity
  else nan.

(** [abs(z)] ([complex_abs]) with the library's [hypot] as [hyp]. *)
Definition c_abs_with (hyp : float -> float -> float) (z : complex)
    : res float :=
  let m := modulus_with hyp z in
  if is_finite (real z) && is_finite (imag z) && negb (is_finite m)
  then Raise OverflowError
  else Ok m.

(** The value that a call of the C library leaves in [errno]: [0],
    [ERANGE], or any other value. *)
Inductive errno : Set := E_none | ERANGE | E_other.

(** The C library's [pow]: its result, and the [errno] it leaves when it
    is called with [errno = 0]. *)
Definition libm_pow : Type := float -> float -> float * errno.

(** The end of [float_pow]: the call [pow(iv, iw)] with [errno] cleared,
    [_Py_ADJUST_ERANGE1] (an infinite result is a range error whatever
    [errno] says, a zero result is none), and the exception for the
    [errno] that is left: [OverflowError] for [ERANGE], [ValueError] for
    any other. *)
Definition float_pow_call (pw : libm_pow) (iv iw : float) : res float :=
  let '(ix, e) := pw iv iw in
  let e := match e with
           | E_none => if is_infinity ix then ERANGE else E_none
           | ERANGE => if ix =? 0 then E_none else ERANGE
           | E_other => E_other
           end in
  match e with
  | E_none => Ok ix
  | ERANGE => Raise OverflowError
  | E_other => Raise ValueError
  end.

(** [v ** 2] on a Python float, through the special cases of [float_pow]
    that the exponent [2.0] can reach: a NaN is returned as it is, an
    infinity gives [fabs(iv)], a zero gives [0.0], a negative base is
    negated (the exponent is an even integer), the base [1.0] gives [1.0],
    and [pow] is called on what remains. *)
Definition float_pow_2_with (pw : libm_pow) (v : float) : res float :=
  if is_nan v then Ok v
  else if is_infinity v then Ok (abs v)
  else if v =? 0 then Ok 0
  else
    let iv := if v <? 0 then - v else v in
    if iv =? 1 then Ok 1 else float_pow_call pw iv 2.

(** [v ** 0.5] on a Python float, likewise; a negative base with this
    exponent leaves the floats. *)
Definition float_pow_half_with (pw : libm_pow) (v : float) : res float :=
  if is_nan v then Ok v
  else if is_infinity v then Ok (abs v)
  else if v =? 0 then Ok 0
  else if v <? 0 then Raise ComplexResult
  else if v =? 1 then Ok 1
  else float_pow_call pw v 0.5.


End Py.

(* ===================================================================== *)
(** * benchmarking_and_profiling.py *)
(* ===================================================================== *)

Module Julia.
Import Py.
Open Scope float_scope.

(** The module-level constants [x1, x2, y1, y2] (the area of the complex
    plane) and [c_real, c_imag] (the parameter of the update rule).  The
    functions read them as globals; here they are an explicit argument, and
    [module_globals] holds the values the file assigns. *)
Record Globals : Set := {
  x1 : float; x2 : float; y1 : float; y2 : float;
  c_real : float; c_imag : float
}.

Definition module_globals : Globals :=
  {| x1 := -1.8; x2 := 1.8; y1 := -1.8; y2 := 1.8;
     c_real := -0.62772; c_imag := -0.42193 |}.

(** The [while abs(z) < 2 and n < maxiter] loop of the kernel, on the pair
    [(z, n)] of its variables. *)
Definition escape_loop (fuel : nat) (maxiter : Z) (c : complex)
    (zn : complex * Z) : res (complex * Z) :=
  while fuel
    (fun '(z, n) => a ← c_abs z; mret ((a <? 2) && (n <? maxiter)%Z))
    (fun '(z, n) => mret (c_sum (c_prod z z) c, (n + 1)%Z))
    zn.

(** The body of [for i in range(len(zs))]. *)
Definition kernel_body (fuel : nat) (maxiter : Z) (zs cs : list complex)
    (i : nat) (output : list Z) : res (list Z) :=
  let n := 0%Z in
  z ← getitem zs i;
  c ← getitem cs i;
  '(_, n) ← escape_loop fuel maxiter c (z, n);
  mret (<[i := n]> output).

(** [calculate_z_serial_purepython(maxiter, zs, cs)].  Its decorators
    ([@timefn], which prints the elapsed time and returns the wrapped
    call's result unchanged, and the profiler's [@profile]) do not change
    what the call computes and are left out. *)
Definition calculate_z_serial_purepython (fuel : nat) (maxiter : Z)
    (zs cs : list complex) : res (list Z) :=
  let output := replicate (length zs) 0%Z in
  for_in (seq 0 (length zs)) (kernel_body fuel maxiter zs cs) output.

(** The same three with the C library's [hypot] as [hyp]. *)
Definition escape_loop_with (hyp : float -> float -> float) (fuel : nat)
    (maxiter : Z) (c : complex) (zn : complex * Z) : res (complex * Z) :=
  while fuel
    (fun '(z, n) => a ← c_abs_with hyp z; mret ((a <? 2) && (n <? maxiter)%Z))
    (fun '(z, n) => mret (c_sum (c_prod z z) c, (n + 1)%Z))
    zn.

Definition kernel_body_with (hyp : float -> float -> float) (fuel : nat)
    (maxiter : Z) (zs cs : list complex) (i : nat) (output : list Z)
    : res (list Z) :=
  let n := 0%Z in
  z ← getitem zs i;
  c ← getitem cs i;
  '(_, n) ← escape_loop_with hyp fuel maxiter c (z, n);
  mret (<[i := n]> output).

Definition calculate_z_serial_purepython_with (hyp : float -> float -> float)
    (fuel : nat) (maxiter : Z) (zs cs : list complex) : res (list Z) :=
  let output := replicate (length zs) 0%Z in
  for_in (seq 0 (length zs)) (kernel_body_with hyp fuel maxiter zs cs) output.

(** Lines 28-39 of [calc_pure_python]: the two steps and the coordinate
    lists [x] and [y], each built by a [while] loop that appends the
    running coordinate and adds the step to it. *)
Definition coordinate_steps (g : Globals) (desired_width : Z)
    : res (float * float) :=
  w ← float_of_int desired_width;
  x_step ← truediv (x2 g - x1 g) w;
  w ← float_of_int desired_width;
  y_step ← truediv (y1 g - y2 g) w;
  mret (x_step, y_step).

Definition y_list (fuel : nat) (g : Globals) (y_step : float)
    : res (list float) :=
  fst <$> while fuel
    (fun '(y, ycoord) => mret (y1 g <? ycoord))
    (fun '(y, ycoord) => mret (y ++ [ycoord], ycoord + y_step))
    ([], y2 g).

Definition x_list (fuel : nat) (g : Globals) (x_step : float)
    : res (list float) :=
  fst <$> while fuel
    (fun '(x, xcoord) => mret (xcoord <? x2 g))
    (fun '(x, xcoord) => mret (x ++ [xcoord], xcoord + x_step))
    ([], x1 g).

(** Lines 44-49: the nested [for] loops that append one point to [zs] and
    one parameter to [cs] for every [ycoord] in [y] and [xcoord] in [x]. *)
Definition grid_lists (g : Globals) (x y : list float)
    : res (list complex * list complex) :=
  for_in y (fun ycoord =>
    for_in x (fun xcoord '(zs, cs) =>
      mret (zs ++ [Complex xcoord ycoord],
            cs ++ [Complex (c_real g) (c_imag g)])))
    ([], []).

(** The grid builder: lines 28-49 of [calc_pure_python]. *)
Definition build_grid (fuel : nat) (g : Globals) (desired_width : Z)
    : res (list float * list float * list complex * list complex) :=
  '(x_step, y_step) ← coordinate_steps g desired_width;
  y ← y_list fuel g y_step;
  x ← x_list fuel g x_step;
  '(zs, cs) ← grid_lists g x y;
  mret (x, y, zs, cs).

(** [calc_pure_python(desired_width, max_iterations, return_output)].
    A Python function that falls off its end returns [None]. *)
Definition calc_pure_python (fuel : nat) (g : Globals)
    (desired_width max_iterations : Z) (return_output : bool)
    : res (option (list Z)) :=
  '(_, _, zs, cs) ← build_grid fuel g desired_width;
  output ← calculate_z_serial_purepython fuel max_iterations zs cs;
  if (sum output =? 33219980)%Z
  then mret (if return_output then Some output else None)
  else Raise AssertionError.

(** [calc_pure_python(desired_width, max_iterations, return_output=True)],
    the call of the two rendering functions: the list of counts when the
    check of the sum passes. *)
Definition calc_pure_python_output (fuel : nat) (g : Globals)
    (desired_width max_iterations : Z) : res (list Z) :=
  '(_, _, zs, cs) ← build_grid fuel g desired_width;
  output ← calculate_z_serial_purepython fuel max_iterations zs cs;
  if (sum output =? 33219980)%Z then mret output else Raise AssertionError.

(** [int(o / scale_factor * 255)] for an integer [o] and a float
    [scale_factor]: the division converts [o] to a float first, which is
    what [false_grayscale] writes out as [int(float(o) / max_value * 255)]. *)
Definition scale (scale_factor : float) (o : Z) : res Z :=
  fo ← float_of_int o;
  q ← truediv fo scale_factor;
  int_of_float (q * 255).

(** [pure_grayscale(desired_width, max_iterations)] up to the array of
    unsigned bytes it builds; the three calls of the imaging library that
    follow hand this array over for display and are not modelled. *)
Definition pure_grayscale (fuel : nat) (g : Globals)
    (desired_width max_iterations : Z) : res (list Z) :=
  output ← calc_pure_python_output fuel g desired_width max_iterations;
  m ← py_max output;
  scale_factor ← float_of_int m;
  scaled ← mapM (scale scale_factor) output;
  array_unsigned 8 scaled.

(** [false_grayscale(desired_width, max_iterations)] up to the array of
    unsigned 32-bit integers it builds.  The generator [output_rgb] is
    consumed once, by the array constructor, and its arithmetic raises
    nothing, so that it is a map. *)
Definition false_grayscale (fuel : nat) (g : Globals)
    (desired_width max_iterations : Z) : res (list Z) :=
  output ← calc_pure_python_output fuel g desired_width max_iterations;
  m ← py_max output;
  max_value ← float_of_int m;
  output_raw_limited ← mapM (scale max_value) output;
  let output_rgb :=
    (fun o => ((o + 256 * o + 256 ^ 2 * o) * 16)%Z) <$> output_raw_limited in
  array_unsigned 32 output_rgb.


End Julia.

(* ===================================================================== *)
(** * ParticleSim.py *)
(* ===================================================================== *)

Module ParticleSim.
Import Py.
Open Scope float_scope.

(** [class Particle].  The three attributes are floats; the integers that
    the callers pass as [ang_vel] are converted exactly by the first float
    operation they meet.  The particles of a simulator are distinct
    objects, so that a list of records holds their state. *)
Record Particle : Set := mkParticle { x : float; y : float; ang_vel : float }.

(** [class ParticleSimulator]: the particle list, and the two attributes
    that [evolve_numpy] creates on first use ([None] while the instance
    does not have them).  [r_i] is the [(n, 2)] array of positions, one row
    per particle, and [ang_vel_i] the length-[n] array of angular
    velocities. *)
Record ParticleSimulator : Set := mkSimulator {
  particles : list Particle;
  r_i : option (list (float * float));
  ang_vel_i : option (list float)
}.

(** [ParticleSimulator(particles)]. *)
Definition init (ps : list Particle) : ParticleSimulator :=
  mkSimulator ps None None.

Definition timestep : float := 0.00001.

(** [nsteps = int(dt / timestep)]. *)
Definition nsteps_of (dt : float) : res Z :=
  q ← truediv dt timestep;
  int_of_float q.

(** The body of [for p in self.particles] in [evolve_python], on a
    particle whose attributes are Python floats.  (Once [evolve_numpy] has
    copied its rows into the particles their coordinates are NumPy
    scalars, whose operations warn where those of the floats raise.) *)
Definition step_particle (p : Particle) : res Particle :=
  xx ← float_pow_2 (x p);
  yy ← float_pow_2 (y p);
  norm ← float_pow_half (xx + yy);
  v_x ← truediv (- y p) norm;
  v_y ← truediv (x p) norm;
  let d_x := timestep * ang_vel p * v_x in
  let d_y := timestep * ang_vel p * v_y in
  mret (mkParticle (x p + d_x) (y p + d_y) (ang_vel p)).

(** [for p in self.particles: ...]: the particles are updated in place,
    one after the other. *)
Fixpoint step_all (ps : list Particle) : res (list Particle) :=
  match ps with
  | [] => mret []
  | p :: ps' => p' ← step_particle p; ps'' ← step_all ps'; mret (p' :: ps'')
  end.

(** [evolve_python(self, dt)].  The methods return [None]; their
    embeddings return the simulator as the call leaves it. *)
Definition evolve_python (self : ParticleSimulator) (dt : float)
    : res ParticleSimulator :=
  nsteps ← nsteps_of dt;
  ps ← for_in (range nsteps) (fun _ ps => step_all ps) (particles self);
  mret (mkSimulator ps (r_i self) (ang_vel_i self)).

(** The same three with the C library's [pow] as [pw].  The attributes
    of the particles are Python floats, as they are on a simulator on
    which [evolve_numpy] has not been called. *)
Definition step_particle_with (pw : libm_pow) (p : Particle) : res Particle :=
  xx ← float_pow_2_with pw (x p);
  yy ← float_pow_2_with pw (y p);
  norm ← float_pow_half_with pw (xx + yy);
  v_x ← truediv (- y p) norm;
  v_y ← truediv (x p) norm;
  let d_x := timestep * ang_vel p * v_x in
  let d_y := timestep * ang_vel p * v_y in
  mret (mkParticle (x p + d_x) (y p + d_y) (ang_vel p)).

Fixpoint step_all_with (pw : libm_pow) (ps : list Particle)
    : res (list Particle) :=
  match ps with
  | [] => mret []
  | p :: ps' =>
      p' ← step_particle_with pw p;
      ps'' ← step_all_with pw ps';
      mret (p' :: ps'')
  end.

Definition evolve_python_with (pw : libm_pow) (self : ParticleSimulator)
    (dt : float) : res ParticleSimulator :=
  nsteps ← nsteps_of dt;
  ps ← for_in (range nsteps) (fun _ ps => step_all_with pw ps) (particles self);
  mret (mkSimulator ps (r_i self) (ang_vel_i self)).

(** One row of the array computation in the loop of [evolve_numpy]:
    [norm_i] is the square root of the sum of the squares of the row,
    [v_i] the row with its columns swapped, its first column multiplied by
    [-1] and both divided by the norm, [d_i] the displacement.  NumPy's
    float operations raise nothing; a division by zero gives an infinity or
    a NaN. *)
Definition numpy_row (r : float * float) (w : float) : float * float :=
  let norm := sqrt (r.1 * r.1 + r.2 * r.2) in
  let v := ((r.2 * -1) / norm, r.1 / norm) in
  let d := (timestep * w * v.1, timestep * w * v.2) in
  (r.1 + d.1, r.2 + d.2).

(** The body of [for i in range(nsteps)] in [evolve_numpy], on the arrays.
    [np.array] of an empty list has one dimension, for which
    [np.linalg.norm(..., axis=1)] raises [AxisError]; arrays of different
    lengths do not broadcast ([ValueError]). *)
Definition numpy_step (w : list float) (r : list (float * float))
    : res (list (float * float)) :=
  if decide (r = []) then Raise AxisError
  else if decide (length w = length r) then mret (zip_with numpy_row r w)
  else Raise ValueError.

(** [for i, p in enumerate(self.particles): p.x, p.y = self.r_i[i]]. *)
Fixpoint copy_back (i : nat) (r : list (float * float)) (ps : list Particle)
    : res (list Particle) :=
  match ps with
  | [] => mret []
  | p :: ps' =>
      row ← getitem r i;
      ps'' ← copy_back (S i) r ps';
      mret (mkParticle row.1 row.2 (ang_vel p) :: ps'')
  end.

(** [evolve_numpy(self, dt)]. *)
Definition evolve_numpy (self : ParticleSimulator) (dt : float)
    : res ParticleSimulator :=
  nsteps ← nsteps_of dt;
  let self :=
    match r_i self with
    | None =>
        mkSimulator (particles self)
          (Some ((fun p => (x p, y p)) <$> particles self))
          (Some (ang_vel <$> particles self))
    | Some _ => self
    end in
  r0 ← from_option Ok (Raise AttributeError) (r_i self);
  r ← for_in (range nsteps) (fun _ r =>
         w ← from_option Ok (Raise AttributeError) (ang_vel_i self);
         numpy_step w r) r0;
  ps ← copy_back 0 r (particles self);
  mret (mkSimulator ps (Some r) (ang_vel_i self)).

(** [fequal] of [test_evolve]. *)
Definition fequal (a b : float) : bool := abs (a - b) <? 1e-5.

(** The particles of [test_evolve], and the positions its assertions
    compare the evolved particles with.  ([test_evolve] calls
    [simulator.evolve], a method that the class does not define; the two
    methods it does define are run on these particles below.) *)
Definition test_particles : list Particle :=
  [mkParticle 0.3 0.5 1; mkParticle 0.0 (-0.5) (-1); mkParticle (-0.1) (-0.4) 3].

Definition test_expected : list (float * float) :=
  [(0.210269, 0.543863); (-0.099334, -0.490034); (0.191358, -0.365227)].

(** The methods that [class ParticleSimulator] defines besides
    [__init__], by name.  An instance has no callable attribute of its
    own, so that [simulator.name(dt)] looks [name] up here and raises
    [AttributeError] when the class has no such method. *)
Definition method : Type := ParticleSimulator -> float -> res ParticleSimulator.

Definition class_methods : list (string * method) :=
  [("evolve_python"%string, evolve_python); ("evolve_numpy"%string, evolve_numpy)].

Definition call_method (cls : list (string * method)) (name : string)
    (self : ParticleSimulator) (dt : float) : res ParticleSimulator :=
  match list_find (fun m => m.1 = name) cls with
  | Some (_, (_, m)) => m self dt
  | None => Raise AttributeError
  end.

(** [test_evolve()], on a class with the methods [cls].  The particles
    are updated in place, so that [p0, p1, p2] are the particles the
    simulator holds after the call; the unpacking raises [ValueError] on
    any other number of them. *)
Definition test_evolve (cls : list (string * method)) : res unit :=
  let simulator := init test_particles in
  simulator ← call_method cls "evolve" simulator 0.1;
  match particles simulator with
  | [p0; p1; p2] =>
      _ ← py_assert (fequal (x p0) 0.210269);
      _ ← py_assert (fequal (y p0) 0.543863);
      _ ← py_assert (fequal (x p1) (-0.099334));
      _ ← py_assert (fequal (y p1) (-0.490034));
      _ ← py_assert (fequal (x p2) 0.191358);
      py_assert (fequal (y p2) (-0.365227))
  | _ => Raise ValueError
  end.


End ParticleSim.

(* ===================================================================== *)
(** * dics_and_sets_func.py *)
(* ===================================================================== *)

Module Agebs.

(** A row of a census [GeoDataFrame]: the identifier in the column
    [CVEGEO], a string, and the other columns (the geometry among them),
    which the functions below carry along and never read. *)
Record Ageb (G : Type) : Type := mkAgeb { CVEGEO : string; columns : G }.
Arguments mkAgeb {G} _ _.
Arguments CVEGEO {G} _.
Arguments columns {G} _.

Section frames.
Context {G : Type}.

(** [set(gdf['CVEGEO'])].  A frame is the list of its rows, in order. *)
Definition column_set (gdf : list (Ageb G)) : gset string :=
  list_to_set (CVEGEO <$> gdf).

(** [gdf[gdf['CVEGEO'].isin(ids)]]: the selection by a boolean mask keeps
    the rows whose identifier is in [ids], in the order of the frame. *)
Definition isin_rows (gdf : list (Ageb G)) (ids : gset string)
    : list (Ageb G) :=
  filter (fun r => CVEGEO r ∈ ids) gdf.

(** [read_shp(file_path)], given the frame that [gpd.read_file] has read
    from the file: the rows whose identifier starts with ['310500001']. *)
Definition read_shp (file : list (Ageb G)) : list (Ageb G) :=
  let gpd_df := file in
  filter (fun r => String.prefix "310500001" (CVEGEO r) = true) gpd_df.

(** [remain(gdf_2010, gdf_2020)]. *)
Definition remain (gdf_2010 gdf_2020 : list (Ageb G)) : list (Ageb G) :=
  let cvegeo_2010 := column_set gdf_2010 in
  let cvegeo_2020 := column_set gdf_2020 in
  let common_agebs := cvegeo_2010 ∩ cvegeo_2020 in
  isin_rows gdf_2010 common_agebs.

(** [new(gdf_2010, gdf_2020)]. *)
Definition new (gdf_2010 gdf_2020 : list (Ageb G)) : list (Ageb G) :=
  let cvegeo_2010 := column_set gdf_2010 in
  let cvegeo_2020 := column_set gdf_2020 in
  let new_agebs_identifiers := cvegeo_2020 ∖ cvegeo_2010 in
  isin_rows gdf_2020 new_agebs_identifiers.

(** [dissapear(gdf_2010, gdf_2020)]. *)
Definition dissapear (gdf_2010 gdf_2020 : list (Ageb G)) : list (Ageb G) :=
  let cvegeo_2010 := column_set gdf_2010 in
  let cvegeo_2020 := column_set gdf_2020 in
  let disappeared_agebs_identifiers := cvegeo_2010 ∖ cvegeo_2020 in
  isin_rows gdf_2010 disappeared_agebs_identifiers.

End frames.

End Agebs.


(* ===================================================================== *)
(** * Reference descriptions against which the programs are compared *)
(* ===================================================================== *)

Module Ref.
Import Py Julia ParticleSim.
Open Scope float_scope.

(** ** The escape count of one point *)

(** One application of the update rule [z = z * z + c]. *)
Definition julia_step (c z : complex) : complex := c_sum (c_prod z z) c.

(** The point reached from [z] after [k] applications. *)
Definition orbit (c z : complex) (k : nat) : complex :=
  Nat.iter k (julia_step c) z.

(** [abs(z) < 2] evaluates, to true. *)
Definition inside (z : complex) : Prop :=
  exists a, c_abs z = Ok a /\ (a <? 2) = true.

(** [n] is the count the rule of the kernel assigns to the point [z] with
    parameter [c]: the first [n] tests [abs(z) < 2 and n < maxiter]
    succeed, and the next one evaluates and fails. *)
Definition is_escape_count (maxiter : Z) (z c : complex) (n : Z) : Prop :=
  (0 <= n)%Z /\
  (forall k : nat, (Z.of_nat k < n)%Z ->
     inside (orbit c z k) /\ (Z.of_nat k < maxiter)%Z) /\
  exists a, c_abs (orbit c z (Z.to_nat n)) = Ok a /\
            ((a <? 2) = false \/ (maxiter <= n)%Z).

(** The loop on the point [z] reaches, after [k] successful tests, a point
    with finite parts whose modulus is beyond the float range. *)
Definition modulus_overflows (maxiter : Z) (z c : complex) : Prop :=
  exists k : nat,
    (forall j : nat, (j < k)%nat ->
       inside (orbit c z j) /\ (Z.of_nat j < maxiter)%Z) /\
    c_abs (orbit c z k) = Raise OverflowError.

(** The count of one point as the kernel's inner loop computes it. *)
Definition escape_count (fuel : nat) (maxiter : Z) (zc : complex * complex)
    : res Z :=
  snd <$> escape_loop fuel maxiter zc.2 (zc.1, 0%Z).

(** The kernel as a map over the index-aligned pairs. *)
Definition kernel_map (fuel : nat) (maxiter : Z) (zs cs : list complex)
    : res (list Z) :=
  mapM (escape_count fuel maxiter) (zip zs cs).

(** The same with the C library's [hypot] as [hyp]. *)
Definition inside_with (hyp : float -> float -> float) (z : complex) : Prop :=
  exists a, c_abs_with hyp z = Ok a /\ (a <? 2) = true.

Definition is_escape_count_with (hyp : float -> float -> float) (maxiter : Z)
    (z c : complex) (n : Z) : Prop :=
  (0 <= n)%Z /\
  (forall k : nat, (Z.of_nat k < n)%Z ->
     inside_with hyp (orbit c z k) /\ (Z.of_nat k < maxiter)%Z) /\
  exists a, c_abs_with hyp (orbit c z (Z.to_nat n)) = Ok a /\
            ((a <? 2) = false \/ (maxiter <= n)%Z).

Definition modulus_overflows_with (hyp : float -> float -> float)
    (maxiter : Z) (z c : complex) : Prop :=
  exists k : nat,
    (forall j : nat, (j < k)%nat ->
       inside_with hyp (orbit c z j) /\ (Z.of_nat j < maxiter)%Z) /\
    c_abs_with hyp (orbit c z k) = Raise OverflowError.

Definition escape_count_with (hyp : float -> float -> float) (fuel : nat)
    (maxiter : Z) (zc : complex * complex) : res Z :=
  snd <$> escape_loop_with hyp fuel maxiter zc.2 (zc.1, 0%Z).

Definition kernel_map_with (hyp : float -> float -> float) (fuel : nat)
    (maxiter : Z) (zs cs : list complex) : res (list Z) :=
  mapM (escape_count_with hyp fuel maxiter) (zip zs cs).

(** ** The batch strategy of the fractal kernel *)

(** Modelled from the spec: the state of the batch strategy of section
    4.2, of which the sources hold no implementation.  It is held for all
    points at once: per point the current value, the parameter, the count
    and whether the point is still active. *)
Record batch_point : Set := BatchPoint {
  b_z : complex; b_c : complex; b_n : Z; b_active : bool
}.

(** Modelled from the spec: every point starts at its [zs] value with the
    count 0, active. *)
Definition batch_init (z c : complex) : batch_point := BatchPoint z c 0 true.

(** Modelled from the spec: one round of the batch strategy on one point.
    A point that is still active and passes the escape test is updated and
    counted; a point that fails the test stops being updated.  The modulus
    is a float, computed with the same library function [hyp] as the
    scalar kernel's, and the test raises nothing: an overflowing modulus
    is an infinity, and the point has escaped. *)
Definition batch_round_with (hyp : float -> float -> float) (p : batch_point)
    : batch_point :=
  if b_active p && (modulus_with hyp (b_z p) <? 2)
  then BatchPoint (julia_step (b_c p) (b_z p)) (b_c p) (b_n p + 1) true
  else BatchPoint (b_z p) (b_c p) (b_n p) false.

(** Modelled from the spec: the batch strategy of the fractal kernel.
    [max_iterations] rounds are run, each on all points at once, and the
    counts are the output. *)
Definition batch_escape_iterate_with (hyp : float -> float -> float)
    (max_iterations : Z) (zs cs : list complex) : list Z :=
  b_n <$> Nat.iter (Z.to_nat max_iterations) (fmap (batch_round_with hyp))
            (zip_with batch_init zs cs).

(** ** The grid in closed form *)

(** Row-major enumeration: for every [ycoord] of [y] in turn, every
    [xcoord] of [x] in turn. *)
Definition grid_points (x y : list float) : list complex :=
  ycoord ← y; (fun xcoord => Complex xcoord ycoord) <$> x.

Definition grid_params (g : Globals) (x y : list float) : list complex :=
  replicate (length y * length x) (Complex (c_real g) (c_imag g)).

(** [n] values starting at [start], each the float sum of its predecessor
    and [step]. *)
Fixpoint accumulate (n : nat) (start step : float) : list float :=
  match n with
  | O => []
  | S n' => start :: accumulate n' (start + step) step
  end.

(** Every element of a list of floats is strictly below the next one. *)
Definition strictly_ascending (l : list float) : bool :=
  forallb (fun ab : float * float => ab.1 <? ab.2) (zip l (tail l)).

(** Every element is strictly above the next one. *)
Definition strictly_descending (l : list float) : bool :=
  forallb (fun ab : float * float => ab.2 <? ab.1) (zip l (tail l)).

(** The running coordinate after [n] additions of [step]. *)
Definition running (step : float) (n : nat) (start : float) : float :=
  Nat.iter n (fun v => v + step) start.

(** The steps that cannot take a coordinate up: the zeros and the
    negative numbers.  The others are the positive numbers and NaN. *)
Definition step_down (s : float) : bool :=
  match Prim2SF s with
  | S754_zero _ | S754_finite true _ _ | S754_infinity true => true
  | _ => false
  end.

(** Whether a coordinate loop, run on the coordinate alone, ends within
    [fuel] evaluations of its test. *)
Fixpoint loop_ends (below : float -> bool) (step : float) (fuel : nat)
    (cur : float) : bool :=
  match fuel with
  | O => false
  | S fuel' => if below cur then loop_ends below step fuel' (cur + step) else true
  end.

(** Whether the two coordinate loops of the grid builder end. *)
Definition grid_loops_end (fuel : nat) (g : Globals) (desired_width : Z)
    : bool :=
  match coordinate_steps g desired_width with
  | Ok (x_step, y_step) =>
      loop_ends (fun v => y1 g <? v) y_step fuel (y2 g)
      && loop_ends (fun v => v <? x2 g) x_step fuel (x1 g)
  | _ => false
  end.

(** ** The checksum in a form that evaluates fast

    [run_point] is the kernel's inner loop on one point, on the float
    components, with the list of the counts still to come in place of the
    counter and its comparison with [maxiter]: [counts] holds
    [n + 1, ..., maxiter].  The tests are those of [c_abs], each float
    operation done once.  [run_row] and [run_grid] add the counts up along
    the rows of the grid. *)
Fixpoint run_point (counts : list Z) (n : Z) (re im cre cim : float)
    {struct counts} : res Z :=
  let a := abs re in
  let b := abs im in
  if a <? infinity then
    if b <? infinity then
      let hi := if a <? b then b else a in
      let h :=
        if 0x1p+500 <=? hi then
          sqrt ((a * 0x1p-600) * (a * 0x1p-600)
                + (b * 0x1p-600) * (b * 0x1p-600)) * 0x1p+600
        else if hi <? 0x1p-500 then
          sqrt ((a * 0x1p+600) * (a * 0x1p+600)
                + (b * 0x1p+600) * (b * 0x1p+600)) * 0x1p-600
        else sqrt (a * a + b * b) in
      if abs h <? infinity then
        if h <? 2 then
          match counts with
          | [] => Ok n
          | n' :: counts' =>
              run_point counts' n' (re * re - im * im + cre)
                (re * im + im * re + cim) cre cim
          end
        else Ok n
      else Raise OverflowError
    else Ok n
  else Ok n.

Fixpoint run_row (counts : list Z) (x : list float) (ycoord cre cim : float)
    (acc : Z) : res Z :=
  match x with
  | [] => Ok acc
  | xcoord :: x' =>
      match run_point counts 0 xcoord ycoord cre cim with
      | Ok n => run_row counts x' ycoord cre cim (acc + n)
      | Raise e => Raise e
      | OutOfFuel => OutOfFuel
      end
  end.

Fixpoint run_grid (counts : list Z) (x y : list float) (cre cim : float)
    (acc : Z) : res Z :=
  match y with
  | [] => Ok acc
  | ycoord :: y' =>
      match run_row counts x ycoord cre cim acc with
      | Ok acc' => run_grid counts x y' cre cim acc'
      | Raise e => Raise e
      | OutOfFuel => OutOfFuel
      end
  end.

(** The counts [1, ..., maxiter]. *)
Definition count_list (maxiter : Z) : list Z :=
  Z.of_nat <$> seq 1 (Z.to_nat maxiter).

(** The sum of the counts of the grid of [desired_width], on the forms
    above. *)
Definition checksum (fuel : nat) (g : Globals) (desired_width maxiter : Z)
    : res Z :=
  '(x_step, y_step) ← coordinate_steps g desired_width;
  y ← y_list fuel g y_step;
  x ← x_list fuel g x_step;
  run_grid (count_list maxiter) x y (c_real g) (c_imag g) 0.

(** The same sum through the program: the grid builder, then the kernel,
    then [sum]. *)
Definition program_checksum (fuel : nat) (g : Globals)
    (desired_width maxiter : Z) : res Z :=
  '(_, _, zs, cs) ← build_grid fuel g desired_width;
  output ← calculate_z_serial_purepython fuel maxiter zs cs;
  mret (sum output).

(** ** Particles *)

(** A binary64 number, as the specification of the primitive operations
    represents it, that is a NaN or has its sign bit clear. *)
Definition sf_nonneg (f : spec_float) : Prop :=
  match f with
  | S754_nan => True
  | S754_zero s | S754_infinity s | S754_finite s _ _ => s = false
  end.

(** The positions of a list of particles. *)
Definition positions (ps : list Particle) : list (float * float) :=
  (fun p => (x p, y p)) <$> ps.

(** Two lists of positions agree within [fequal]'s tolerance, coordinate
    by coordinate. *)
Definition within_tolerance (a b : list (float * float)) : bool :=
  bool_decide (length a = length b) &&
  forallb (fun uv : (float * float) * (float * float) =>
             fequal uv.1.1 uv.2.1 && fequal uv.1.2 uv.2.2) (zip a b).

(** A particle with the position [row] and the angular velocity of [p]. *)
Definition moved (row : float * float) (p : Particle) : Particle :=
  mkParticle row.1 row.2 (ang_vel p).

(** What a call leaves that a later call or the caller can observe of
    the motion: the positions and the two arrays. *)
Definition observed (s : ParticleSimulator)
    : list (float * float) * option (list (float * float)) * option (list float) :=
  (positions (particles s), r_i s, ang_vel_i s).

(** The norm of a position as [evolve_python] computes it, with the C
    library's [pow] as [pw]. *)
Definition python_norm (pw : libm_pow) (r : float * float) : res float :=
  xx ← float_pow_2_with pw r.1;
  yy ← float_pow_2_with pw r.2;
  float_pow_half_with pw (xx + yy).

(** The norm of a row as [evolve_numpy] computes it. *)
Definition numpy_norm (r : float * float) : float :=
  sqrt (r.1 * r.1 + r.2 * r.2).

(** The two floats are the same, bit for bit. *)
Definition same_float (a b : float) : bool :=
  match Prim2SF a, Prim2SF b with
  | S754_nan, S754_nan => true
  | S754_zero s, S754_zero s' => Bool.eqb s s'
  | S754_infinity s, S754_infinity s' => Bool.eqb s s'
  | S754_finite s m e, S754_finite s' m' e' =>
      Bool.eqb s s' && Pos.eqb m m' && Z.eqb e e'
  | _, _ => false
  end.

(** The two norms of a position are the same float, and it is not zero. *)
Definition norms_agree (pw : libm_pow) (r : float * float) : bool :=
  match python_norm pw r with
  | Ok norm => same_float norm (numpy_norm r) && negb (norm =? 0)
  | _ => false
  end.

(** The rows after [n] steps of the array loop. *)
Definition rows_after (w : list float) (n : nat) (r : list (float * float))
    : list (float * float) :=
  Nat.iter n (fun r => zip_with numpy_row r w) r.

(** The norms agree on every row that the array loop meets in [n] steps
    from [r]. *)
Fixpoint norms_agree_for (pw : libm_pow) (w : list float) (n : nat)
    (r : list (float * float)) : bool :=
  match n with
  | O => true
  | S n' =>
      forallb (norms_agree pw) r
      && norms_agree_for pw w n' (zip_with numpy_row r w)
  end.

(** The same for successive calls with the durations [dts], each of
    which has a step count. *)
Fixpoint norms_agree_calls (pw : libm_pow) (w : list float) (dts : list float)
    (r : list (float * float)) : bool :=
  match dts with
  | [] => true
  | dt :: dts' =>
      match nsteps_of dt with
      | Ok n =>
          norms_agree_for pw w (Z.to_nat n) r
          && norms_agree_calls pw w dts' (rows_after w (Z.to_nat n) r)
      | _ => false
      end
  end.

(** A C library whose [pow] rounds the square and the square root
    correctly and reports no error for them. *)
Definition rounded_pow : libm_pow :=
  fun v e => (if e =? 2 then v * v else sqrt v, E_none).

(** ** The scaling of the counts to grey levels *)

(** The float [fo / scale_factor * 255] is from [0] to below [256]. *)
Definition in_byte_range (scale_factor fo : float) : bool :=
  let v := fo / scale_factor * 255 in (0 <=? v) && (v <? 256).

(** [float(k)] for [k] from [0] to [N]. *)
Definition floats_upto (N : nat) : list (res float) :=
  (fun k : nat => float_of_int (Z.of_nat k)) <$> seq 0 (S N).

(** For every largest count [m] from [1] to [N]: [float(m)] is not zero,
    the count [m] scales to [255] and the count [0] to [0], and every
    count from [0] to [m] scales to a float in the byte range. *)
Definition scale_table_ok (N : nat) : bool :=
  let fs := floats_upto N in
  forallb (fun m : nat =>
    match fs !! m with
    | Some (Ok fm) =>
        negb (fm =? 0)
        && match int_of_float (fm / fm * 255) with
           | Ok 255%Z => true
           | _ => false
           end
        && match int_of_float (0 / fm * 255) with
           | Ok 0%Z => true
           | _ => false
           end
        && forallb (fun r => match r with
                             | Ok fo => in_byte_range fm fo
                             | _ => false
                             end) (take (S m) fs)
    | _ => false
    end) (seq 1 N).

(** ** Mirrored coordinates *)

(** [b] is the negative of [a], or both are zeros (of any signs). *)
Definition sf_mirror (a b : spec_float) : Prop :=
  b = SFopp a \/ ((exists s, a = S754_zero s) /\ (exists s, b = S754_zero s)).

Definition mirror (a b : float) : Prop := sf_mirror (Prim2SF a) (Prim2SF b).

(** ** A simulator whose arrays hold what its particles hold *)

Definition in_sync (s : ParticleSimulator) : Prop :=
  r_i s = Some (positions (particles s)) /\
  ang_vel_i s = Some (ang_vel <$> particles s).


End Ref.

Import Py Julia ParticleSim Ref.
Open Scope float_scope.

(* ===================================================================== *)
(** * Outcomes and loops *)
(* ===================================================================== *)

Section outcomes.
Context {A B : Type}.
Implicit Types (m : res A) (f : A -> res B).

Lemma bind_Ok m f b : m ≫= f = Ok b <-> exists a, m = Ok a /\ f a = Ok b.
Proof.
  destruct m as [a|e|]; simpl; split; try (intros [a' [? ?]]); try discriminate.
  - intros H. by exists a.
  - by simplify_eq.
Qed.

Lemma bind_Raise m f e :
  m ≫= f = Raise e <-> m = Raise e \/ exists a, m = Ok a /\ f a = Raise e.
Proof.
  destruct m as [a|e'|]; cbn; split; intros H.
  - right. by exists a.
  - destruct H as [?|(a' & ? & ?)]; by simplify_eq.
  - left. by simplify_eq.
  - destruct H as [?|(a' & ? & ?)]; by simplify_eq.
  - discriminate.
  - destruct H as [?|(a' & ? & ?)]; by simplify_eq.
Qed.

Lemma fmap_Ok (h : A -> B) m b : h <$> m = Ok b <-> exists a, m = Ok a /\ b = h a.
Proof.
  destruct m as [a|e|]; simpl; split; try (intros (a' & ? & ?)); try discriminate.
  - intros [= <-]. by exists a.
  - by simplify_eq.
Qed.

Lemma bind_mret m : m ≫= mret = m.
Proof. by destruct m. Qed.

End outcomes.

(** A loop that has returned or raised does the same with a larger budget. *)
Lemma while_mono {S : Type} (cond : S -> res bool) (body : S -> res S)
    (fuel fuel' : nat) (s : S) :
  (fuel <= fuel')%nat -> while fuel cond body s <> OutOfFuel ->
  while fuel' cond body s = while fuel cond body s.
Proof.
  revert fuel' s. induction fuel as [|fuel IH]; intros fuel' s Hle Hne; [done|].
  destruct fuel' as [|fuel']; [lia|]. simpl in *.
  destruct (cond s) as [[]| |]; simpl in *; try done.
  destruct (body s) as [s'| |]; simpl in *; try done.
  apply IH; [lia|done].
Qed.

(** A [for] loop whose body raises nothing is a left fold. *)
Lemma for_in_pure {A S : Type} (l : list A) (h : S -> A -> S) (s : S) :
  for_in l (fun a s => mret (h s a)) s = Ok (foldl h s l).
Proof. revert s. induction l as [|a l IH]; intros s; simpl; [done|apply IH]. Qed.

Lemma for_in_app {A S : Type} (l1 l2 : list A) (body : A -> S -> res S) (s : S) :
  for_in (l1 ++ l2) body s = for_in l1 body s ≫= for_in l2 body.
Proof.
  revert s. induction l1 as [|a l1 IH]; intros s; simpl; [done|].
  destruct (body a s); simpl; [apply IH|done..].
Qed.

(* ===================================================================== *)
(** * The escape-time kernel *)
(* ===================================================================== *)

Section kernel.
Variables (fuel : nat) (maxiter : Z).

Lemma kernel_body_eq (zs cs : list complex) (i : nat) (output : list Z) :
  kernel_body fuel maxiter zs cs i output =
  (z ← getitem zs i; c ← getitem cs i;
   n ← escape_count fuel maxiter (z, c); mret (<[i := n]> output)).
Proof.
  unfold kernel_body, escape_count. simpl.
  destruct (getitem zs i) as [z| |]; simpl; [|done..].
  destruct (getitem cs i) as [c| |]; simpl; [|done..].
  by destruct (escape_loop fuel maxiter c (z, 0%Z)) as [[z' n]| |].
Qed.

(** The index loop, started at any point of its run, fills the slots that
    remain with the counts of the points that remain. *)
Lemma kernel_loop_map (zs2 cs2 zs1 cs1 : list complex) (output : list Z) :
  length zs1 = length cs1 -> length zs2 = length cs2 ->
  length output = (length zs1 + length zs2)%nat ->
  for_in (seq (length zs1) (length zs2))
    (kernel_body fuel maxiter (zs1 ++ zs2) (cs1 ++ cs2)) output
  = (rest ← mapM (escape_count fuel maxiter) (zip zs2 cs2);
     mret (take (length zs1) output ++ rest)).
Proof.
  revert cs2 zs1 cs1 output.
  induction zs2 as [|z zs2 IH]; intros [|c cs2] zs1 cs1 output H1 H2 Hout;
    simplify_eq/=.
  - rewrite take_ge by lia. by rewrite app_nil_r.
  - rewrite kernel_body_eq. unfold getitem.
    rewrite list_lookup_middle by done.
    rewrite list_lookup_middle by done. simpl.
    destruct (escape_count fuel maxiter (z, c)) as [n| |]; simpl; [|done..].
    specialize (IH cs2 (zs1 ++ [z]) (cs1 ++ [c]) (<[length zs1 := n]> output)).
    rewrite !length_app in IH. simpl in IH.
    rewrite <- !(assoc_L (++)) in IH. simpl in IH.
    replace (length zs1 + 1)%nat with (S (length zs1)) in IH by lia.
    rewrite IH; [|lia|done|rewrite length_insert; lia].
    destruct (mapM (escape_count fuel maxiter) (zip zs2 cs2)) as [rest| |];
      simpl; [|done..].
    f_equal. rewrite (take_S_r _ _ n).
    + rewrite take_insert_ge by lia. by rewrite <- (assoc_L (++)).
    + apply list_lookup_insert_eq. lia.
Qed.

(** The kernel is the map of the per-point loop over the paired inputs. *)
Lemma kernel_is_map (zs cs : list complex) :
  length zs = length cs ->
  calculate_z_serial_purepython fuel maxiter zs cs = kernel_map fuel maxiter zs cs.
Proof.
  intros Hlen. unfold calculate_z_serial_purepython, kernel_map.
  pose proof (kernel_loop_map zs cs [] [] (replicate (length zs) 0%Z)) as H.
  simpl in H. rewrite H; [|done..|by rewrite length_replicate].
  apply bind_mret.
Qed.

End kernel.

Section mapM_outcomes.
Context {A B : Type} (f : A -> res B).

Lemma mapM_Ok (l : list A) (k : list B) :
  mapM f l = Ok k <-> Forall2 (fun a b => f a = Ok b) l k.
Proof.
  revert k. induction l as [|a l IH]; intros k; simpl.
  - split; [intros [= <-]; constructor|by inversion 1].
  - split.
    + intros H. apply bind_Ok in H as (b & Hb & H).
      apply bind_Ok in H as (k' & Hk' & [= <-]).
      constructor; [done|by apply IH].
    + inversion 1 as [|? b ? k' Hb Hk']; subst.
      apply IH in Hk'. by rewrite Hb, Hk'.
Qed.

Lemma mapM_not_Ok (l : list A) (r : res (list B)) :
  mapM f l = r -> (forall k, r <> Ok k) ->
  exists (i : nat) (a : A), l !! i = Some a /\
    match r with
    | Ok _ => False
    | Raise e => f a = Raise e
    | OutOfFuel => f a = OutOfFuel
    end.
Proof.
  revert r. induction l as [|a l IH]; intros r <- Hr; simpl in *.
  - by destruct (Hr []).
  - destruct (f a) as [b|e|] eqn:Hb; simpl in *.
    + destruct (mapM f l) as [k|e|] eqn:Hk; simpl in *.
      * by destruct (Hr (b :: k)).
      * destruct (IH (Raise e) eq_refl) as (i & a' & ? & ?); [done|].
        by exists (S i), a'.
      * destruct (IH OutOfFuel eq_refl) as (i & a' & ? & ?); [done|].
        by exists (S i), a'.
    + by exists 0%nat, a.
    + by exists 0%nat, a.
Qed.

End mapM_outcomes.

Section escape_count.
Variable (maxiter : Z) (c : complex).

Lemma c_abs_Raise (z : complex) (e : exn) : c_abs z = Raise e -> e = OverflowError.
Proof. unfold c_abs. case_match; by intros [=]. Qed.

Lemma c_abs_returns (z : complex) : c_abs z <> OutOfFuel.
Proof. unfold c_abs. by case_match. Qed.

Lemma orbit_S_l (z : complex) (k : nat) :
  orbit c (julia_step c z) k = orbit c z (S k).
Proof. unfold orbit. by rewrite Nat.iter_succ_r. Qed.

(** What the inner loop has done when it returns. *)
Lemma escape_loop_Ok (fuel : nat) (z z' : complex) (n n' : Z) :
  escape_loop fuel maxiter c (z, n) = Ok (z', n') ->
  exists k : nat,
    n' = (n + Z.of_nat k)%Z /\ z' = orbit c z k /\
    (forall j : nat, (j < k)%nat ->
       inside (orbit c z j) /\ (n + Z.of_nat j < maxiter)%Z) /\
    exists a, c_abs (orbit c z k) = Ok a /\
              ((a <? 2) = false \/ (maxiter <= n + Z.of_nat k)%Z).
Proof.
  unfold escape_loop. revert z n.
  induction fuel as [|fuel IH]; intros z n; simpl; [done|].
  destruct (c_abs z) as [a| |] eqn:Ha; simpl; [|done..].
  destruct (a <? 2) eqn:Hlt; simpl.
  - destruct (n <? maxiter)%Z eqn:Hn; simpl.
    + intros H. apply IH in H as (k & -> & -> & Hin & a' & Ha' & Hstop).
      exists (S k). rewrite <- orbit_S_l. split_and!; [lia|done| |].
      * intros [|j] Hj.
        -- split; [by exists a|lia].
        -- rewrite <- orbit_S_l. destruct (Hin j) as [? ?]; [lia|]. split; [done|lia].
      * exists a'. split; [done|]. destruct Hstop; [by left|right; lia].
    + intros [= <- <-]. exists 0%nat. split_and!; [lia|done|intros; lia|].
      exists a. split; [done|right; lia].
  - intros [= <- <-]. exists 0%nat. split_and!; [lia|done|intros; lia|].
    exists a. split; [done|by left].
Qed.

(** What it has done when it raises. *)
Lemma escape_loop_Raise (fuel : nat) (z : complex) (n : Z) (e : exn) :
  escape_loop fuel maxiter c (z, n) = Raise e ->
  e = OverflowError /\
  exists k : nat,
    (forall j : nat, (j < k)%nat ->
       inside (orbit c z j) /\ (n + Z.of_nat j < maxiter)%Z) /\
    c_abs (orbit c z k) = Raise OverflowError.
Proof.
  unfold escape_loop. revert z n.
  induction fuel as [|fuel IH]; intros z n; simpl; [done|].
  destruct (c_abs z) as [a|e'|] eqn:Ha; simpl; [| |done].
  - destruct (a <? 2) eqn:Hlt; simpl; [|done].
    destruct (n <? maxiter)%Z eqn:Hn; simpl; [|done].
    intros H. apply IH in H as (-> & k & Hin & Hk). split; [done|].
    exists (S k). rewrite <- orbit_S_l. split; [|done].
    intros [|j] Hj.
    + split; [by exists a|lia].
    + rewrite <- orbit_S_l. destruct (Hin j) as [? ?]; [lia|]. split; [done|lia].
  - intros [= <-]. pose proof (c_abs_Raise _ _ Ha) as ->. split; [done|].
    exists 0%nat. split; [intros; lia|done].
Qed.

(** A budget above the iterations that remain is enough. *)
Lemma escape_loop_fuel (fuel : nat) (z : complex) (n : Z) :
  (Z.to_nat (maxiter - n) < fuel)%nat ->
  escape_loop fuel maxiter c (z, n) <> OutOfFuel.
Proof.
  unfold escape_loop. revert z n.
  induction fuel as [|fuel IH]; intros z n Hf; simpl; [lia|].
  destruct (c_abs z) as [a| |] eqn:Ha; simpl; [|discriminate|].
  2: { by apply c_abs_returns in Ha. }
  destruct (a <? 2); simpl; [|discriminate].
  destruct (n <? maxiter)%Z eqn:Hn; simpl; [|discriminate].
  apply IH. lia.
Qed.

End escape_count.

Lemma escape_count_Ok (fuel : nat) (maxiter : Z) (z c : complex) (n : Z) :
  escape_count fuel maxiter (z, c) = Ok n -> is_escape_count maxiter z c n.
Proof.
  unfold escape_count. simpl. intros H.
  apply fmap_Ok in H as ([z' n'] & H & ->). simpl.
  apply escape_loop_Ok in H as (k & -> & _ & Hin & a & Ha & Hstop).
  rewrite Z.add_0_l. split_and!; [lia| |].
  - intros j Hj. destruct (Hin j) as [? ?]; [lia|]. split; [done|lia].
  - rewrite Nat2Z.id. exists a. split; [done|]. destruct Hstop; [by left|right; lia].
Qed.

Lemma escape_count_Raise (fuel : nat) (maxiter : Z) (z c : complex) (e : exn) :
  escape_count fuel maxiter (z, c) = Raise e ->
  e = OverflowError /\ modulus_overflows maxiter z c.
Proof.
  unfold escape_count. simpl. intros H.
  destruct (escape_loop fuel maxiter c (z, 0%Z)) as [?|e'|] eqn:Hl; simplify_eq/=.
  apply escape_loop_Raise in Hl as (-> & k & Hin & Hk). split; [done|].
  exists k. split; [|done]. intros j Hj. destruct (Hin j) as [? ?]; [done|].
  split; [done|lia].
Qed.

Lemma escape_count_fuel (fuel : nat) (maxiter : Z) (zc : complex * complex) :
  (Z.to_nat maxiter < fuel)%nat -> escape_count fuel maxiter zc <> OutOfFuel.
Proof.
  unfold escape_count. intros Hf H.
  destruct (escape_loop fuel maxiter zc.2 (zc.1, 0%Z)) eqn:Hl; simplify_eq/=.
  revert Hl. apply escape_loop_fuel. by rewrite Z.sub_0_r.
Qed.

(** The count of a point is unique. *)
Lemma is_escape_count_unique (maxiter : Z) (z c : complex) (n n' : Z) :
  is_escape_count maxiter z c n -> is_escape_count maxiter z c n' -> n = n'.
Proof.
  assert (forall n n', is_escape_count maxiter z c n ->
            is_escape_count maxiter z c n' -> (n < n')%Z -> False) as Hlt.
  { clear n n'. intros n n' (Hn & _ & a & Ha & Hstop) (_ & Hin & _) Hnn'.
    destruct (Hin (Z.to_nat n)) as [(a' & Ha' & Hlt) ?]; [lia|].
    rewrite Ha in Ha'. simplify_eq. destruct Hstop; [congruence|lia]. }
  intros H1 H2. destruct (Z.lt_trichotomy n n') as [?|[?|?]]; [|done|].
  - by destruct (Hlt n n').
  - by destruct (Hlt n' n).
Qed.

(** ** With the C library's [hypot] as a parameter *)

Section libm_hypot.
Variable hyp : float -> float -> float.

Section kernel_with.
Variables (fuel : nat) (maxiter : Z).

Lemma kernel_body_with_eq (zs cs : list complex) (i : nat) (output : list Z) :
  kernel_body_with hyp fuel maxiter zs cs i output =
  (z ← getitem zs i; c ← getitem cs i;
   n ← escape_count_with hyp fuel maxiter (z, c); mret (<[i := n]> output)).
Proof.
  unfold kernel_body_with, escape_count_with. simpl.
  destruct (getitem zs i) as [z| |]; simpl; [|done..].
  destruct (getitem cs i) as [c| |]; simpl; [|done..].
  by destruct (escape_loop_with hyp fuel maxiter c (z, 0%Z)) as [[z' n]| |].
Qed.

(** The index loop, started at any point of its run, fills the slots that
    remain with the counts of the points that remain. *)
Lemma kernel_loop_map_with (zs2 cs2 zs1 cs1 : list complex) (output : list Z) :
  length zs1 = length cs1 -> length zs2 = length cs2 ->
  length output = (length zs1 + length zs2)%nat ->
  for_in (seq (length zs1) (length zs2))
    (kernel_body_with hyp fuel maxiter (zs1 ++ zs2) (cs1 ++ cs2)) output
  = (rest ← mapM (escape_count_with hyp fuel maxiter) (zip zs2 cs2);
     mret (take (length zs1) output ++ rest)).
Proof.
  revert cs2 zs1 cs1 output.
  induction zs2 as [|z zs2 IH]; intros [|c cs2] zs1 cs1 output H1 H2 Hout;
    simplify_eq/=.
  - rewrite take_ge by lia. by rewrite app_nil_r.
  - rewrite kernel_body_with_eq. unfold getitem.
    rewrite list_lookup_middle by done.
    rewrite list_lookup_middle by done. simpl.
    destruct (escape_count_with hyp fuel maxiter (z, c)) as [n| |]; simpl; [|done..].
    specialize (IH cs2 (zs1 ++ [z]) (cs1 ++ [c]) (<[length zs1 := n]> output)).
    rewrite !length_app in IH. simpl in IH.
    rewrite <- !(assoc_L (++)) in IH. simpl in IH.
    replace (length zs1 + 1)%nat with (S (length zs1)) in IH by lia.
    rewrite IH; [|lia|done|rewrite length_insert; lia].
    destruct (mapM (escape_count_with hyp fuel maxiter) (zip zs2 cs2)) as [rest| |];
      simpl; [|done..].
    f_equal. rewrite (take_S_r _ _ n).
    + rewrite take_insert_ge by lia. by rewrite <- (assoc_L (++)).
    + apply list_lookup_insert_eq. lia.
Qed.

(** The kernel is the map of the per-point loop over the paired inputs. *)
Lemma kernel_is_map_with (zs cs : list complex) :
  length zs = length cs ->
  calculate_z_serial_purepython_with hyp fuel maxiter zs cs = kernel_map_with hyp fuel maxiter zs cs.
Proof.
  intros Hlen. unfold calculate_z_serial_purepython_with, kernel_map_with.
  pose proof (kernel_loop_map_with zs cs [] [] (replicate (length zs) 0%Z)) as H.
  simpl in H. rewrite H; [|done..|by rewrite length_replicate].
  apply bind_mret.
Qed.

End kernel_with.

Section escape_count_with.
Variable (maxiter : Z) (c : complex).

Lemma c_abs_with_Raise (z : complex) (e : exn) : c_abs_with hyp z = Raise e -> e = OverflowError.
Proof. unfold c_abs_with. case_match; by intros [=]. Qed.

Lemma c_abs_with_returns (z : complex) : c_abs_with hyp z <> OutOfFuel.
Proof. unfold c_abs_with. by case_match. Qed.

Lemma escape_loop_with_Ok (fuel : nat) (z z' : complex) (n n' : Z) :
  escape_loop_with hyp fuel maxiter c (z, n) = Ok (z', n') ->
  exists k : nat,
    n' = (n + Z.of_nat k)%Z /\ z' = orbit c z k /\
    (forall j : nat, (j < k)%nat ->
       inside_with hyp (orbit c z j) /\ (n + Z.of_nat j < maxiter)%Z) /\
    exists a, c_abs_with hyp (orbit c z k) = Ok a /\
              ((a <? 2) = false \/ (maxiter <= n + Z.of_nat k)%Z).
Proof.
  unfold escape_loop_with. revert z n.
  induction fuel as [|fuel IH]; intros z n; simpl; [done|].
  destruct (c_abs_with hyp z) as [a| |] eqn:Ha; simpl; [|done..].
  destruct (a <? 2) eqn:Hlt; simpl.
  - destruct (n <? maxiter)%Z eqn:Hn; simpl.
    + intros H. apply IH in H as (k & -> & -> & Hin & a' & Ha' & Hstop).
      exists (S k). rewrite <- orbit_S_l. split_and!; [lia|done| |].
      * intros [|j] Hj.
        -- split; [by exists a|lia].
        -- rewrite <- orbit_S_l. destruct (Hin j) as [? ?]; [lia|]. split; [done|lia].
      * exists a'. split; [done|]. destruct Hstop; [by left|right; lia].
    + intros [= <- <-]. exists 0%nat. split_and!; [lia|done|intros; lia|].
      exists a. split; [done|right; lia].
  - intros [= <- <-]. exists 0%nat. split_and!; [lia|done|intros; lia|].
    exists a. split; [done|by left].
Qed.

(** What it has done when it raises. *)
Lemma escape_loop_with_Raise (fuel : nat) (z : complex) (n : Z) (e : exn) :
  escape_loop_with hyp fuel maxiter c (z, n) = Raise e ->
  e = OverflowError /\
  exists k : nat,
    (forall j : nat, (j < k)%nat ->
       inside_with hyp (orbit c z j) /\ (n + Z.of_nat j < maxiter)%Z) /\
    c_abs_with hyp (orbit c z k) = Raise OverflowError.
Proof.
  unfold escape_loop_with. revert z n.
  induction fuel as [|fuel IH]; intros z n; simpl; [done|].
  destruct (c_abs_with hyp z) as [a|e'|] eqn:Ha; simpl; [| |done].
  - destruct (a <? 2) eqn:Hlt; simpl; [|done].
    destruct (n <? maxiter)%Z eqn:Hn; simpl; [|done].
    intros H. apply IH in H as (-> & k & Hin & Hk). split; [done|].
    exists (S k). rewrite <- orbit_S_l. split; [|done].
    intros [|j] Hj.
    + split; [by exists a|lia].
    + rewrite <- orbit_S_l. destruct (Hin j) as [? ?]; [lia|]. split; [done|lia].
  - intros [= <-]. pose proof (c_abs_with_Raise _ _ Ha) as ->. split; [done|].
    exists 0%nat. split; [intros; lia|done].
Qed.

(** A budget above the iterations that remain is enough. *)
Lemma escape_loop_with_fuel (fuel : nat) (z : complex) (n : Z) :
  (Z.to_nat (maxiter - n) < fuel)%nat ->
  escape_loop_with hyp fuel maxiter c (z, n) <> OutOfFuel.
Proof.
  unfold escape_loop_with. revert z n.
  induction fuel as [|fuel IH]; intros z n Hf; simpl; [lia|].
  destruct (c_abs_with hyp z) as [a| |] eqn:Ha; simpl; [|discriminate|].
  2: { by apply c_abs_with_returns in Ha. }
  destruct (a <? 2); simpl; [|discriminate].
  destruct (n <? maxiter)%Z eqn:Hn; simpl; [|discriminate].
  apply IH. lia.
Qed.

End escape_count_with.

Lemma escape_count_with_Ok (fuel : nat) (maxiter : Z) (z c : complex) (n : Z) :
  escape_count_with hyp fuel maxiter (z, c) = Ok n -> is_escape_count_with hyp maxiter z c n.
Proof.
  unfold escape_count_with. simpl. intros H.
  apply fmap_Ok in H as ([z' n'] & H & ->). simpl.
  apply escape_loop_with_Ok in H as (k & -> & _ & Hin & a & Ha & Hstop).
  rewrite Z.add_0_l. split_and!; [lia| |].
  - intros j Hj. destruct (Hin j) as [? ?]; [lia|]. split; [done|lia].
  - rewrite Nat2Z.id. exists a. split; [done|]. destruct Hstop; [by left|right; lia].
Qed.

Lemma escape_count_with_Raise (fuel : nat) (maxiter : Z) (z c : complex) (e : exn) :
  escape_count_with hyp fuel maxiter (z, c) = Raise e ->
  e = OverflowError /\ modulus_overflows_with hyp maxiter z c.
Proof.
  unfold escape_count_with. simpl. intros H.
  destruct (escape_loop_with hyp fuel maxiter c (z, 0%Z)) as [?|e'|] eqn:Hl; simplify_eq/=.
  apply escape_loop_with_Raise in Hl as (-> & k & Hin & Hk). split; [done|].
  exists k. split; [|done]. intros j Hj. destruct (Hin j) as [? ?]; [done|].
  split; [done|lia].
Qed.

Lemma escape_count_with_fuel (fuel : nat) (maxiter : Z) (zc : complex * complex) :
  (Z.to_nat maxiter < fuel)%nat -> escape_count_with hyp fuel maxiter zc <> OutOfFuel.
Proof.
  unfold escape_count_with. intros Hf H.
  destruct (escape_loop_with hyp fuel maxiter zc.2 (zc.1, 0%Z)) eqn:Hl; simplify_eq/=.
  revert Hl. apply escape_loop_with_fuel. by rewrite Z.sub_0_r.
Qed.

(** The count of a point is unique. *)
Lemma is_escape_count_with_unique (maxiter : Z) (z c : complex) (n n' : Z) :
  is_escape_count_with hyp maxiter z c n -> is_escape_count_with hyp maxiter z c n' -> n = n'.
Proof.
  assert (forall n n', is_escape_count_with hyp maxiter z c n ->
            is_escape_count_with hyp maxiter z c n' -> (n < n')%Z -> False) as Hlt.
  { clear n n'. intros n n' (Hn & _ & a & Ha & Hstop) (_ & Hin & _) Hnn'.
    destruct (Hin (Z.to_nat n)) as [(a' & Ha' & Hlt) ?]; [lia|].
    rewrite Ha in Ha'. simplify_eq. destruct Hstop; [congruence|lia]. }
  intros H1 H2. destruct (Z.lt_trichotomy n n') as [?|[?|?]]; [|done|].
  - by destruct (Hlt n n').
  - by destruct (Hlt n' n).
Qed.

End libm_hypot.

(** With [hypot] for the library's function these are the kernel and its
    reference description above. *)
Lemma calculate_z_serial_purepython_with_hypot (fuel : nat) (maxiter : Z)
    (zs cs : list complex) :
  calculate_z_serial_purepython_with hypot fuel maxiter zs cs
  = calculate_z_serial_purepython fuel maxiter zs cs.
Proof. done. Qed.

Lemma is_escape_count_with_hypot (maxiter : Z) (z c : complex) (n : Z) :
  is_escape_count_with hypot maxiter z c n <-> is_escape_count maxiter z c n.
Proof. done. Qed.

(** The input on whose first test [abs(z)] raises. *)
Lemma overflow_point_raises_with (hyp : float -> float -> float) (fuel : nat) :
  hyp 1.5e308 1.5e308 = infinity ->
  calculate_z_serial_purepython_with hyp (S fuel) 1 [Complex 1.5e308 1.5e308]
    [Complex 0 0] = Raise OverflowError.
Proof.
  intros Hov. rewrite kernel_is_map_with by done.
  unfold kernel_map_with, escape_count_with, escape_loop_with. simpl.
  assert (c_abs_with hyp (Complex 1.5e308 1.5e308) = Raise OverflowError)
    as ->; [|done].
  unfold c_abs_with, modulus_with. simpl.
  change (is_finite 1.5e308) with true. simpl. by rewrite Hov.
Qed.

(** C2 (amended).  Whatever float the C library's [hypot] returns for
    the modulus of a point with finite parts ([hyp] is any function): for
    equal-length [zs] and [cs] and every [maxiter], the kernel runs its
    body once for each index [0, ..., len(zs) - 1], and a run of the body
    at index [i] writes slot [i] and no other.  The call then either
    returns one count per point, the count at index [i] being the number
    [n] reached from [z = zs[i]], [c = cs[i]], [n = 0] by repeating
    [z = z*z + c], [n = n + 1] while [abs(z) < 2] (strict) and
    [n < maxiter]; or it raises [OverflowError], which happens when the
    loop of some point reaches a value with finite parts for which [hypot]
    returns no finite number.  The loops always terminate. *)
Theorem kernel_counts (hyp : float -> float -> float) (fuel : nat)
    (maxiter : Z) (zs cs : list complex) :
  length zs = length cs -> (Z.to_nat maxiter < fuel)%nat ->
  calculate_z_serial_purepython_with hyp fuel maxiter zs cs
    = for_in (seq 0 (length zs)) (kernel_body_with hyp fuel maxiter zs cs)
        (replicate (length zs) 0%Z) /\
  NoDup (seq 0 (length zs)) /\
  (forall (i : nat) (output output' : list Z),
     kernel_body_with hyp fuel maxiter zs cs i output = Ok output' ->
     exists n, output' = <[i := n]> output) /\
  match calculate_z_serial_purepython_with hyp fuel maxiter zs cs with
  | Ok output =>
      length output = length zs /\
      forall (i : nat) (z c : complex),
        zs !! i = Some z -> cs !! i = Some c ->
        exists n, output !! i = Some n /\ is_escape_count_with hyp maxiter z c n
  | Raise e =>
      e = OverflowError /\
      exists (i : nat) (z c : complex),
        zs !! i = Some z /\ cs !! i = Some c /\
        modulus_overflows_with hyp maxiter z c
  | OutOfFuel => False
  end.
Proof.
  intros Hlen Hfuel. split_and!; [done|apply NoDup_seq| |].
  - intros i output output'. rewrite kernel_body_with_eq. intros H.
    apply bind_Ok in H as (z & _ & H). apply bind_Ok in H as (c & _ & H).
    apply bind_Ok in H as (n & _ & [= <-]). by exists n.
  - rewrite kernel_is_map_with by done. unfold kernel_map_with.
    destruct (mapM _ _) as [output|e|] eqn:Hmap.
    + apply mapM_Ok in Hmap. split.
      * apply Forall2_length in Hmap. rewrite length_zip_with in Hmap. lia.
      * intros i z c Hz Hc.
        destruct (Forall2_lookup_l _ _ _ i (z, c) Hmap) as (n & Hn & Hcount).
        { apply lookup_zip_with_Some. by exists z, c. }
        exists n. split; [done|]. by apply (escape_count_with_Ok hyp fuel).
    + apply mapM_not_Ok in Hmap as (i & [z c] & Hi & He); [|done].
      apply lookup_zip_with_Some in Hi as (z' & c' & [= <- <-] & Hz & Hc).
      apply escape_count_with_Raise in He as [-> Hov]. split; [done|].
      by exists i, z, c.
    + apply mapM_not_Ok in Hmap as (i & zc & _ & He); [|done].
      by apply escape_count_with_fuel in He.
Qed.


Lemma kernel_counts_witness :
  match calculate_z_serial_purepython_with hypot 10 5
          [Complex 0 0; Complex 1 1; Complex 3 0]
          [Complex 0 0; Complex 0 0; Complex 0 0] with
  | Ok output =>
      length output = 3%nat /\
      forall (i : nat) (z c : complex),
        [Complex 0 0; Complex 1 1; Complex 3 0] !! i = Some z ->
        [Complex 0 0; Complex 0 0; Complex 0 0] !! i = Some c ->
        exists n, output !! i = Some n /\ is_escape_count_with hypot 5 z c n
  | Raise e =>
      e = OverflowError /\
      exists (i : nat) (z c : complex),
        [Complex 0 0; Complex 1 1; Complex 3 0] !! i = Some z /\
        [Complex 0 0; Complex 0 0; Complex 0 0] !! i = Some c /\
        modulus_overflows_with hypot 5 z c
  | OutOfFuel => False
  end.
Proof.
  apply (kernel_counts hypot 10 5 [Complex 0 0; Complex 1 1; Complex 3 0]
           [Complex 0 0; Complex 0 0; Complex 0 0]); [reflexivity|].
  vm_compute. lia.
Defined.

(** C2, counterexample.  The point [1.5e308 + 1.5e308j] has finite parts
    and a modulus, about [2.1e308], beyond the float range, so that [hypot]
    returns [+inf] for it: [abs(z)] raises [OverflowError] on the
    first test, and the kernel returns no count for the point (the rule of
    the claim gives the count 0). *)
Lemma kernel_counts_overflow :
  length [Complex 1.5e308 1.5e308] = length [Complex 0 0] /\
  hypot 1.5e308 1.5e308 = infinity /\
  forall hyp : float -> float -> float,
    hyp 1.5e308 1.5e308 = infinity ->
    calculate_z_serial_purepython_with hyp 2 1 [Complex 1.5e308 1.5e308]
      [Complex 0 0] = Raise OverflowError /\
    ~ exists (fuel : nat) (output : list Z),
        calculate_z_serial_purepython_with hyp fuel 1 [Complex 1.5e308 1.5e308]
          [Complex 0 0] = Ok output.
Proof.
  split_and!; [done|by vm_compute|]. intros hyp Hov. split.
  - by apply overflow_point_raises_with.
  - intros (fuel & output & H).
    destruct fuel as [|fuel]; [by vm_compute in H|].
    by rewrite overflow_point_raises_with in H.
Qed.

(* ===================================================================== *)
(** * The batch strategy against the kernel *)
(* ===================================================================== *)

Lemma iter_fmap {A : Type} (f : A -> A) (k : nat) (l : list A) :
  Nat.iter k (fmap f) l = Nat.iter k f <$> l.
Proof.
  induction k as [|k IH]; simpl.
  - by rewrite list_fmap_id.
  - rewrite IH. by rewrite <- list_fmap_compose.
Qed.

Section libm_hypot_batch.
Variable hyp : float -> float -> float.

Lemma c_abs_with_Ok (z : complex) (a : float) :
  c_abs_with hyp z = Ok a -> a = modulus_with hyp z.
Proof. unfold c_abs_with. case_match; by intros [=]. Qed.

(** A point that is no longer active stays as it is. *)
Lemma batch_inactive_with (k : nat) (z c : complex) (n : Z) :
  Nat.iter k (batch_round_with hyp) (BatchPoint z c n false)
  = BatchPoint z c n false.
Proof. induction k as [|k IH]; simpl; [done|]. by rewrite IH. Qed.

(** A point that fails the test keeps its count through any number of
    rounds. *)
Lemma batch_escaped_with (k : nat) (z c : complex) (n : Z) :
  (modulus_with hyp z <? 2) = false ->
  b_n (Nat.iter k (batch_round_with hyp) (BatchPoint z c n true)) = n.
Proof.
  intros Hz. destruct k as [|k]; [done|]. rewrite Nat.iter_succ_r.
  unfold batch_round_with at 2. simpl. rewrite Hz. simpl.
  by rewrite batch_inactive_with.
Qed.

(** The rounds that the cap leaves to a point bring it to the count of
    the kernel's inner loop. *)
Lemma batch_point_run_with (maxiter : Z) (c : complex) (fuel : nat)
    (z z' : complex) (n n' : Z) :
  escape_loop_with hyp fuel maxiter c (z, n) = Ok (z', n') ->
  b_n (Nat.iter (Z.to_nat (maxiter - n)) (batch_round_with hyp)
         (BatchPoint z c n true)) = n'.
Proof.
  unfold escape_loop_with. revert z n.
  induction fuel as [|fuel IH]; intros z n; simpl; [done|].
  destruct (c_abs_with hyp z) as [a| |] eqn:Ha; simpl; [|done..].
  apply c_abs_with_Ok in Ha as ->.
  destruct (modulus_with hyp z <? 2) eqn:Hlt; simpl.
  - destruct (n <? maxiter)%Z eqn:Hn; simpl.
    + intros H. apply IH in H.
      replace (Z.to_nat (maxiter - n)) with (S (Z.to_nat (maxiter - (n + 1))))
        by lia.
      rewrite Nat.iter_succ_r. unfold batch_round_with at 2. simpl.
      by rewrite Hlt.
    + intros [= <- <-]. by replace (Z.to_nat (maxiter - n)) with 0%nat by lia.
  - intros [= <- <-]. by apply batch_escaped_with.
Qed.

Lemma batch_is_map_with (maxiter : Z) (zs cs : list complex) :
  batch_escape_iterate_with hyp maxiter zs cs =
  (fun zc : complex * complex =>
     b_n (Nat.iter (Z.to_nat maxiter) (batch_round_with hyp)
            (batch_init zc.1 zc.2)))
  <$> zip zs cs.
Proof.
  unfold batch_escape_iterate_with. rewrite iter_fmap, zip_with_zip.
  rewrite <- !list_fmap_compose. apply list_fmap_ext. by intros i [z c] _.
Qed.

End libm_hypot_batch.

(** C3 (amended).  The sources hold one fractal strategy, the scalar
    kernel [calculate_z_serial_purepython]; the batch strategy is the one
    the specification describes.  Whatever float the C library's [hypot]
    returns, the same for both strategies: on equal-length inputs on which
    the scalar kernel returns, the batch strategy produces the same
    counts, index for index. *)
Theorem batch_agrees_with_scalar (hyp : float -> float -> float)
    (fuel : nat) (maxiter : Z) (zs cs : list complex) (output : list Z) :
  length zs = length cs ->
  calculate_z_serial_purepython_with hyp fuel maxiter zs cs = Ok output ->
  batch_escape_iterate_with hyp maxiter zs cs = output.
Proof.
  intros Hlen. rewrite kernel_is_map_with by done. unfold kernel_map_with.
  rewrite batch_is_map_with. intros H. apply mapM_Ok in H.
  induction H as [|[z c] n l k Hzc _ IH]; simpl; [done|].
  f_equal; [|done]. unfold escape_count_with in Hzc. simpl in Hzc.
  apply fmap_Ok in Hzc as ([z' n'] & Hloop & ->). simpl.
  apply batch_point_run_with in Hloop. by rewrite Z.sub_0_r in Hloop.
Qed.

Lemma batch_agrees_with_scalar_witness :
  batch_escape_iterate_with hypot 5 [Complex 0 0; Complex 1 1; Complex 3 0]
    [Complex 0 0; Complex 0 0; Complex 0 0] = [5; 1; 0]%Z.
Proof.
  apply (batch_agrees_with_scalar hypot 10 5); [reflexivity|]. by vm_compute.
Defined.

(** C3, counterexample.  On the point [1.5e308 + 1.5e308j], whose modulus
    is beyond the float range, the scalar kernel raises [OverflowError]
    whatever the budget, and the batch strategy returns the count 0: the
    two do not produce identical counts. *)
Lemma batch_differs_on_overflow :
  length [Complex 1.5e308 1.5e308] = length [Complex 0 0] /\
  hypot 1.5e308 1.5e308 = infinity /\
  forall hyp : float -> float -> float,
    hyp 1.5e308 1.5e308 = infinity ->
    batch_escape_iterate_with hyp 1 [Complex 1.5e308 1.5e308] [Complex 0 0]
      = [0%Z] /\
    ~ exists (fuel : nat) (output : list Z),
        calculate_z_serial_purepython_with hyp fuel 1 [Complex 1.5e308 1.5e308]
          [Complex 0 0] = Ok output.
Proof.
  split_and!; [done|by vm_compute|]. intros hyp Hov. split.
  - unfold batch_escape_iterate_with. simpl.
    unfold batch_round_with, modulus_with. simpl.
    change (is_finite 1.5e308) with true. simpl.
    by rewrite Hov.
  - intros (fuel & output & H).
    destruct fuel as [|fuel]; [by vm_compute in H|].
    by rewrite overflow_point_raises_with in H.
Qed.

(* ===================================================================== *)
(** * The grid builder *)
(* ===================================================================== *)

Section grid.
Variable g : Globals.

Lemma grid_row (x : list float) (ycoord : float) (zs cs : list complex) :
  for_in x (fun xcoord '(zs, cs) =>
      mret (zs ++ [Complex xcoord ycoord],
            cs ++ [Complex (c_real g) (c_imag g)])) (zs, cs)
  = Ok (zs ++ ((fun xcoord => Complex xcoord ycoord) <$> x),
        cs ++ replicate (length x) (Complex (c_real g) (c_imag g))).
Proof.
  revert zs cs. induction x as [|xcoord x IH]; intros zs cs; simpl.
  - by rewrite !app_nil_r.
  - rewrite IH. by rewrite <- !(assoc_L (++)).
Qed.

Lemma grid_rows (x y : list float) (zs cs : list complex) :
  for_in y (fun ycoord =>
    for_in x (fun xcoord '(zs, cs) =>
      mret (zs ++ [Complex xcoord ycoord],
            cs ++ [Complex (c_real g) (c_imag g)]))) (zs, cs)
  = Ok (zs ++ grid_points x y, cs ++ grid_params g x y).
Proof.
  unfold grid_points, grid_params. revert zs cs.
  induction y as [|ycoord y IH]; intros zs cs; simpl.
  - by rewrite !app_nil_r.
  - rewrite grid_row. simpl. rewrite IH.
    by rewrite replicate_add, <- !(assoc_L (++)).
Qed.

(** The nested loops build the row-major enumeration. *)
Lemma grid_lists_eq (x y : list float) :
  grid_lists g x y = Ok (grid_points x y, grid_params g x y).
Proof. unfold grid_lists. by rewrite grid_rows. Qed.

Lemma length_grid_points (x y : list float) :
  length (grid_points x y) = (length y * length x)%nat.
Proof.
  unfold grid_points. induction y as [|ycoord y IH]; [done|].
  rewrite bind_cons, length_app, length_fmap, IH. simpl. lia.
Qed.

Lemma lookup_grid_points (x y : list float) (i j : nat) (xcoord ycoord : float) :
  y !! i = Some ycoord -> x !! j = Some xcoord ->
  grid_points x y !! (i * length x + j)%nat = Some (Complex xcoord ycoord).
Proof.
  unfold grid_points. revert i. induction y as [|y0 y IH]; intros i Hi Hj; [done|].
  rewrite bind_cons. destruct i as [|i]; simplify_eq/=.
  - rewrite lookup_app_l by (rewrite length_fmap; by eapply lookup_lt_Some).
    by rewrite list_lookup_fmap, Hj.
  - rewrite lookup_app_r by (rewrite length_fmap; lia).
    rewrite length_fmap.
    replace (length x + i * length x + j - length x)%nat
      with (i * length x + j)%nat by lia.
    by apply IH.
Qed.

End grid.

(** The coordinate loops: the state is the list built so far and the
    running coordinate; [below v] is the loop's test on the coordinate. *)
Section coordinate_loop.
Variables (below : float -> bool) (step : float).

Lemma running_S_l (n : nat) (start : float) :
  running step n (start + step) = running step (S n) start.
Proof. unfold running. by rewrite Nat.iter_succ_r. Qed.

Lemma coordinate_loop_Ok (fuel : nat) (l l' : list float) (cur cur' : float) :
  while fuel
    (fun '(l, cur) => mret (below cur))
    (fun '(l, cur) => mret (l ++ [cur], cur + step)) (l, cur) = Ok (l', cur') ->
  exists n : nat,
    l' = l ++ accumulate n cur step /\ cur' = running step n cur /\
    Forall (fun v => below v = true) (accumulate n cur step) /\
    below cur' = false.
Proof.
  revert l cur. induction fuel as [|fuel IH]; intros l cur; simpl; [done|].
  destruct (below cur) eqn:Hb.
  - intros H. apply IH in H as (n & -> & -> & Hall & Hstop).
    exists (S n). simpl. rewrite <- (assoc_L (++)). simpl.
    split_and!; [done|by rewrite running_S_l|by constructor|done].
  - intros [= <- <-]. exists 0%nat. simpl. by rewrite app_nil_r.
Qed.

(** A step that leaves the coordinate unchanged, below the bound, keeps
    the loop running for ever. *)
Lemma coordinate_loop_stuck (fuel : nat) (l : list float) (cur : float) :
  below cur = true -> cur + step = cur ->
  while fuel
    (fun '(l, cur) => mret (below cur))
    (fun '(l, cur) => mret (l ++ [cur], cur + step)) (l, cur) = OutOfFuel.
Proof.
  intros Hb Hfix. revert l. induction fuel as [|fuel IH]; intros l; simpl; [done|].
  rewrite Hb, Hfix. apply IH.
Qed.

Lemma length_accumulate (n : nat) (start : float) :
  length (accumulate n start step) = n.
Proof. revert start. induction n as [|n IH]; intros start; simpl; [done|]. by rewrite IH. Qed.

Lemma lookup_accumulate (n k : nat) (start : float) :
  (k < n)%nat -> accumulate n start step !! k = Some (running step k start).
Proof.
  revert k start. induction n as [|n IH]; intros k start Hk; [lia|].
  destruct k as [|k]; simpl; [done|].
  rewrite IH by lia. by rewrite running_S_l.
Qed.

End coordinate_loop.

Lemma x_list_Ok (fuel : nat) (g : Globals) (x_step : float) (x : list float) :
  x_list fuel g x_step = Ok x ->
  x = accumulate (length x) (x1 g) x_step /\
  Forall (fun v => (v <? x2 g) = true) x /\
  (running x_step (length x) (x1 g) <? x2 g) = false.
Proof.
  unfold x_list. intros H. apply fmap_Ok in H as ([l cur] & H & ->). simpl.
  apply (coordinate_loop_Ok (fun v => v <? x2 g)) in H
    as (n & -> & -> & Hall & Hstop).
  simpl. by rewrite length_accumulate.
Qed.

Lemma y_list_Ok (fuel : nat) (g : Globals) (y_step : float) (y : list float) :
  y_list fuel g y_step = Ok y ->
  y = accumulate (length y) (y2 g) y_step /\
  Forall (fun v => (y1 g <? v) = true) y /\
  (y1 g <? running y_step (length y) (y2 g)) = false.
Proof.
  unfold y_list. intros H. apply fmap_Ok in H as ([l cur] & H & ->). simpl.
  apply (coordinate_loop_Ok (fun v => y1 g <? v)) in H
    as (n & -> & -> & Hall & Hstop).
  simpl. by rewrite length_accumulate.
Qed.

Lemma build_grid_Ok (fuel : nat) (g : Globals) (desired_width : Z)
    (x y : list float) (zs cs : list complex) :
  build_grid fuel g desired_width = Ok (x, y, zs, cs) <->
  exists x_step y_step,
    coordinate_steps g desired_width = Ok (x_step, y_step) /\
    y_list fuel g y_step = Ok y /\ x_list fuel g x_step = Ok x /\
    zs = grid_points x y /\ cs = grid_params g x y.
Proof.
  unfold build_grid. split.
  - intros H. apply bind_Ok in H as ([x_step y_step] & Hs & H).
    apply bind_Ok in H as (y' & Hy & H). apply bind_Ok in H as (x' & Hx & H).
    rewrite grid_lists_eq in H. revert H. intros [= <- <- <- <-].
    by exists x_step, y_step.
  - intros (x_step & y_step & -> & Hy & Hx & -> & ->). simpl.
    rewrite Hy. simpl. rewrite Hx. simpl. by rewrite grid_lists_eq.
Qed.

(** For the module's bounds and [desired_width = 1000] the two sequences
    have 1000 elements each, which is the ceiling of the quotient, and are
    strictly monotone. *)
Lemma reference_coordinate_lists :
  ('(x_step, y_step) ← coordinate_steps module_globals 1000;
   y ← y_list 2000 module_globals y_step;
   x ← x_list 2000 module_globals x_step;
   n ← ceil ((x2 module_globals - x1 module_globals) / x_step);
   mret (length x, length y, n, strictly_ascending x, strictly_descending y))
  = Ok (1000%nat, 1000%nat, 1000%Z, true, true).
Proof. by vm_compute. Qed.

(* ===================================================================== *)
(** * The checksum *)
(* ===================================================================== *)

(** ** Two facts on binary64 numbers, from the specification of the
    primitive operations *)

Lemma SFcompare_refl (s : spec_float) :
  s <> S754_nan -> SFcompare s s = Some Eq.
Proof.
  destruct s as [s|s| |s m e]; simpl; intros H; try congruence.
  - by destruct s.
  - rewrite Z.compare_refl.
    assert (Pos.compare_cont Eq m m = Eq) as -> by apply Pos.compare_cont_refl.
    by destruct s.
Qed.

(** A float is finite exactly when its absolute value is below [+inf]. *)
Lemma is_finite_abs (v : float) : is_finite v = (abs v <? infinity).
Proof.
  unfold is_finite, is_nan, is_infinity.
  rewrite !FloatAxioms.eqb_spec, FloatAxioms.ltb_spec, FloatAxioms.abs_spec.
  change (Prim2SF infinity) with (S754_infinity false).
  unfold SFeqb, SFltb.
  destruct (Prim2SF v) as [s|s| |s m e] eqn:E; [done|by destruct s|done|].
  by rewrite (SFcompare_refl (S754_finite s m e)).
Qed.

(** ** The inner loop on components *)

Lemma c_abs_cases (z : complex) :
  c_abs z =
  if is_finite (real z) && is_finite (imag z) then
    if is_finite (hypot (real z) (imag z)) then Ok (hypot (real z) (imag z))
    else Raise OverflowError
  else Ok (if is_infinity (real z) || is_infinity (imag z) then infinity
           else nan).
Proof.
  unfold c_abs, modulus.
  destruct (is_finite (real z) && is_finite (imag z)); simpl; [|done].
  by destruct (is_finite (hypot (real z) (imag z))).
Qed.

Lemma run_point_unfold (counts : list Z) (n : Z) (re im cre cim : float) :
  run_point counts n re im cre cim =
  if is_finite re && is_finite im then
    if is_finite (hypot re im) then
      if hypot re im <? 2 then
        match counts with
        | [] => Ok n
        | n' :: counts' =>
            let z' := julia_step (Complex cre cim) (Complex re im) in
            run_point counts' n' (real z') (imag z') cre cim
        end
      else Ok n
    else Raise OverflowError
  else Ok n.
Proof.
  rewrite !is_finite_abs. unfold hypot.
  destruct counts; simpl;
    destruct (abs re <? infinity), (abs im <? infinity); reflexivity.
Qed.

Lemma run_point_eq (maxiter : Z) (cre cim : float) (fuel : nat)
    (counts : list Z) (n : Z) (re im : float) :
  counts = (fun k : nat => (n + Z.of_nat k)%Z) <$> seq 1 (Z.to_nat (maxiter - n)) ->
  (Z.to_nat (maxiter - n) < fuel)%nat ->
  snd <$> escape_loop fuel maxiter (Complex cre cim) (Complex re im, n)
  = run_point counts n re im cre cim.
Proof.
  unfold escape_loop. revert counts n re im.
  induction fuel as [|fuel IH]; intros counts n re im Hcounts Hfuel; [lia|].
  rewrite run_point_unfold. simpl. rewrite c_abs_cases. simpl.
  destruct (is_finite re && is_finite im); simpl.
  - destruct (is_finite (hypot re im)); simpl; [|done].
    destruct (hypot re im <? 2); simpl; [|done].
    destruct (n <? maxiter)%Z eqn:Hn; simpl.
    + replace (Z.to_nat (maxiter - n)) with (S (Z.to_nat (maxiter - (n + 1))))
        in Hcounts, Hfuel by lia.
      rewrite <- cons_seq, fmap_cons in Hcounts. subst counts.
      apply IH; [|lia].
      rewrite <- fmap_S_seq, <- list_fmap_compose.
      apply list_fmap_ext. intros _ k _. simpl. lia.
    + replace (Z.to_nat (maxiter - n)) with 0%nat in Hcounts by lia.
      by subst counts.
  - by destruct (is_infinity re || is_infinity im).
Qed.

Lemma escape_count_run_point (fuel : nat) (maxiter : Z) (re im cre cim : float) :
  (Z.to_nat maxiter < fuel)%nat ->
  escape_count fuel maxiter (Complex re im, Complex cre cim)
  = run_point (count_list maxiter) 0 re im cre cim.
Proof.
  intros Hfuel. unfold escape_count, count_list. simpl.
  apply run_point_eq; rewrite Z.sub_0_r; [|done].
  apply list_fmap_ext. intros _ k _. lia.
Qed.

(** ** Adding up along the grid *)

Section mapM_sums.
Context {A : Type} (f : A -> res Z).

Lemma mapM_cons (a : A) (l : list A) :
  mapM f (a :: l) = (b ← f a; k ← mapM f l; mret (b :: k)).
Proof. done. Qed.

Lemma mapM_app (l1 l2 : list A) :
  mapM f (l1 ++ l2) = (o1 ← mapM f l1; o2 ← mapM f l2; mret (o1 ++ o2)).
Proof.
  induction l1 as [|a l1 IH].
  - simpl. by destruct (mapM f l2).
  - rewrite <- app_comm_cons, !mapM_cons, IH.
    destruct (f a); simpl; [|done..].
    destruct (mapM f l1); simpl; [|done..]. by destruct (mapM f l2).
Qed.

Lemma mapM_fmap {C : Type} (h : C -> A) (l : list C) :
  mapM f (h <$> l) = mapM (f ∘ h) l.
Proof.
  induction l as [|c l IH]; [done|].
  rewrite fmap_cons, !mapM_cons, IH. done.
Qed.

Lemma mapM_ext_res (f' : A -> res Z) (l : list A) :
  (forall a, f a = f' a) -> mapM f l = mapM f' l.
Proof.
  intros Hf. induction l as [|a l IH]; [done|].
  by rewrite mapM_cons, Hf, IH.
Qed.

End mapM_sums.

Section run_grid.
Variables (counts : list Z) (cre cim : float).

Lemma run_row_eq (x : list float) (ycoord : float) (acc : Z) :
  run_row counts x ycoord cre cim acc =
  foldl Z.add acc <$>
    mapM (fun xcoord => run_point counts 0 xcoord ycoord cre cim) x.
Proof.
  revert acc. induction x as [|xcoord x IH]; intros acc; [done|].
  rewrite mapM_cons. simpl run_row.
  destruct (run_point counts 0 xcoord ycoord cre cim); simpl; [|done..].
  rewrite IH. by destruct (mapM _ x).
Qed.

Lemma run_grid_eq (x y : list float) (acc : Z) :
  run_grid counts x y cre cim acc =
  foldl Z.add acc <$>
    mapM (fun z => run_point counts 0 (real z) (imag z) cre cim)
      (grid_points x y).
Proof.
  unfold grid_points. revert acc.
  induction y as [|ycoord y IH]; intros acc; [done|].
  rewrite bind_cons, mapM_app, mapM_fmap. simpl run_grid.
  rewrite run_row_eq. unfold compose. simpl.
  destruct (mapM _ x) as [o1| |]; simpl; [|done..].
  rewrite IH. destruct (mapM _ (y ≫= _)) as [o2| |]; simpl; [|done..].
  by rewrite foldl_app.
Qed.

End run_grid.

(** The sum of the counts of the program is the closed form. *)
Lemma program_checksum_eq (fuel : nat) (g : Globals) (desired_width maxiter : Z) :
  (Z.to_nat maxiter < fuel)%nat ->
  program_checksum fuel g desired_width maxiter
  = checksum fuel g desired_width maxiter.
Proof.
  intros Hfuel. unfold program_checksum, checksum, build_grid.
  destruct (coordinate_steps g desired_width) as [[x_step y_step]| |];
    simpl; [|done..].
  destruct (y_list fuel g y_step) as [y| |]; simpl; [|done..].
  destruct (x_list fuel g x_step) as [x| |]; simpl; [|done..].
  rewrite grid_lists_eq. simpl.
  rewrite kernel_is_map
    by (unfold grid_params; by rewrite length_grid_points, length_replicate).
  unfold kernel_map, grid_params.
  rewrite zip_with_replicate_r_eq by apply length_grid_points.
  rewrite mapM_fmap, run_grid_eq.
  rewrite (mapM_ext_res _
    (fun z => run_point (count_list maxiter) 0 (real z) (imag z)
                (c_real g) (c_imag g))).
  - by destruct (mapM _ _).
  - intros [re im]. unfold compose, flip. simpl.
    by apply escape_count_run_point.
Qed.

(** The checksum of the reference run, by evaluation of the closed form. *)
Lemma reference_checksum_value :
  checksum 2000 module_globals 1000 300 = Ok 33219980%Z.
Proof. vm_cast_no_check (@eq_refl (res Z) (Ok 33219980%Z)). Qed.

Lemma program_checksum_Ok (fuel : nat) (g : Globals) (desired_width maxiter s : Z) :
  program_checksum fuel g desired_width maxiter = Ok s ->
  exists (x y : list float) (zs cs : list complex) (output : list Z),
    build_grid fuel g desired_width = Ok (x, y, zs, cs) /\
    calculate_z_serial_purepython fuel maxiter zs cs = Ok output /\
    sum output = s.
Proof.
  unfold program_checksum. intros H.
  apply bind_Ok in H as ([[[x y] zs] cs] & Hg & H).
  apply bind_Ok in H as (output & Hk & [= <-]).
  by exists x, y, zs, cs, output.
Qed.

Lemma calc_pure_python_eq (fuel : nat) (g : Globals)
    (desired_width max_iterations : Z) (return_output : bool)
    (x y : list float) (zs cs : list complex) (output : list Z) :
  build_grid fuel g desired_width = Ok (x, y, zs, cs) ->
  calculate_z_serial_purepython fuel max_iterations zs cs = Ok output ->
  calc_pure_python fuel g desired_width max_iterations return_output =
  if (sum output =? 33219980)%Z
  then Ok (if return_output then Some output else None)
  else Raise AssertionError.
Proof.
  unfold calc_pure_python. intros Hg Hk. rewrite Hg. simpl. by rewrite Hk.
Qed.

(** ** The budget is immaterial

    A call that has returned or raised within a budget does the same
    within any larger one. *)

Lemma for_in_budget {A S : Type} (l : list A) (body body' : A -> S -> res S)
    (s : S) :
  (forall a s, body a s <> OutOfFuel -> body' a s = body a s) ->
  for_in l body s <> OutOfFuel -> for_in l body' s = for_in l body s.
Proof.
  intros Hbody. revert s. induction l as [|a l IH]; intros s; simpl; [done|].
  intros H. rewrite Hbody by (by destruct (body a s)).
  destruct (body a s) as [s'| |]; simpl in *; [by apply IH|done..].
Qed.

Lemma kernel_budget (fuel fuel' : nat) (maxiter : Z) (zs cs : list complex) :
  (fuel <= fuel')%nat ->
  calculate_z_serial_purepython fuel maxiter zs cs <> OutOfFuel ->
  calculate_z_serial_purepython fuel' maxiter zs cs
  = calculate_z_serial_purepython fuel maxiter zs cs.
Proof.
  intros Hle. unfold calculate_z_serial_purepython. apply for_in_budget.
  intros i output. unfold kernel_body.
  destruct (getitem zs i) as [z| |]; simpl; [|done..].
  destruct (getitem cs i) as [c| |]; simpl; [|done..].
  intros H. unfold escape_loop in *. rewrite (while_mono _ _ fuel fuel'); try done.
  by destruct (while fuel _ _ _).
Qed.

Lemma build_grid_budget (fuel fuel' : nat) (g : Globals) (desired_width : Z) :
  (fuel <= fuel')%nat ->
  build_grid fuel g desired_width <> OutOfFuel ->
  build_grid fuel' g desired_width = build_grid fuel g desired_width.
Proof.
  intros Hle. unfold build_grid, y_list, x_list.
  destruct (coordinate_steps g desired_width) as [[x_step y_step]| |];
    simpl; [|done..].
  intros H.
  rewrite (while_mono _ _ fuel fuel' ([], y2 g)); try done;
    [|by destruct (while fuel _ _ ([], y2 g))].
  destruct (while fuel _ _ ([], y2 g)) as [[y ycoord]| |]; simpl in *; [|done..].
  rewrite (while_mono _ _ fuel fuel' ([], x1 g)); try done.
  by destruct (while fuel _ _ ([], x1 g)).
Qed.

Lemma calc_pure_python_budget (fuel fuel' : nat) (g : Globals)
    (desired_width max_iterations : Z) (return_output : bool) :
  (fuel <= fuel')%nat ->
  calc_pure_python fuel g desired_width max_iterations return_output
    <> OutOfFuel ->
  calc_pure_python fuel' g desired_width max_iterations return_output
  = calc_pure_python fuel g desired_width max_iterations return_output.
Proof.
  intros Hle. unfold calc_pure_python. intros H.
  rewrite (build_grid_budget fuel fuel') by (by destruct (build_grid fuel _ _)).
  destruct (build_grid fuel g desired_width) as [[[[x y] zs] cs]| |];
    simpl in *; [|done..].
  rewrite (kernel_budget fuel fuel')
    by (by destruct (calculate_z_serial_purepython fuel _ _ _)).
  done.
Qed.

(** C10.  Once the grid is built and the kernel has returned
    [output], a call of [calc_pure_python], whatever [desired_width] and
    [max_iterations] are, compares [sum(output)] with 33219980: it raises
    [AssertionError] when the sum differs, and otherwise returns [output]
    when [return_output] is true and [None] when it is not. *)
Theorem calc_pure_python_asserts_sum (fuel : nat) (g : Globals)
    (desired_width max_iterations : Z) (return_output : bool)
    (x y : list float) (zs cs : list complex) (output : list Z) :
  build_grid fuel g desired_width = Ok (x, y, zs, cs) ->
  calculate_z_serial_purepython fuel max_iterations zs cs = Ok output ->
  calc_pure_python fuel g desired_width max_iterations return_output =
  if (sum output =? 33219980)%Z
  then Ok (if return_output then Some output else None)
  else Raise AssertionError.
Proof.
  intros Hgrid Hkernel. unfold calc_pure_python.
  rewrite Hgrid. simpl. rewrite Hkernel. simpl.
  by destruct (sum output =? 33219980)%Z, return_output.
Qed.

Lemma calc_pure_python_asserts_sum_witness :
  calc_pure_python 5 module_globals 1 3 true = Raise AssertionError.
Proof.
  apply (calc_pure_python_asserts_sum 5 module_globals 1 3 true [-1.8] [1.8]
           [Complex (-1.8) 1.8]
           [Complex (c_real module_globals) (c_imag module_globals)] [0%Z]);
    by vm_compute.
Defined.

(** C1.  For the reference configuration (the module's bounds -1.8 and
    1.8 on both axes and its parameter (-0.62772, -0.42193),
    [desired_width = 1000], [max_iterations = 300]) the grid builder
    returns 1000 x values and 1000 y values, the kernel returns, and the
    sum of its counts is exactly 33219980; the call
    [calc_pure_python(desired_width=1000, max_iterations=300)] of the
    module's main block passes its assertion and returns [None]. *)
Theorem reference_checksum :
  (exists (x y : list float) (zs cs : list complex) (output : list Z),
     build_grid 2000 module_globals 1000 = Ok (x, y, zs, cs) /\
     length x = 1000%nat /\ length y = 1000%nat /\
     calculate_z_serial_purepython 2000 300 zs cs = Ok output /\
     sum output = 33219980%Z) /\
  calc_pure_python 2000 module_globals 1000 300 false = Ok None.
Proof.
  pose proof reference_checksum_value as H.
  rewrite <- program_checksum_eq in H by (vm_compute; lia).
  apply program_checksum_Ok in H as (x & y & zs & cs & output & Hg & Hk & Hs).
  split.
  - exists x, y, zs, cs, output. split_and!; [done| | |done..].
    + apply build_grid_Ok in Hg as (x_step & y_step & Hst & _ & Hx & _).
      vm_compute in Hst. injection Hst as <- <-.
      apply (f_equal (fmap length)) in Hx. vm_compute in Hx. by injection Hx.
    + apply build_grid_Ok in Hg as (x_step & y_step & Hst & Hy & _).
      vm_compute in Hst. injection Hst as <- <-.
      apply (f_equal (fmap length)) in Hy. vm_compute in Hy. by injection Hy.
  - rewrite (calc_pure_python_eq _ _ _ _ _ _ _ _ _ _ Hg Hk).
    by rewrite Hs.
Qed.

(* ===================================================================== *)
(** * The particle integrators *)
(* ===================================================================== *)

(** ** Facts on binary64 numbers used below *)

Lemma digits2_pos_shift52 (m : positive) :
  Z.pos (digits2_pos (4503599627370496 * m)) = (Z.pos (digits2_pos m) + 52)%Z.
Proof. cbv [Pos.mul digits2_pos]. rewrite !Pos2Z.inj_succ. lia. Qed.

Lemma shr_shift52 (m : positive) :
  SpecFloat.iter_pos shr_1 52
    (shr_record_of_loc (Z.pos (4503599627370496 * m)) loc_Exact)
  = {| shr_m := Z.pos m; shr_r := false; shr_s := false |}.
Proof. reflexivity. Qed.

Lemma shr_fexp_shift52 (m : positive) (e : Z) :
  fexp prec emax (Z.pos (digits2_pos m) + e) = e ->
  shr_fexp prec emax (Z.pos (4503599627370496 * m)) (e + -52) loc_Exact
  = ({| shr_m := Z.pos m; shr_r := false; shr_s := false |}, e).
Proof.
  intros Hc. unfold shr_fexp, Zdigits2. rewrite digits2_pos_shift52.
  replace (Z.pos (digits2_pos m) + 52 + (e + -52))%Z
    with (Z.pos (digits2_pos m) + e)%Z by lia.
  rewrite Hc. replace (e - (e + -52))%Z with 52%Z by lia.
  unfold shr. rewrite shr_shift52. f_equal. lia.
Qed.

Lemma shr_fexp_canonical (m : positive) (e : Z) :
  fexp prec emax (Z.pos (digits2_pos m) + e) = e ->
  shr_fexp prec emax (Z.pos m) e loc_Exact
  = ({| shr_m := Z.pos m; shr_r := false; shr_s := false |}, e).
Proof.
  intros Hc. unfold shr_fexp, Zdigits2. by rewrite Hc, Z.sub_diag.
Qed.

(** Rounding the product of a float's mantissa by [2^52], at an exponent
    52 below the float's, gives the float back. *)
Lemma binary_round_aux_shift52 (s : bool) (m : positive) (e : Z) :
  bounded prec emax m e = true ->
  binary_round_aux prec emax s (Z.pos (m * 4503599627370496)) (e + -52)
    loc_Exact
  = S754_finite s m e.
Proof.
  unfold bounded, canonical_mantissa. intros H.
  apply andb_prop in H as [Hc He]. apply Z.eqb_eq in Hc.
  rewrite Pos.mul_comm. unfold binary_round_aux.
  rewrite shr_fexp_shift52 by exact Hc.
  cbn [shr_m loc_of_shr_record round_nearest_even].
  rewrite shr_fexp_canonical by exact Hc.
  cbn [shr_m]. by rewrite He.
Qed.

(** Multiplying by [-1] is negating. *)
Lemma mul_m1 (v : float) : v * -1 = - v.
Proof.
  apply Prim2SF_inj. rewrite mul_spec, opp_spec.
  change (Prim2SF (-1)) with (S754_finite true 4503599627370496 (-52)).
  pose proof (Prim2SF_valid v) as Hv.
  destruct (Prim2SF v) as [s|s| |s m e]; simpl.
  - by destruct s.
  - by destruct s.
  - done.
  - unfold SF64mul, SFmul.
    rewrite binary_round_aux_shift52 by exact Hv. by destruct s.
Qed.

(** The square of the absolute value is the square. *)
Lemma abs_mul_abs (v : float) : abs v * abs v = v * v.
Proof.
  apply Prim2SF_inj. rewrite !mul_spec, abs_spec.
  destruct (Prim2SF v) as [s|s| |s m e]; simpl; try done; by destruct s.
Qed.



(** Whatever is rounded, the result is a NaN or has the sign given to
    the rounding. *)
Lemma binary_round_aux_cases (sx : bool) (mx ex : Z) (lx : location) :
  match binary_round_aux prec emax sx mx ex lx with
  | S754_nan => True
  | S754_zero s | S754_infinity s | S754_finite s _ _ => s = sx
  end.
Proof.
  unfold binary_round_aux.
  destruct (shr_fexp prec emax mx ex lx) as [mrs' e'].
  destruct (shr_fexp prec emax _ e' loc_Exact) as [mrs'' e''].
  destruct (shr_m mrs''); [done| |done].
  by destruct (e'' <=? emax - prec)%Z.
Qed.

(** A square has its sign bit clear. *)
Lemma square_nonneg (v : float) : sf_nonneg (Prim2SF (v * v)).
Proof.
  rewrite mul_spec. destruct (Prim2SF v) as [s|s| |s m e]; simpl;
    [by destruct s|by destruct s|done|].
  unfold SF64mul, SFmul, sf_nonneg.
  pose proof (binary_round_aux_cases (xorb s s) (Z.pos (m * m)) (e + e)
                loc_Exact) as H.
  destruct (binary_round_aux _ _ _ _ _ _); [..|done|]; rewrite H; by destruct s.
Qed.

(** So has the sum of two numbers that have. *)
Lemma add_nonneg (a b : spec_float) :
  sf_nonneg a -> sf_nonneg b -> sf_nonneg (SF64add a b).
Proof.
  destruct a as [sa|sa| |sa ma ea], b as [sb|sb| |sb mb eb]; simpl;
    intros Ha Hb; subst; try done.
  unfold SF64add, SFadd. simpl.
  pose proof (binary_round_aux_cases false) as H. unfold binary_round.
  destruct (shl_align _ _ _) as [mz ez]. apply H.
Qed.

(** A sum of two squares is not [-inf]. *)
Lemma sum_of_squares_not_neg_infinity (a b : float) :
  (a * a + b * b =? neg_infinity) = false.
Proof.
  rewrite FloatAxioms.eqb_spec, add_spec.
  change (Prim2SF neg_infinity) with (S754_infinity true).
  pose proof (add_nonneg _ _ (square_nonneg a) (square_nonneg b)) as H.
  destruct (SF64add _ _) as [s|s| |s m e]; simpl in *; subst; done.
Qed.

(** ** The number of steps *)

Lemma nsteps_of_eq (dt : float) : nsteps_of dt = int_of_float (dt / timestep).
Proof. done. Qed.


(** ** Copying the array back *)

Lemma copy_back_drop (ps : list Particle) (i : nat) (r : list (float * float)) :
  (i + length ps <= length r)%nat ->
  copy_back i r ps = Ok (zip_with moved (drop i r) ps).
Proof.
  revert i. induction ps as [|p ps IH]; intros i Hlen; simpl in *.
  - by destruct (drop i r).
  - destruct (lookup_lt_is_Some_2 r i) as [row Hrow]; [lia|].
    unfold getitem. rewrite Hrow. simpl.
    rewrite IH by lia. simpl. by rewrite (drop_S _ _ _ Hrow).
Qed.

(** The positions that the copy leaves depend on the array and on the
    number of particles only. *)
Lemma copy_back_positions (ps ps' : list Particle) (i : nat)
    (r : list (float * float)) :
  length ps = length ps' ->
  positions <$> copy_back i r ps = positions <$> copy_back i r ps'.
Proof.
  revert ps' i. induction ps as [|p ps IH]; intros [|p' ps'] i Hlen;
    simplify_eq/=; [done|].
  destruct (getitem r i) as [row| |]; simpl; [|done..].
  specialize (IH ps' (S i) Hlen).
  destruct (copy_back (S i) r ps), (copy_back (S i) r ps');
    simplify_eq/=; rewrite ?IH; done.
Qed.

Lemma length_copy_back (ps ps' : list Particle) (i : nat)
    (r : list (float * float)) :
  copy_back i r ps = Ok ps' -> length ps' = length ps.
Proof.
  revert ps' i. induction ps as [|p ps IH]; intros ps' i; simpl.
  - by intros [= <-].
  - intros H. apply bind_Ok in H as (row & _ & H).
    apply bind_Ok in H as (ps'' & Hps'' & [= <-]). simpl.
    by rewrite (IH _ _ Hps'').
Qed.

(** Writing to every particle the position of a particle of [qs] with
    the same angular velocity gives [qs]. *)
Lemma moved_positions (qs ps : list Particle) :
  ang_vel <$> qs = ang_vel <$> ps ->
  zip_with moved (positions qs) ps = qs.
Proof.
  revert ps. induction qs as [|q qs IH]; intros [|p ps] H; simplify_eq/=; [done|].
  f_equal; [|by apply IH]. unfold moved. simpl. destruct q. simpl in *. by subst.
Qed.

(** ** The methods on a simulator *)

(** [evolve_numpy] on a simulator that has the arrays. *)
Lemma evolve_numpy_cached (self : ParticleSimulator) (dt : float)
    (r : list (float * float)) :
  r_i self = Some r ->
  evolve_numpy self dt =
  (nsteps ← nsteps_of dt;
   r' ← for_in (range nsteps) (fun _ r =>
          w ← from_option Ok (Raise AttributeError) (ang_vel_i self);
          numpy_step w r) r;
   ps ← copy_back 0 r' (particles self);
   mret (mkSimulator ps (Some r') (ang_vel_i self))).
Proof.
  intros Hr. unfold evolve_numpy. rewrite Hr. cbn beta iota. by rewrite Hr.
Qed.

(** [evolve_numpy] on a simulator that does not have them yet. *)
Lemma evolve_numpy_fresh (self : ParticleSimulator) (dt : float) :
  r_i self = None ->
  evolve_numpy self dt =
  (nsteps ← nsteps_of dt;
   r' ← for_in (range nsteps) (fun _ r =>
          numpy_step (ang_vel <$> particles self) r)
         (positions (particles self));
   ps ← copy_back 0 r' (particles self);
   mret (mkSimulator ps (Some r') (Some (ang_vel <$> particles self)))).
Proof. intros Hr. unfold evolve_numpy. by rewrite Hr. Qed.

(** The steps of the array loop keep the number of rows. *)
Lemma length_numpy_steps (w : list float) (l : list nat)
    (r r' : list (float * float)) :
  for_in l (fun _ r => numpy_step w r) r = Ok r' -> length r' = length r.
Proof.
  revert r. induction l as [|i l IH]; intros r; simpl.
  - by intros [= <-].
  - intros H. apply bind_Ok in H as (r1 & H1 & H).
    rewrite (IH _ H). unfold numpy_step in H1.
    repeat case_decide; simplify_eq/=. injection H1 as <-.
    rewrite length_zip_with. lia.
Qed.




(** C9.  The first call of [evolve_numpy] on a simulator creates the
    arrays [r_i] and [ang_vel_i] from the particles, and a later call reads
    the arrays only: whatever values the fields [x], [y] and [ang_vel] of
    the particles were given between the two calls, the second call
    raises or returns alike, and leaves the same positions and the same
    arrays as it does without the mutation. *)
Theorem evolve_numpy_ignores_mutation (ps ps' : list Particle)
    (dt1 dt2 : float) (s1 : ParticleSimulator) :
  evolve_numpy (init ps) dt1 = Ok s1 ->
  length ps' = length ps ->
  (exists r, r_i s1 = Some r /\ ang_vel_i s1 = Some (ang_vel <$> ps)) /\
  observed <$> evolve_numpy (mkSimulator ps' (r_i s1) (ang_vel_i s1)) dt2
  = observed <$> evolve_numpy s1 dt2.
Proof.
  intros H1 Hlen. rewrite evolve_numpy_fresh in H1 by done. simpl in H1.
  apply bind_Ok in H1 as (n1 & _ & H1). apply bind_Ok in H1 as (r & _ & H1).
  apply bind_Ok in H1 as (ps1 & Hps1 & [= <-]). simpl.
  split; [by exists r|].
  rewrite !(evolve_numpy_cached _ _ r) by done. simpl.
  destruct (nsteps_of dt2) as [n2| |]; simpl; [|done..].
  destruct (for_in (range n2) _ r) as [r'| |]; simpl; [|done..].
  pose proof (copy_back_positions ps' ps1 0 r') as Hpos.
  rewrite (length_copy_back _ _ _ _ Hps1) in Hpos. specialize (Hpos Hlen).
  destruct (copy_back 0 r' ps'), (copy_back 0 r' ps1); simplify_eq/=; try done.
  unfold observed. simpl. by rewrite Hpos.
Qed.

Lemma evolve_numpy_ignores_mutation_witness :
  exists s1 : ParticleSimulator,
    evolve_numpy (init test_particles) 0.01 = Ok s1 /\
    observed <$> evolve_numpy
      (mkSimulator [mkParticle 9 9 9; mkParticle 8 8 8; mkParticle 7 7 7]
         (r_i s1) (ang_vel_i s1)) 0.01
    = observed <$> evolve_numpy s1 0.01.
Proof.
  destruct (evolve_numpy (init test_particles) 0.01) as [s1| |] eqn:H1;
    [|by vm_compute in H1..].
  exists s1. split; [done|].
  by apply (evolve_numpy_ignores_mutation test_particles
              [mkParticle 9 9 9; mkParticle 8 8 8; mkParticle 7 7 7]
              0.01 0.01 s1 H1).
Defined.

(** ** The two integrators *)

Lemma float_pow_2_Ok (v r : float) : float_pow_2 v = Ok r -> r = v * v.
Proof.
  unfold float_pow_2. rewrite abs_mul_abs. case_match; by intros [=].
Qed.

Lemma float_pow_half_Ok (v r : float) :
  float_pow_half v = Ok r ->
  r = sqrt v \/ (r =? 0) = true \/ (v =? neg_infinity) = true.
Proof.
  unfold float_pow_half. repeat case_match; intros [= <-]; auto.
Qed.

Lemma truediv_Ok (a b q : float) :
  truediv a b = Ok q -> (b =? 0) = false /\ q = a / b.
Proof. unfold truediv. case_match; by intros [=]. Qed.

(** One particle: the scalar update, when it raises nothing, is the row
    computation of the array loop. *)
Lemma step_particle_numpy (p p' : Particle) :
  step_particle p = Ok p' ->
  numpy_row (x p, y p) (ang_vel p) = (x p', y p') /\ ang_vel p' = ang_vel p.
Proof.
  unfold step_particle. intros H.
  apply bind_Ok in H as (xx & Hxx & H). apply bind_Ok in H as (yy & Hyy & H).
  apply bind_Ok in H as (norm & Hnorm & H).
  apply bind_Ok in H as (v_x & Hvx & H). apply bind_Ok in H as (v_y & Hvy & H).
  injection H as <-. simpl.
  apply float_pow_2_Ok in Hxx as ->. apply float_pow_2_Ok in Hyy as ->.
  apply truediv_Ok in Hvx as [Hnz ->]. apply truediv_Ok in Hvy as [_ ->].
  apply float_pow_half_Ok in Hnorm as [->|[Hz|Hinf]]; [|congruence|].
  - unfold numpy_row. simpl. by rewrite mul_m1.
  - by rewrite sum_of_squares_not_neg_infinity in Hinf.
Qed.

Lemma step_all_numpy (ps ps' : list Particle) :
  step_all ps = Ok ps' ->
  zip_with numpy_row (positions ps) (ang_vel <$> ps) = positions ps' /\
  ang_vel <$> ps' = ang_vel <$> ps.
Proof.
  revert ps'. induction ps as [|p ps IH]; intros ps'; simpl.
  - by intros [= <-].
  - intros H. apply bind_Ok in H as (p' & Hp & H).
    apply bind_Ok in H as (ps'' & Hps & [= <-]).
    apply step_particle_numpy in Hp as [Hrow Hw].
    apply IH in Hps as [Hrows Hws]. simpl. split; by f_equal.
Qed.


Lemma same_float_eq (a b : float) : same_float a b = true -> a = b.
Proof.
  unfold same_float. intros H. apply Prim2SF_inj.
  destruct (Prim2SF a) as [s|s| |s m e], (Prim2SF b) as [s'|s'| |s' m' e'];
    try done.
  - by apply eqb_prop in H as ->.
  - by apply eqb_prop in H as ->.
  - apply andb_prop in H as [[Hs Hm]%andb_prop He].
    apply eqb_prop in Hs as ->. apply Pos.eqb_eq in Hm as ->.
    by apply Z.eqb_eq in He as ->.
Qed.

Section libm_pow.
Variable pw : libm_pow.

(** One particle: where the two norms agree, the scalar update computes
    the row of the array loop. *)
Lemma step_particle_with_numpy (p : Particle) :
  norms_agree pw (x p, y p) = true ->
  step_particle_with pw p = Ok (moved (numpy_row (x p, y p) (ang_vel p)) p).
Proof.
  unfold norms_agree, python_norm, step_particle_with. simpl.
  destruct (float_pow_2_with pw (x p)) as [xx| |]; simpl; [|done..].
  destruct (float_pow_2_with pw (y p)) as [yy| |]; simpl; [|done..].
  destruct (float_pow_half_with pw (xx + yy)) as [norm| |]; simpl; [|done..].
  intros [Hn Hz]%andb_prop. apply same_float_eq in Hn as ->.
  apply negb_true_iff in Hz. unfold truediv. rewrite Hz. simpl.
  unfold moved, numpy_row, numpy_norm. simpl. by rewrite mul_m1.
Qed.

Lemma step_all_with_numpy (ps : list Particle) :
  forallb (norms_agree pw) (positions ps) = true ->
  exists ps',
    step_all_with pw ps = Ok ps' /\
    positions ps' = zip_with numpy_row (positions ps) (ang_vel <$> ps) /\
    ang_vel <$> ps' = ang_vel <$> ps.
Proof.
  induction ps as [|p ps IH]; simpl; [by exists []|].
  intros [Hp Hps]%andb_prop. destruct (IH Hps) as (ps' & -> & Hrows & Hws).
  rewrite (step_particle_with_numpy p Hp). simpl. eexists. split; [done|].
  simpl. split; by f_equal.
Qed.

Lemma rows_after_S_l (w : list float) (n : nat) (r : list (float * float)) :
  rows_after w n (zip_with numpy_row r w) = rows_after w (S n) r.
Proof. unfold rows_after. by rewrite Nat.iter_succ_r. Qed.

(** Any number of steps of the scalar loop. *)
Lemma steps_with_numpy (l : list nat) (ps : list Particle) :
  norms_agree_for pw (ang_vel <$> ps) (length l) (positions ps) = true ->
  exists ps',
    for_in l (fun _ ps => step_all_with pw ps) ps = Ok ps' /\
    positions ps' = rows_after (ang_vel <$> ps) (length l) (positions ps) /\
    ang_vel <$> ps' = ang_vel <$> ps.
Proof.
  revert ps. induction l as [|i l IH]; intros ps; simpl; [by exists ps|].
  intros [H1 H]%andb_prop.
  destruct (step_all_with_numpy ps H1) as (ps1 & -> & Hrows & Hws). simpl.
  rewrite <- Hrows, <- Hws in H.
  destruct (IH ps1 H) as (ps' & -> & Hrows' & Hws').
  exists ps'. split; [done|]. split; [|congruence].
  by rewrite Hrows', Hws, Hrows, rows_after_S_l.
Qed.

End libm_pow.

(** The steps of the array loop, on arrays of matching lengths. *)
Lemma numpy_steps (l : list nat) (w : list float) (r : list (float * float)) :
  r <> [] -> length w = length r ->
  for_in l (fun _ r => numpy_step w r) r = Ok (rows_after w (length l) r).
Proof.
  revert r. induction l as [|i l IH]; intros r Hne Hlen; simpl; [done|].
  unfold numpy_step. rewrite decide_False, decide_True by done. simpl.
  rewrite IH.
  - by rewrite rows_after_S_l.
  - destruct r, w; done.
  - rewrite length_zip_with. lia.
Qed.

(** One call of each method, on a simulator for [evolve_numpy] whose
    arrays are missing or hold what its particles hold. *)
Lemma evolve_with_follows (pw : libm_pow) (s t : ParticleSimulator)
    (dt : float) (n : Z) :
  particles s <> [] -> particles s = particles t ->
  r_i s = None \/ in_sync s ->
  nsteps_of dt = Ok n ->
  norms_agree_for pw (ang_vel <$> particles s) (Z.to_nat n)
    (positions (particles s)) = true ->
  exists t' s',
    evolve_python_with pw t dt = Ok t' /\ evolve_numpy s dt = Ok s' /\
    particles s' = particles t' /\ in_sync s' /\ particles s' <> [] /\
    ang_vel <$> particles s' = ang_vel <$> particles s /\
    positions (particles s')
      = rows_after (ang_vel <$> particles s) (Z.to_nat n)
          (positions (particles s)).
Proof.
  intros Hne Hps Hsync Hn Hagree.
  assert (length (range n) = Z.to_nat n) as Hrange
    by (unfold range; by rewrite length_seq).
  rewrite <- Hrange in Hagree.
  destruct (steps_with_numpy pw (range n) (particles s) Hagree)
    as (psn & Hloop & Hrows & Hws).
  assert (length psn = length (particles s)) as Hlen.
  { by rewrite <- (length_fmap ang_vel psn), Hws, length_fmap. }
  assert (positions (particles s) <> []) as Hne'.
  { unfold positions. by destruct (particles s). }
  assert (length (ang_vel <$> particles s) = length (positions (particles s)))
    as Hlen' by (unfold positions; by rewrite !length_fmap).
  exists (mkSimulator psn (r_i t) (ang_vel_i t)),
    (mkSimulator psn (Some (positions psn)) (Some (ang_vel <$> particles s))).
  split_and!.
  - unfold evolve_python_with. rewrite Hn. simpl. by rewrite <- Hps, Hloop.
  - destruct Hsync as [Hnone|[Hr Hw]].
    + rewrite evolve_numpy_fresh by done. rewrite Hn. simpl.
      rewrite numpy_steps by done. simpl. rewrite <- Hrows.
      rewrite copy_back_drop by (unfold positions; rewrite length_fmap; simpl; lia).
      by rewrite drop_0, moved_positions by done.
    + rewrite (evolve_numpy_cached _ _ _ Hr). rewrite Hn. simpl. rewrite Hw. simpl.
      rewrite numpy_steps by done. simpl. rewrite <- Hrows.
      rewrite copy_back_drop by (unfold positions; rewrite length_fmap; simpl; lia).
      by rewrite drop_0, moved_positions by done.
  - done.
  - split; simpl; [done|by rewrite Hws].
  - simpl. intros ->. destruct (particles s); [done|]. simpl in Hlen. lia.
  - done.
  - simpl. by rewrite Hrows, Hrange.
Qed.






(** C5.  Evolving the three particles of [test_evolve] for the duration
    0.1 leaves them, with either method, within [1e-5] of [(0.210269,
    0.543863)], [(-0.099334, -0.490034)] and [(0.191358, -0.365227)] in
    every coordinate. *)
Theorem test_evolve_positions :
  (fun s => within_tolerance (positions (particles s)) test_expected)
    <$> evolve_python (init test_particles) 0.1 = Ok true /\
  (fun s => within_tolerance (positions (particles s)) test_expected)
    <$> evolve_numpy (init test_particles) 0.1 = Ok true.
Proof. split; by vm_compute. Qed.

(* ===================================================================== *)
(** * More on the escape-time kernel *)
(* ===================================================================== *)

(** ** Inputs of different lengths *)

Section kernel_lengths.
Variables (fuel : nat) (maxiter : Z).

(** The first [k] rounds of the index loop, for [k] within both lists. *)
Lemma kernel_loop_prefix (zs cs : list complex) (k : nat) (output : list Z) :
  (k <= length zs)%nat -> (k <= length cs)%nat -> (k <= length output)%nat ->
  for_in (seq 0 k) (kernel_body fuel maxiter zs cs) output
  = (counts ← kernel_map fuel maxiter (take k zs) (take k cs);
     mret (counts ++ drop k output)).
Proof.
  unfold kernel_map. induction k as [|k IH]; intros Hz Hc Ho.
  - simpl. by rewrite drop_0.
  - rewrite seq_S, for_in_app, IH by lia. simpl.
    destruct (lookup_lt_is_Some_2 zs k) as [z Hzk]; [lia|].
    destruct (lookup_lt_is_Some_2 cs k) as [c Hck]; [lia|].
    rewrite (take_S_r zs k z), (take_S_r cs k c) by done.
    rewrite zip_with_app by (rewrite !length_take; lia).
    rewrite mapM_app. simpl.
    destruct (mapM (escape_count fuel maxiter) (zip (take k zs) (take k cs)))
      as [counts| |] eqn:Hcounts; simpl; [|done..].
    rewrite kernel_body_eq. unfold getitem. rewrite Hzk, Hck. simpl.
    destruct (escape_count fuel maxiter (z, c)) as [n| |]; simpl; [|done..].
    f_equal.
    assert (length counts = k) as Hlen.
    { apply mapM_Ok, Forall2_length in Hcounts. rewrite <- Hcounts.
      rewrite length_zip_with, !length_take. lia. }
    rewrite insert_app_r_alt by lia. rewrite Hlen, Nat.sub_diag.
    destruct (lookup_lt_is_Some_2 output k) as [o Hok]; [lia|].
    rewrite (drop_S output o k) by done. simpl.
    by rewrite <- (assoc_L (++)).
Qed.

End kernel_lengths.


(** The kernel on at least as many parameters as points is the map over
    the pairs, the surplus parameters left aside. *)
Lemma kernel_is_map_le (fuel : nat) (maxiter : Z) (zs cs : list complex) :
  (length zs <= length cs)%nat ->
  calculate_z_serial_purepython fuel maxiter zs cs = kernel_map fuel maxiter zs cs.
Proof.
  intros Hle. unfold calculate_z_serial_purepython.
  rewrite kernel_loop_prefix by (rewrite ?length_replicate; lia).
  rewrite take_ge by lia.
  rewrite drop_ge by (rewrite length_replicate; lia).
  unfold kernel_map. rewrite zip_with_take_r by lia.
  destruct (mapM _ _); simpl; [|done..]. by rewrite app_nil_r.
Qed.

(** On fewer parameters than points the loop runs through the points that
    have a parameter, and the subscript of the next one fails. *)
Lemma kernel_short_params (fuel : nat) (maxiter : Z) (zs cs : list complex) :
  (length cs < length zs)%nat ->
  calculate_z_serial_purepython fuel maxiter zs cs =
  (_ ← kernel_map fuel maxiter (take (length cs) zs) cs; Raise IndexError).
Proof.
  intros Hlt. unfold calculate_z_serial_purepython.
  replace (length zs) with (length cs + S (length zs - S (length cs)))%nat
    at 1 by lia.
  rewrite seq_app, for_in_app.
  rewrite kernel_loop_prefix by (rewrite ?length_replicate; lia).
  rewrite (take_ge cs) by lia.
  destruct (kernel_map _ _ _ _); simpl; [|done..].
  rewrite kernel_body_eq. unfold getitem.
  destruct (lookup_lt_is_Some_2 zs (length cs)) as [z ->]; [lia|].
  by rewrite (lookup_ge_None_2 cs) by lia.
Qed.

Lemma kernel_Ok_counts (fuel : nat) (maxiter : Z) (zs cs : list complex)
    (output : list Z) :
  calculate_z_serial_purepython fuel maxiter zs cs = Ok output ->
  (length zs <= length cs)%nat /\
  Forall2 (fun zc n => escape_count fuel maxiter zc = Ok n) (zip zs cs) output.
Proof.
  intros H. destruct (decide (length zs <= length cs)%nat) as [Hle|Hgt].
  - split; [done|]. rewrite kernel_is_map_le in H by done. by apply mapM_Ok.
  - rewrite kernel_short_params in H by lia.
    by destruct (kernel_map _ _ _ _).
Qed.

(** X2.  The kernel does not compare the lengths of its two inputs.  With
    at least as many parameters as points it does what it does on the
    first [len(zs)] parameters, the surplus never read.  With fewer
    parameters it works through the points that have one, raising what
    they raise, and then fails with [IndexError] at [cs[i]]: it never
    returns. *)
Theorem kernel_mismatched_lengths (fuel : nat) (maxiter : Z)
    (zs cs : list complex) :
  calculate_z_serial_purepython fuel maxiter zs cs =
  if decide (length zs <= length cs)%nat
  then calculate_z_serial_purepython fuel maxiter zs (take (length zs) cs)
  else _ ← calculate_z_serial_purepython fuel maxiter (take (length cs) zs) cs;
       Raise IndexError.
Proof.
  destruct (decide (length zs <= length cs)%nat) as [Hle|Hgt].
  - rewrite !kernel_is_map_le by (rewrite ?length_take; lia).
    unfold kernel_map. by rewrite zip_with_take_r by lia.
  - rewrite kernel_short_params by lia.
    by rewrite kernel_is_map by (rewrite length_take; lia).
Qed.

(** ** Bounds of the counts *)

Lemma is_escape_count_bounds (maxiter : Z) (z c : complex) (n : Z) :
  is_escape_count maxiter z c n -> (0 <= n <= Z.max 0 maxiter)%Z.
Proof.
  intros (Hn & Hin & _). split; [done|].
  destruct (decide (n = 0%Z)) as [->|Hpos]; [lia|].
  destruct (Hin (Z.to_nat (n - 1))) as [_ ?]; lia.
Qed.


Lemma sum_bounds (B : Z) (l : list Z) (acc : Z) :
  Forall (fun n => (0 <= n <= B)%Z) l ->
  (acc <= foldl Z.add acc l <= acc + Z.of_nat (length l) * B)%Z.
Proof.
  intros Hl. revert acc. induction Hl as [|n l Hn _ IH]; intros acc; simpl; [lia|].
  specialize (IH (acc + n)%Z). nia.
Qed.

(** X1.  Whenever the kernel returns, it returns one count per point, and
    every count is at least 0 and at most [max_iterations] (0 when
    [max_iterations] is negative); so the sum of the counts is at most the
    number of points times that cap.  No assumption on the lengths of
    [zs] and [cs] is needed. *)
Theorem kernel_counts_bounded (fuel : nat) (maxiter : Z)
    (zs cs : list complex) (output : list Z) :
  calculate_z_serial_purepython fuel maxiter zs cs = Ok output ->
  length output = length zs /\
  Forall (fun n => (0 <= n <= Z.max 0 maxiter)%Z) output /\
  (0 <= sum output <= Z.of_nat (length zs) * Z.max 0 maxiter)%Z.
Proof.
  intros H. apply kernel_Ok_counts in H as [Hle H].
  assert (length output = length zs) as Hlen.
  { apply Forall2_length in H. rewrite length_zip_with in H. lia. }
  assert (Forall (fun n => (0 <= n <= Z.max 0 maxiter)%Z) output) as Hall.
  { clear Hlen. induction H as [|[z c] n ? ? Hn _ IH]; constructor; [|done].
    by apply escape_count_Ok, is_escape_count_bounds in Hn. }
  split_and!; [done..| |].
  - pose proof (sum_bounds _ _ 0 Hall). unfold sum. lia.
  - pose proof (sum_bounds _ _ 0 Hall) as Hs. unfold sum. rewrite <- Hlen. lia.
Qed.

Lemma kernel_counts_bounded_witness :
  length [5; 1; 0]%Z = length [Complex 0 0; Complex 1 1; Complex 3 0] /\
  Forall (fun n => (0 <= n <= Z.max 0 5)%Z) [5; 1; 0]%Z /\
  (0 <= sum [5; 1; 0]%Z
   <= Z.of_nat (length [Complex 0 0; Complex 1 1; Complex 3 0]) * Z.max 0 5)%Z.
Proof.
  apply (kernel_counts_bounded 10 5 [Complex 0 0; Complex 1 1; Complex 3 0]
           [Complex 0 0; Complex 0 0; Complex 0 0]).
  reflexivity.
Defined.

(** ** The iteration cap *)

(** The loop returns the count the rule assigns, when there is one. *)
Lemma escape_count_complete (fuel : nat) (maxiter : Z) (z c : complex) (n : Z) :
  is_escape_count maxiter z c n -> (Z.to_nat maxiter < fuel)%nat ->
  escape_count fuel maxiter (z, c) = Ok n.
Proof.
  intros Hn Hfuel.
  destruct (escape_count fuel maxiter (z, c)) as [n'|e|] eqn:Hrun.
  - apply escape_count_Ok in Hrun. f_equal. by eapply is_escape_count_unique.
  - exfalso. apply escape_count_Raise in Hrun as (_ & k & Hin & Hk).
    destruct Hn as (Hn0 & Hin' & a & Ha & Hstop).
    destruct (decide (Z.of_nat k < n)%Z) as [Hlt|Hge].
    + destruct (Hin' k Hlt) as [(a' & Ha' & _) _]. congruence.
    + destruct (decide (Z.to_nat n = k)) as [Heq|Hne].
      * rewrite Heq in Ha. congruence.
      * destruct (Hin (Z.to_nat n)) as [(a' & Ha' & Hlt') ?]; [lia|].
        rewrite Ha in Ha'. injection Ha' as <-.
        destruct Hstop as [Hstop|Hstop]; [congruence|lia].
  - by apply escape_count_fuel in Hrun.
Qed.

Lemma is_escape_count_cap (maxiter maxiter' : Z) (z c : complex) (n' : Z) :
  is_escape_count maxiter' z c n' -> (maxiter <= maxiter')%Z ->
  is_escape_count maxiter z c (Z.min n' (Z.max 0 maxiter)).
Proof.
  intros (Hn0 & Hin & a & Ha & Hstop) Hle. split_and!; [lia| |].
  - intros k Hk. destruct (Hin k) as [? ?]; [lia|]. split; [done|lia].
  - destruct (decide (n' <= Z.max 0 maxiter)%Z) as [Hmin|Hmin].
    + rewrite Z.min_l by done. exists a. split; [done|].
      destruct Hstop; [by left|right; lia].
    + rewrite Z.min_r by lia.
      destruct (Hin (Z.to_nat (Z.max 0 maxiter))) as [(a' & Ha' & _) _]; [lia|].
      exists a'. split; [done|right; lia].
Qed.

(** X4.  Lowering the cap clips the counts: if the kernel returns
    [output'] under the cap [maxiter'], then under any cap
    [maxiter <= maxiter'] it returns, on the same inputs, every count of
    [output'] cut down to [maxiter] (to 0 for a negative cap); in
    particular it raises nothing. *)
Theorem kernel_lower_cap (fuel : nat) (maxiter maxiter' : Z)
    (zs cs : list complex) (output' : list Z) :
  calculate_z_serial_purepython fuel maxiter' zs cs = Ok output' ->
  (maxiter <= maxiter')%Z -> (Z.to_nat maxiter < fuel)%nat ->
  calculate_z_serial_purepython fuel maxiter zs cs
  = Ok ((fun n' => Z.min n' (Z.max 0 maxiter)) <$> output').
Proof.
  intros H Hle Hfuel. apply kernel_Ok_counts in H as [Hlen H].
  rewrite kernel_is_map_le by done. apply mapM_Ok.
  apply Forall2_fmap_r. eapply Forall2_impl; [exact H|].
  intros [z c] n' Hn'. simpl. apply escape_count_complete; [|done].
  eapply is_escape_count_cap; [|done]. by eapply escape_count_Ok.
Qed.

Lemma kernel_lower_cap_witness :
  calculate_z_serial_purepython 10 2
    [Complex 0 0; Complex 1 1; Complex 3 0]
    [Complex 0 0; Complex 0 0; Complex 0 0]
  = Ok ((fun n' => Z.min n' (Z.max 0 2)) <$> [5; 1; 0]%Z).
Proof.
  apply (kernel_lower_cap 10 2 5); [reflexivity|lia|lia].
Defined.

(** ** Chunks of the input *)

(** X3.  The kernel treats each point on its own: on inputs cut into two
    chunks at the same place, it does what running it on the first chunk
    and then on the second does, and its output is the two outputs
    concatenated (an error of the first chunk coming first). *)
Theorem kernel_app (fuel : nat) (maxiter : Z) (zs1 zs2 cs1 cs2 : list complex) :
  length zs1 = length cs1 ->
  calculate_z_serial_purepython fuel maxiter (zs1 ++ zs2) (cs1 ++ cs2) =
  (output1 ← calculate_z_serial_purepython fuel maxiter zs1 cs1;
   output2 ← calculate_z_serial_purepython fuel maxiter zs2 cs2;
   mret (output1 ++ output2)).
Proof.
  intros H1. rewrite (kernel_is_map _ _ zs1 cs1) by done.
  destruct (decide (length zs2 <= length cs2)%nat) as [Hle|Hgt].
  - rewrite !kernel_is_map_le by (rewrite ?length_app; lia).
    unfold kernel_map. rewrite zip_with_app by done. apply mapM_app.
  - rewrite !kernel_short_params by (rewrite ?length_app; lia).
    rewrite length_app, <- H1, take_app_add'. 2: done.
    unfold kernel_map. rewrite zip_with_app by done. rewrite mapM_app.
    destruct (mapM _ (zip zs1 cs1)); simpl; [|done..].
    by destruct (mapM _ (zip (take (length cs2) zs2) cs2)).
Qed.

Lemma kernel_app_witness :
  calculate_z_serial_purepython 10 5
    ([Complex 0 0] ++ [Complex 1 1; Complex 3 0])
    ([Complex 0 0] ++ [Complex 0 0; Complex 0 0]) =
  (output1 ← calculate_z_serial_purepython 10 5 [Complex 0 0] [Complex 0 0];
   output2 ← calculate_z_serial_purepython 10 5 [Complex 1 1; Complex 3 0]
               [Complex 0 0; Complex 0 0];
   mret (output1 ++ output2)).
Proof. apply kernel_app. reflexivity. Defined.

(** ** The point reflection *)

Lemma opp_mul_opp (a b : float) : (- a) * (- b) = a * b.
Proof.
  apply Prim2SF_inj. rewrite !mul_spec, !opp_spec.
  destruct (Prim2SF a) as [s|s| |s m e], (Prim2SF b) as [s'|s'| |s' m' e'];
    simpl; try done; by destruct s, s'.
Qed.

Lemma abs_opp (a : float) : abs (- a) = abs a.
Proof.
  apply Prim2SF_inj. rewrite !abs_spec, opp_spec.
  by destruct (Prim2SF a).
Qed.

Lemma c_abs_neg (z : complex) : c_abs (c_neg z) = c_abs z.
Proof.
  unfold c_abs, modulus, hypot, is_infinity. simpl.
  by rewrite !is_finite_abs, !abs_opp.
Qed.

Lemma julia_step_neg (c z : complex) : julia_step c (c_neg z) = julia_step c z.
Proof. unfold julia_step, c_prod. simpl. by rewrite !opp_mul_opp. Qed.

Lemma escape_count_neg (fuel : nat) (maxiter : Z) (z c : complex) :
  escape_count fuel maxiter (c_neg z, c) = escape_count fuel maxiter (z, c).
Proof.
  unfold escape_count, escape_loop. simpl.
  destruct fuel as [|fuel]; [done|]. simpl. rewrite c_abs_neg.
  destruct (c_abs z) as [a| |]; simpl; [|done..].
  destruct (a <? 2); simpl; [|done].
  destruct (0 <? maxiter)%Z; simpl; [|done].
  change (c_sum (c_prod (c_neg z) (c_neg z)) c) with (julia_step c (c_neg z)).
  by rewrite julia_step_neg.
Qed.

Lemma for_in_ext {A S : Type} (l : list A) (body body' : A -> S -> res S) (s : S) :
  (forall a s, body a s = body' a s) ->
  for_in l body s = for_in l body' s.
Proof.
  intros Hb. revert s. induction l as [|a l IH]; intros s; simpl; [done|].
  rewrite Hb. destruct (body' a s); simpl; [apply IH|done..].
Qed.

(** X5.  The counts are symmetric under the point reflection of the
    plane: the kernel does on the points [-z] exactly what it does on the
    points [z], bit for bit, for every parameter list (the first update
    [z * z + c] already gives the same float pair, and [abs(-z)] is
    [abs(z)]). *)
Theorem kernel_point_symmetry (fuel : nat) (maxiter : Z) (zs cs : list complex) :
  calculate_z_serial_purepython fuel maxiter (c_neg <$> zs) cs
  = calculate_z_serial_purepython fuel maxiter zs cs.
Proof.
  unfold calculate_z_serial_purepython. rewrite length_fmap.
  apply for_in_ext. intros i output. rewrite !kernel_body_eq.
  unfold getitem. rewrite list_lookup_fmap.
  destruct (zs !! i) as [z|]; simpl; [|done].
  destruct (cs !! i) as [c|]; simpl; [|done].
  by rewrite escape_count_neg.
Qed.

(** ** The check of the sum *)

(** What the kernel does on index-aligned inputs, within a budget above
    the cap: it returns counts within the bounds, or the modulus of some
    point overflows. *)
Lemma kernel_map_outcomes (fuel : nat) (maxiter : Z) (l : list (complex * complex)) :
  (Z.to_nat maxiter < fuel)%nat ->
  (exists output, mapM (escape_count fuel maxiter) l = Ok output /\
     length output = length l /\
     Forall (fun n => (0 <= n <= Z.max 0 maxiter)%Z) output) \/
  mapM (escape_count fuel maxiter) l = Raise OverflowError.
Proof.
  intros Hfuel. destruct (mapM _ l) as [output|e|] eqn:Hmap.
  - left. exists output. split; [done|]. apply mapM_Ok in Hmap.
    split; [symmetry; by eapply Forall2_length|].
    induction Hmap as [|[z c] n ? ? Hn _ IH]; constructor; [|done].
    by apply escape_count_Ok, is_escape_count_bounds in Hn.
  - right. apply mapM_not_Ok in Hmap as (i & [z c] & _ & He); [|done].
    by apply escape_count_Raise in He as [-> _].
  - apply mapM_not_Ok in Hmap as (i & zc & _ & He); [|done].
    by apply escape_count_fuel in He.
Qed.

(** X6.  A grid too small for the checksum cannot pass: when the number
    of grid points times the cap (0 for a negative cap) is below 33219980,
    [calc_pure_python] raises, [AssertionError] at its check unless the
    modulus of some point overflowed in the kernel first.  So no call with
    [max_iterations <= 0] returns. *)
Theorem too_few_iterations (fuel : nat) (g : Globals)
    (desired_width max_iterations : Z) (return_output : bool)
    (x y : list float) (zs cs : list complex) :
  build_grid fuel g desired_width = Ok (x, y, zs, cs) ->
  (Z.to_nat max_iterations < fuel)%nat ->
  (Z.of_nat (length x * length y) * Z.max 0 max_iterations < 33219980)%Z ->
  calc_pure_python fuel g desired_width max_iterations return_output
    = Raise AssertionError \/
  calc_pure_python fuel g desired_width max_iterations return_output
    = Raise OverflowError.
Proof.
  intros Hg Hfuel Hsmall. unfold calc_pure_python. rewrite Hg. simpl.
  apply build_grid_Ok in Hg as (_ & _ & _ & _ & _ & -> & ->).
  rewrite kernel_is_map.
  2: { rewrite length_grid_points. unfold grid_params. by rewrite length_replicate. }
  unfold kernel_map.
  destruct (kernel_map_outcomes fuel max_iterations
              (zip (grid_points x y) (grid_params g x y)) Hfuel)
    as [(output & -> & Hlen & Hall)| ->]; [|by right].
  left. simpl. pose proof (sum_bounds _ _ 0 Hall) as Hs.
  rewrite Hlen, length_zip_with, length_grid_points in Hs.
  unfold grid_params in Hs. rewrite length_replicate in Hs.
  fold (sum output) in Hs.
  destruct (sum output =? 33219980)%Z eqn:Hsum; [|done]. nia.
Qed.

Lemma too_few_iterations_witness :
  calc_pure_python 5 module_globals 1 3 true = Raise AssertionError \/
  calc_pure_python 5 module_globals 1 3 true = Raise OverflowError.
Proof.
  apply (too_few_iterations 5 module_globals 1 3 true [-1.8] [1.8]
           [Complex (-1.8) 1.8]
           [Complex (c_real module_globals) (c_imag module_globals)]).
  - reflexivity.
  - vm_compute. lia.
  - vm_compute. reflexivity.
Defined.

(** ** Symmetric bounds *)

Lemma binary_round_aux_opp (s : bool) (m e : Z) (l : location) :
  binary_round_aux prec emax (negb s) m e l
  = SFopp (binary_round_aux prec emax s m e l).
Proof.
  unfold binary_round_aux.
  destruct (shr_fexp prec emax m e l) as [mrs' e'].
  destruct (shr_fexp prec emax _ e' loc_Exact) as [mrs'' e''].
  destruct (shr_m mrs'') as [|p|p]; [done| |done].
  by destruct (e'' <=? emax - prec)%Z.
Qed.

Lemma binary_normalize_opp (m e : Z) :
  m <> 0%Z ->
  binary_normalize prec emax (- m) e false
  = SFopp (binary_normalize prec emax m e false).
Proof.
  intros Hm. destruct m as [|p|p]; [done| |]; simpl; unfold binary_round;
    destruct (shl_align _ _ _) as [mz ez].
  - apply (binary_round_aux_opp false).
  - by rewrite <- (binary_round_aux_opp true).
Qed.

Lemma cond_Zopp_negb (s : bool) (m : Z) : cond_Zopp (negb s) m = (- cond_Zopp s m)%Z.
Proof. destruct s; simpl; lia. Qed.

Lemma sf_mirror_opp (a : spec_float) : sf_mirror a (SFopp a).
Proof. by left. Qed.

Lemma sf_mirror_zero (s s' : bool) : sf_mirror (S754_zero s) (S754_zero s').
Proof. right. split; eexists; done. Qed.

Lemma normalize_mirror (m e : Z) :
  sf_mirror (binary_normalize prec emax m e false)
            (binary_normalize prec emax (- m) e false).
Proof.
  destruct (decide (m = 0%Z)) as [->|Hm]; [apply sf_mirror_zero|].
  left. by apply binary_normalize_opp.
Qed.

Lemma add_mirror (a b s t : spec_float) :
  sf_mirror a b -> sf_mirror s t -> sf_mirror (SF64add a s) (SF64add b t).
Proof.
  unfold SF64add.
  intros [->|[[sa ->] [sb ->]]] [->|[[ss ->] [st ->]]].
  - destruct a as [sa|sa| |sa ma ea], s as [ss|ss| |ss ms es]; simpl;
      try apply sf_mirror_opp; try (by destruct sa, ss; apply sf_mirror_zero);
      try (by destruct sa, ss; (apply sf_mirror_opp || (by left))).
    rewrite !cond_Zopp_negb, <- Z.opp_add_distr. apply normalize_mirror.
  - destruct a as [sa|sa| |sa ma ea]; simpl; try apply sf_mirror_opp.
    destruct sa, ss, st; apply sf_mirror_zero.
  - destruct s as [ss|ss| |ss ms es]; simpl; try apply sf_mirror_opp.
    destruct sa, sb, ss; apply sf_mirror_zero.
  - destruct sa, sb, ss, st; apply sf_mirror_zero.
Qed.

Lemma sub_mirror (a b : spec_float) :
  sf_mirror (SF64sub a b) (SF64sub (SFopp a) (SFopp b)).
Proof.
  unfold SF64sub.
  destruct a as [sa|sa| |sa ma ea], b as [sb|sb| |sb mb eb]; simpl;
    try apply sf_mirror_opp; try (by destruct sa, sb; apply sf_mirror_zero);
    try (by destruct sa, sb; (apply sf_mirror_opp || (by left))).
  rewrite !cond_Zopp_negb.
  replace (- cond_Zopp sa (Z.pos (shl_align ma ea (IntDef.Z.min ea eb)).1)
           - - cond_Zopp sb (Z.pos (shl_align mb eb (IntDef.Z.min ea eb)).1))%Z
    with (- (cond_Zopp sa (Z.pos (shl_align ma ea (IntDef.Z.min ea eb)).1)
             - cond_Zopp sb (Z.pos (shl_align mb eb (IntDef.Z.min ea eb)).1)))%Z
    by lia.
  apply normalize_mirror.
Qed.

Lemma div_mirror (p q w : spec_float) :
  sf_mirror p q -> sf_mirror (SF64div p w) (SF64div q w).
Proof.
  unfold SF64div. intros [->|[[sp ->] [sq ->]]].
  - left.
    destruct p as [sp|sp| |sp mp ep], w as [sw|sw| |sw mw ew]; simpl;
      try done; try (by destruct sp, sw).
    destruct (SFdiv_core_binary _ _ _ _ _ _) as [[mz ez] lz].
    rewrite <- binary_round_aux_opp. by destruct sp, sw.
  - destruct w as [sw|sw| |sw mw ew]; simpl;
      (apply sf_mirror_zero || by left).
Qed.

Lemma ltb_mirror (a b c : spec_float) :
  sf_mirror a b -> SFltb a c = SFltb (SFopp c) b.
Proof.
  unfold SFltb. intros [->|[[sa ->] [sb ->]]].
  - destruct a as [sa|sa| |sa ma ea], c as [sc|sc| |sc mc ec]; simpl;
      try done; try (by destruct sa); try (by destruct sc);
      try (by destruct sa, sc).
    destruct sa, sc; simpl; try done;
      rewrite (Z.compare_antisym ea ec);
      destruct (ea ?= ec)%Z; simpl; try done;
      change (PosDef.Pos.compare_cont Eq mc ma) with (Pos.compare mc ma);
      change (PosDef.Pos.compare_cont Eq ma mc) with (Pos.compare ma mc);
      rewrite (Pos.compare_antisym ma mc); by destruct (ma ?= mc)%positive.
  - destruct c as [sc|sc| |sc mc ec]; simpl; try done; by destruct sc.
Qed.

Lemma mirror_opp (a : float) : mirror a (- a).
Proof. unfold mirror. rewrite opp_spec. apply sf_mirror_opp. Qed.

(** The two coordinate loops on mirrored bounds and steps run in step. *)
Lemma coordinate_loops_mirror (g : Globals) (x_step y_step : float) (fuel : nat)
    (lx ly : list float) (a b : float) :
  y1 g = - x2 g -> mirror x_step y_step -> mirror a b ->
  Forall2 mirror lx ly ->
  match while fuel
          (fun '(x, xcoord) => mret (xcoord <? x2 g))
          (fun '(x, xcoord) => mret (x ++ [xcoord], xcoord + x_step)) (lx, a),
        while fuel
          (fun '(y, ycoord) => mret (y1 g <? ycoord))
          (fun '(y, ycoord) => mret (y ++ [ycoord], ycoord + y_step)) (ly, b)
  with
  | Ok (lx', _), Ok (ly', _) => Forall2 mirror lx' ly'
  | OutOfFuel, OutOfFuel => True
  | _, _ => False
  end.
Proof.
  intros Hy1 Hstep. revert lx ly a b.
  induction fuel as [|fuel IH]; intros lx ly a b Hab Hl; simpl; [done|].
  assert ((a <? x2 g) = (y1 g <? b)) as <-.
  { rewrite !FloatAxioms.ltb_spec, Hy1, opp_spec. by apply ltb_mirror. }
  destruct (a <? x2 g); simpl; [|done].
  apply IH.
  - unfold mirror. rewrite !add_spec. by apply add_mirror.
  - apply Forall2_app; [done|]. by constructor.
Qed.

(** X8.  For bounds that are symmetric about the origin as the module's
    are ([y2 = -x1] and [y1 = -x2]), the grid is square: the two
    coordinate loops run in step, [y] has as many values as [x], [zs] has
    [len(x) ** 2] points, and the [k]-th y value is the negative of the
    [k]-th x value (or both are zeros). *)
Theorem symmetric_bounds_square_grid (fuel : nat) (g : Globals)
    (desired_width : Z) (x y : list float) (zs cs : list complex) :
  y2 g = - x1 g -> y1 g = - x2 g ->
  build_grid fuel g desired_width = Ok (x, y, zs, cs) ->
  length y = length x /\
  length zs = (length x * length x)%nat /\
  Forall2 mirror x y.
Proof.
  intros Hy2 Hy1 Hg.
  apply build_grid_Ok in Hg as (x_step & y_step & Hsteps & Hy & Hx & -> & _).
  assert (mirror x_step y_step) as Hstep.
  { unfold coordinate_steps in Hsteps.
    apply bind_Ok in Hsteps as (w & Hw & Hsteps). rewrite Hw in Hsteps.
    apply bind_Ok in Hsteps as (xs & Hxs & Hsteps). simpl in Hsteps.
    apply bind_Ok in Hsteps as (ys & Hys & [= <- <-]).
    apply truediv_Ok in Hxs as [_ ->]. apply truediv_Ok in Hys as [_ ->].
    unfold mirror. rewrite !div_spec, !sub_spec, Hy1, Hy2, !opp_spec.
    apply div_mirror, sub_mirror. }
  pose proof (coordinate_loops_mirror g x_step y_step fuel [] [] (x1 g) (y2 g)
                Hy1 Hstep) as Hloops.
  unfold x_list in Hx. unfold y_list in Hy.
  apply fmap_Ok in Hx as ([lx a] & Hx & ->).
  apply fmap_Ok in Hy as ([ly b] & Hy & ->).
  rewrite Hx, Hy in Hloops. simpl.
  assert (Forall2 mirror lx ly) as Hall.
  { apply Hloops; [|constructor]. rewrite Hy2. apply mirror_opp. }
  pose proof (Forall2_length _ _ _ Hall) as Hlen.
  split_and!; [done| |done].
  by rewrite length_grid_points, <- Hlen.
Qed.

Lemma symmetric_bounds_square_grid_witness :
  exists (x y : list float) (zs cs : list complex),
    build_grid 10 module_globals 3 = Ok (x, y, zs, cs) /\
    length y = length x /\
    length zs = Nat.mul (length x) (length x) /\
    Forall2 mirror x y.
Proof.
  destruct (build_grid 10 module_globals 3) as [[[[x y] zs] cs]| |] eqn:Hg;
    [|vm_compute in Hg; discriminate Hg..].
  exists x, y, zs, cs. split; [reflexivity|].
  apply (symmetric_bounds_square_grid 10 module_globals 3 x y zs cs);
    [reflexivity|reflexivity|exact Hg].
Defined.

(* ===================================================================== *)
(** * The two renderings *)
(* ===================================================================== *)

(** ** Floats in the byte range *)

Lemma digits2_pos_bound (m : positive) : (Z.pos m < 2 ^ Z.pos (digits2_pos m))%Z.
Proof.
  induction m as [m IH|m IH|]; simpl; [| |done];
    rewrite Pos2Z.inj_succ, Z.pow_succ_r by lia; lia.
Qed.

(** A float from [0] to below [256] truncates to a byte. *)
Lemma int_of_float_byte (f : float) :
  (0 <=? f) = true -> (f <? 256) = true ->
  exists b : Z, int_of_float f = Ok b /\ (0 <= b <= 255)%Z.
Proof.
  rewrite FloatAxioms.leb_spec, FloatAxioms.ltb_spec. unfold int_of_float.
  change (Prim2SF 0) with (S754_zero false).
  change (Prim2SF 256) with (S754_finite false 4503599627370496 (-44)).
  pose proof (Prim2SF_valid f) as Hv.
  destruct (Prim2SF f) as [s|s| |s m e]; try done.
  - intros _ _. exists 0%Z. split; [done|lia].
  - by destruct s.
  - destruct s; [done|]. intros _. unfold SFltb, SFcompare.
    unfold valid_binary, bounded, canonical_mantissa in Hv.
    apply andb_prop in Hv as [Hc _]. apply Z.eqb_eq in Hc.
    unfold fexp, emin, prec, emax in Hc.
    pose proof (digits2_pos_bound m) as Hd.
    assert (Z.pos (digits2_pos m) <= 53)%Z as Hd53 by lia.
    assert (Z.pos m < 2 ^ 53)%Z as Hm.
    { eapply Z.lt_le_trans; [exact Hd|]. by apply Z.pow_le_mono_r. }
    intros Hlt.
    assert (e < 0 /\ Z.pos m < 256 * 2 ^ (- e))%Z as [He Hb].
    { destruct (Z.compare_spec e (-44)) as [->|He|He]; [| |discriminate Hlt].
      - match type of Hlt with
        | match ?c with _ => _ end = _ => destruct c eqn:Hcmp
        end; try discriminate Hlt.
        assert (m < 4503599627370496)%positive as Hlt' by exact Hcmp.
        apply Pos2Z.pos_lt_pos in Hlt'. clear Hcmp.
        split; [done|]. change (2 ^ (- -44))%Z with 17592186044416%Z. lia.
      - split; [lia|].
        assert (2 ^ 45 <= 2 ^ (- e))%Z by (apply Z.pow_le_mono_r; lia). lia. }
    destruct (0 <=? e)%Z eqn:He'; [lia|].
    exists (Z.pos m / 2 ^ (- e))%Z. split; [done|].
    assert (0 < 2 ^ (- e))%Z by (apply Z.pow_pos_nonneg; lia).
    split; [apply Z.div_pos; lia|].
    assert (Z.pos m / 2 ^ (- e) < 256)%Z; [|lia].
    apply Z.div_lt_upper_bound; lia.
Qed.

(** ** The table of the scalings *)

Lemma lookup_floats_upto (N : nat) (k : Z) :
  (0 <= k <= Z.of_nat N)%Z ->
  floats_upto N !! Z.to_nat k = Some (float_of_int k).
Proof.
  intros Hk. unfold floats_upto. rewrite list_lookup_fmap.
  rewrite lookup_seq_lt by lia. simpl. by rewrite Z2Nat.id by lia.
Qed.

Lemma scale_table_spec (N : nat) (o m : Z) :
  scale_table_ok N = true -> (0 <= o <= m)%Z -> (1 <= m <= Z.of_nat N)%Z ->
  exists fo fm : float,
    float_of_int o = Ok fo /\ float_of_int m = Ok fm /\ (fm =? 0) = false /\
    in_byte_range fm fo = true /\
    int_of_float (fm / fm * 255) = Ok 255%Z /\
    int_of_float (0 / fm * 255) = Ok 0%Z.
Proof.
  intros Hok Ho Hm. unfold scale_table_ok in Hok. cbv zeta in Hok.
  rewrite forallb_forall in Hok.
  specialize (Hok (Z.to_nat m) ltac:(apply in_seq; lia)).
  rewrite lookup_floats_upto in Hok by lia.
  destruct (float_of_int m) as [fm| |] eqn:Hfm; [|done..].
  apply andb_prop in Hok as [Hok Hrow].
  apply andb_prop in Hok as [Hok Hzero].
  apply andb_prop in Hok as [Hnz Hmax].
  rewrite forallb_forall in Hrow. specialize (Hrow (float_of_int o)).
  assert (In (float_of_int o) (take (S (Z.to_nat m)) (floats_upto N))) as Hin.
  { apply list_elem_of_In, list_elem_of_lookup.
    exists (Z.to_nat o). rewrite lookup_take_lt by lia.
    by rewrite lookup_floats_upto by lia. }
  specialize (Hrow Hin).
  destruct (float_of_int o) as [fo| |] eqn:Hfo; [|done..].
  exists fo, fm. split_and!; [done|done|by apply negb_true_iff|done| |].
  - destruct (int_of_float (fm / fm * 255)) as [b| |]; [|done..].
    destruct (decide (b = 255%Z)) as [->|Hne]; [done|].
    destruct b as [|p|p]; try done.
    do 8 (destruct p as [p|p|]; try done).
  - destruct (int_of_float (0 / fm * 255)) as [[| |]| |]; done.
Qed.

Lemma scale_table_1000 : scale_table_ok 1000 = true.
Proof. by vm_compute. Qed.

(** ** The largest count *)

Lemma foldl_max_spec (l : list Z) (n : Z) :
  (n <= foldl Z.max n l)%Z /\ Forall (fun o => (o <= foldl Z.max n l)%Z) l /\
  (foldl Z.max n l = n \/ foldl Z.max n l ∈ l).
Proof.
  revert n. induction l as [|o l IH]; intros n; simpl.
  - split_and!; [lia|constructor|by left].
  - destruct (IH (Z.max n o)) as (Hle & Hall & Hin). split_and!; [lia| |].
    + constructor; [lia|done].
    + destruct Hin as [Heq|Hin]; [|right; by right].
      destruct (Z.max_spec n o) as [[_ Hmax]|[_ Hmax]].
      * right. rewrite Heq, Hmax. by left.
      * left. by rewrite Heq.
Qed.

Lemma py_max_Ok (l : list Z) (m : Z) :
  py_max l = Ok m -> m ∈ l /\ Forall (fun o => (o <= m)%Z) l.
Proof.
  destruct l as [|n l]; [done|]. simpl. intros [= <-].
  destruct (foldl_max_spec l n) as (Hle & Hall & Hin). split.
  - destruct Hin as [->|Hin]; [by left|by right].
  - by constructor.
Qed.

(** A list of counts that passed the check of [calc_pure_python] has a
    largest element, which is positive. *)
Lemma py_max_positive (l : list Z) :
  Forall (fun n => (0 <= n)%Z) l -> (0 < sum l)%Z ->
  exists m, py_max l = Ok m /\ (1 <= m)%Z.
Proof.
  intros Hall Hsum. destruct l as [|n l]; [done|].
  exists (foldl Z.max n l). split; [done|].
  destruct (py_max_Ok (n :: l) _ eq_refl) as [_ Hmax].
  destruct (decide (1 <= foldl Z.max n l)%Z) as [|Hsmall]; [done|].
  exfalso.
  assert (Forall (fun o => (0 <= o <= 0)%Z) (n :: l)) as Hzero.
  { apply Forall_forall. intros o Ho.
    rewrite Forall_forall in Hall, Hmax.
    specialize (Hall o Ho). specialize (Hmax o Ho). simpl in *. lia. }
  pose proof (sum_bounds _ _ 0 Hzero) as Hs. unfold sum in Hsum. lia.
Qed.

(** ** The two renderings *)

Lemma calc_pure_python_output_eq (fuel : nat) (g : Globals)
    (desired_width max_iterations : Z) :
  calc_pure_python fuel g desired_width max_iterations true
  = Some <$> calc_pure_python_output fuel g desired_width max_iterations.
Proof.
  unfold calc_pure_python, calc_pure_python_output.
  destruct (build_grid _ _ _) as [[[[x y] zs] cs]| |]; simpl; [|done..].
  destruct (calculate_z_serial_purepython _ _ _ _) as [output| |]; simpl; [|done..].
  by destruct (sum output =? 33219980)%Z.
Qed.

(** The counts that pass the check are within the cap, and not all zero. *)
Lemma calc_pure_python_output_Ok (fuel : nat) (g : Globals)
    (desired_width max_iterations : Z) (output : list Z) :
  calc_pure_python_output fuel g desired_width max_iterations = Ok output ->
  Forall (fun n => (0 <= n <= Z.max 0 max_iterations)%Z) output /\
  sum output = 33219980%Z.
Proof.
  unfold calc_pure_python_output. intros H.
  apply bind_Ok in H as ([[[x y] zs] cs] & _ & H).
  apply bind_Ok in H as (output' & Hk & H).
  destruct (sum output' =? 33219980)%Z eqn:Hsum; [|done].
  injection H as <-. split; [|lia].
  apply kernel_Ok_counts in Hk as [_ Hk]. clear Hsum.
  induction Hk as [|[z c] n ? ? Hn _ IH]; constructor; [|done].
  by apply escape_count_Ok, is_escape_count_bounds in Hn.
Qed.

Lemma array_unsigned_Ok (bits : Z) (l : list Z) :
  Forall (fun v => (0 <= v < 2 ^ bits)%Z) l -> array_unsigned bits l = Ok l.
Proof.
  intros Hl. unfold array_unsigned. apply mapM_Ok.
  induction Hl as [|v l Hv _ IH]; constructor; [|done].
  destruct (Z.leb_spec 0 v), (Z.ltb_spec v (2 ^ bits)); simpl; (done || lia).
Qed.

Lemma array_unsigned_range (bits : Z) (l l' : list Z) :
  array_unsigned bits l = Ok l' ->
  l' = l /\ Forall (fun v => (0 <= v < 2 ^ bits)%Z) l.
Proof.
  unfold array_unsigned. intros H. apply mapM_Ok in H.
  induction H as [|v v' l l' Hv _ [-> IH]]; [done|].
  destruct (Z.leb_spec 0 v), (Z.ltb_spec v (2 ^ bits)); simpl in Hv; try done.
  injection Hv as <-. split; [done|]. constructor; [lia|done].
Qed.

(** The scaling of a list of counts by its largest element, when the
    table covers that element. *)
Lemma scale_counts (N : nat) (output : list Z) (m : Z) :
  scale_table_ok N = true ->
  (1 <= m <= Z.of_nat N)%Z -> Forall (fun o => (0 <= o <= m)%Z) output ->
  exists (fm : float) (bytes : list Z),
    float_of_int m = Ok fm /\ mapM (scale fm) output = Ok bytes /\
    Forall2 (fun o b => (0 <= b <= 255)%Z /\ (o = m -> b = 255%Z) /\
                        (o = 0%Z -> b = 0%Z)) output bytes.
Proof.
  intros Hok Hm Hall.
  destruct (scale_table_spec N m m Hok) as (_ & fm & _ & Hfm & _); [lia..|].
  exists fm.
  assert (forall o, (0 <= o <= m)%Z -> exists b, scale fm o = Ok b /\
            (0 <= b <= 255)%Z /\ (o = m -> b = 255%Z) /\ (o = 0%Z -> b = 0%Z))
    as Hscale.
  { intros o Ho.
    destruct (scale_table_spec N o m Hok Ho Hm)
      as (fo & fm' & Hfo & Hfm' & Hnz & Hrange & Hmax & Hzero).
    rewrite Hfm in Hfm'. injection Hfm' as Heq. subst fm'.
    unfold in_byte_range in Hrange. apply andb_prop in Hrange as [H0 H256].
    destruct (int_of_float_byte _ H0 H256) as (b & Hb & Hbyte).
    exists b. unfold scale, truediv. rewrite Hfo. simpl. rewrite Hnz. simpl.
    split; [done|]. split; [done|]. split.
    - intros ->. rewrite Hfm in Hfo. injection Hfo as Heq. subst fo. congruence.
    - intros ->. change (float_of_int 0%Z) with (Ok 0%float) in Hfo.
      injection Hfo as Heq. subst fo. congruence. }
  induction Hall as [|o output Ho _ (bytes & _ & Hbytes & Hrel)].
  - exists []. split_and!; [done..|constructor].
  - destruct (Hscale o Ho) as (b & Hb & Hbyte).
    exists (b :: bytes). split_and!; [done| |by constructor].
    rewrite mapM_cons, Hb. simpl. by rewrite Hbytes.
Qed.

(** Both renderings after the call of [calc_pure_python] has returned
    [output], for a cap the table covers. *)
Lemma renderings_Ok (fuel : nat) (g : Globals)
    (desired_width max_iterations : Z) (output : list Z) :
  (max_iterations <= 1000)%Z ->
  calc_pure_python_output fuel g desired_width max_iterations = Ok output ->
  exists (m : Z) (bytes : list Z),
    py_max output = Ok m /\ (1 <= m)%Z /\
    Forall2 (fun o b => (0 <= b <= 255)%Z /\ (o = m -> b = 255%Z) /\
                        (o = 0%Z -> b = 0%Z)) output bytes /\
    pure_grayscale fuel g desired_width max_iterations = Ok bytes /\
    false_grayscale fuel g desired_width max_iterations
      = Ok ((fun o => ((o + 256 * o + 256 ^ 2 * o) * 16)%Z) <$> bytes).
Proof.
  intros Hcap Hcalc.
  destruct (calc_pure_python_output_Ok _ _ _ _ _ Hcalc) as [Hall Hsum].
  destruct (py_max_positive output) as (m & Hm & Hpos).
  { eapply Forall_impl; [exact Hall|]. simpl. lia. }
  { lia. }
  destruct (py_max_Ok _ _ Hm) as [Hin Hmax].
  assert (m <= 1000)%Z as Hm1000.
  { rewrite Forall_forall in Hall. specialize (Hall m Hin). simpl in Hall. lia. }
  destruct (scale_counts 1000 output m scale_table_1000) as (fm & bytes & Hfm & Hbytes & Hrel).
  { lia. }
  { apply Forall_forall. intros o Ho. rewrite Forall_forall in Hall, Hmax.
    specialize (Hall o Ho). specialize (Hmax o Ho). simpl in *. lia. }
  assert (Forall (fun b => (0 <= b <= 255)%Z) bytes) as Hrange.
  { clear -Hrel. induction Hrel as [|o b ? ? [Hb _] _ IH]; by constructor. }
  exists m, bytes. split_and!; [done..| |].
  - unfold pure_grayscale. rewrite Hcalc. simpl. rewrite Hm. simpl.
    rewrite Hfm. simpl. rewrite Hbytes. simpl.
    apply array_unsigned_Ok. eapply Forall_impl; [exact Hrange|].
    simpl. intros b Hb. change (2 ^ 8)%Z with 256%Z. lia.
  - unfold false_grayscale. rewrite Hcalc. simpl. rewrite Hm. simpl.
    rewrite Hfm. simpl. rewrite Hbytes. simpl.
    apply array_unsigned_Ok. apply Forall_fmap.
    eapply Forall_impl; [exact Hrange|].
    simpl. intros b Hb. change (2 ^ 32)%Z with 4294967296%Z. lia.
Qed.

Lemma renderings_not_Ok (fuel : nat) (g : Globals)
    (desired_width max_iterations : Z) :
  (forall output,
     calc_pure_python_output fuel g desired_width max_iterations <> Ok output) ->
  pure_grayscale fuel g desired_width max_iterations
    = calc_pure_python_output fuel g desired_width max_iterations /\
  false_grayscale fuel g desired_width max_iterations
    = calc_pure_python_output fuel g desired_width max_iterations.
Proof.
  unfold pure_grayscale, false_grayscale.
  destruct (calc_pure_python_output _ _ _ _) as [output| |]; [|done..].
  intros H. by destruct (H output).
Qed.

(** The reference run returns its counts. *)
Lemma reference_output :
  exists output : list Z,
    calc_pure_python_output 2000 module_globals 1000 300 = Ok output.
Proof.
  pose proof reference_checksum_value as H.
  rewrite <- program_checksum_eq in H by (vm_compute; lia).
  apply program_checksum_Ok in H as (x & y & zs & cs & output & Hg & Hk & Hs).
  exists output. unfold calc_pure_python_output.
  rewrite Hg. simpl. rewrite Hk. simpl. by rewrite Hs.
Qed.

(** X9.  For a cap of at most 1000, [pure_grayscale] raises exactly when
    its call of [calc_pure_python] does, and the same exception.  When
    that call returns (so the check of the sum has passed), the largest
    count is at least 1, no division by zero, conversion or array range
    error occurs, and the array holds one byte per count, each from 0 to
    255, with 255 at every largest count and 0 at every count 0. *)
Theorem pure_grayscale_bytes (fuel : nat) (g : Globals)
    (desired_width max_iterations : Z) :
  (max_iterations <= 1000)%Z ->
  match calc_pure_python fuel g desired_width max_iterations true with
  | Ok (Some output) =>
      exists (m : Z) (bytes : list Z),
        py_max output = Ok m /\ (1 <= m)%Z /\
        pure_grayscale fuel g desired_width max_iterations = Ok bytes /\
        Forall2 (fun o b => (0 <= b <= 255)%Z /\ (o = m -> b = 255%Z) /\
                            (o = 0%Z -> b = 0%Z)) output bytes
  | Ok None => False
  | Raise e => pure_grayscale fuel g desired_width max_iterations = Raise e
  | OutOfFuel => pure_grayscale fuel g desired_width max_iterations = OutOfFuel
  end.
Proof.
  intros Hcap. rewrite calc_pure_python_output_eq.
  destruct (calc_pure_python_output _ _ _ _) as [output|e|] eqn:Hcalc; simpl.
  - destruct (renderings_Ok _ _ _ _ _ Hcap Hcalc)
      as (m & bytes & Hm & Hpos & Hrel & Hpure & _).
    by exists m, bytes.
  - destruct (renderings_not_Ok fuel g desired_width max_iterations) as [Hp _].
    { by rewrite Hcalc. }
    by rewrite Hp.
  - destruct (renderings_not_Ok fuel g desired_width max_iterations) as [Hp _].
    { by rewrite Hcalc. }
    by rewrite Hp.
Qed.

Lemma pure_grayscale_bytes_witness :
  exists bytes : list Z,
    pure_grayscale 2000 module_globals 1000 300 = Ok bytes /\
    Forall (fun b => (0 <= b <= 255)%Z) bytes.
Proof.
  destruct reference_output as [output Hout].
  pose proof (pure_grayscale_bytes 2000 module_globals 1000 300
                ltac:(lia)) as T.
  rewrite calc_pure_python_output_eq, Hout in T. simpl in T.
  destruct T as (m & bytes & _ & _ & Hpure & Hrel).
  exists bytes. split; [exact Hpure|].
  clear -Hrel. induction Hrel as [|o b ? ? [Hb _] _ IH]; by constructor.
Defined.

(** X10.  For a cap of at most 1000, [false_grayscale] raises exactly when
    its call of [calc_pure_python] does.  When that call returns, it
    builds the array of the bytes [b] of [pure_grayscale], each as the
    word [1052688 * b], the byte in the three colour channels shifted left
    by four bits; every word is at most 268435440 and fits the unsigned
    32-bit array. *)
Theorem false_grayscale_words (fuel : nat) (g : Globals)
    (desired_width max_iterations : Z) :
  (max_iterations <= 1000)%Z ->
  match calc_pure_python fuel g desired_width max_iterations true with
  | Ok (Some output) =>
      exists bytes : list Z,
        pure_grayscale fuel g desired_width max_iterations = Ok bytes /\
        false_grayscale fuel g desired_width max_iterations
          = Ok ((fun b => (b * 1052688)%Z) <$> bytes) /\
        Forall (fun b => (0 <= b * 1052688 <= 268435440)%Z) bytes
  | Ok None => False
  | Raise e => false_grayscale fuel g desired_width max_iterations = Raise e
  | OutOfFuel => false_grayscale fuel g desired_width max_iterations = OutOfFuel
  end.
Proof.
  intros Hcap. rewrite calc_pure_python_output_eq.
  destruct (calc_pure_python_output _ _ _ _) as [output|e|] eqn:Hcalc; simpl.
  - destruct (renderings_Ok _ _ _ _ _ Hcap Hcalc)
      as (m & bytes & _ & _ & Hrel & Hpure & Hfalse).
    exists bytes. split_and!; [done| |].
    + rewrite Hfalse. f_equal. apply list_fmap_ext. intros _ b _. lia.
    + clear -Hrel. induction Hrel as [|o b ? ? [Hb _] _ IH]; constructor; [lia|done].
  - destruct (renderings_not_Ok fuel g desired_width max_iterations) as [_ Hf].
    { by rewrite Hcalc. }
    by rewrite Hf.
  - destruct (renderings_not_Ok fuel g desired_width max_iterations) as [_ Hf].
    { by rewrite Hcalc. }
    by rewrite Hf.
Qed.

Lemma false_grayscale_words_witness :
  exists bytes : list Z,
    false_grayscale 2000 module_globals 1000 300
      = Ok ((fun b => (b * 1052688)%Z) <$> bytes).
Proof.
  destruct reference_output as [output Hout].
  pose proof (false_grayscale_words 2000 module_globals 1000 300
                ltac:(lia)) as T.
  rewrite calc_pure_python_output_eq, Hout in T. simpl in T.
  destruct T as (bytes & _ & Hfalse & _).
  by exists bytes.
Defined.

Lemma build_grid_zero_width (fuel : nat) (g : Globals) :
  build_grid fuel g 0 = Raise ZeroDivisionError.
Proof. done. Qed.

(** X7.  [desired_width = 0] is not rejected but divides by zero: for all
    bounds and caps, [calc_pure_python] and the two rendering functions
    raise [ZeroDivisionError] where the x step is computed. *)
Theorem zero_width_raises (fuel : nat) (g : Globals) (max_iterations : Z)
    (return_output : bool) :
  calc_pure_python fuel g 0 max_iterations return_output
    = Raise ZeroDivisionError /\
  pure_grayscale fuel g 0 max_iterations = Raise ZeroDivisionError /\
  false_grayscale fuel g 0 max_iterations = Raise ZeroDivisionError.
Proof. done. Qed.

(* ===================================================================== *)
(** * The coordinate sequences *)
(* ===================================================================== *)

(** ** Rounding to binary64, from the specification of the primitive
    operations

    The sum of two floats is the rounding of their exact sum.  What is
    needed of it below is that rounding keeps the order against a
    representable number: a sum with a positive number is not below the
    first summand, and a sum with a negative number is not above it. *)

Section digits.
Open Scope Z_scope.

Lemma digits2_pos_lower (m : positive) : 2 ^ (Z.pos (digits2_pos m) - 1) <= Z.pos m.
Proof.
  induction m as [m IH|m IH|]; simpl; [| |done];
    rewrite Pos2Z.inj_succ;
    replace (Z.succ (Z.pos (digits2_pos m)) - 1) with (Z.succ (Z.pos (digits2_pos m) - 1)) by lia;
    rewrite Z.pow_succ_r by lia; lia.
Qed.

Lemma Zdigits2_bounds (X : Z) :
  0 < X -> 2 ^ (Zdigits2 X - 1) <= X < 2 ^ Zdigits2 X.
Proof.
  destruct X as [|p|p]; [lia| |lia]. intros _. simpl.
  split; [apply digits2_pos_lower|apply digits2_pos_bound].
Qed.

Lemma Zdigits2_pos (X : Z) : 0 < X -> 0 < Zdigits2 X.
Proof. destruct X; simpl; lia. Qed.

(** The number of digits from bounds by powers of two. *)
Lemma Zdigits2_unique (X d : Z) :
  2 ^ (d - 1) <= X < 2 ^ d -> 0 < d -> Zdigits2 X = d.
Proof.
  intros [Hlo Hhi] Hd.
  assert (0 < X) as HX.
  { eapply Z.lt_le_trans; [|exact Hlo]. apply Z.pow_pos_nonneg; lia. }
  destruct (Zdigits2_bounds X HX) as [Hlo' Hhi'].
  pose proof (Zdigits2_pos X HX) as Hpos.
  destruct (Z.lt_trichotomy (Zdigits2 X) d) as [Hlt|[Heq|Hgt]]; [|done|].
  - assert (2 ^ Zdigits2 X <= 2 ^ (d - 1)) by (apply Z.pow_le_mono_r; lia). lia.
  - assert (2 ^ d <= 2 ^ (Zdigits2 X - 1)) by (apply Z.pow_le_mono_r; lia). lia.
Qed.

Lemma Zdigits2_le (X Y : Z) : 0 < X -> X <= Y -> Zdigits2 X <= Zdigits2 Y.
Proof.
  intros HX HXY.
  destruct (Zdigits2_bounds X HX) as [Hlo _].
  destruct (Zdigits2_bounds Y ltac:(lia)) as [_ Hhi].
  destruct (Z.le_gt_cases (Zdigits2 X) (Zdigits2 Y)) as [|Hgt]; [done|].
  assert (2 ^ Zdigits2 Y <= 2 ^ (Zdigits2 X - 1)) by (apply Z.pow_le_mono_r; lia).
  lia.
Qed.

Lemma Zdigits2_shift (X k : Z) :
  0 < X -> 0 <= k -> Zdigits2 (X * 2 ^ k) = Zdigits2 X + k.
Proof.
  intros HX Hk. destruct (Zdigits2_bounds X HX) as [Hlo Hhi].
  pose proof (Zdigits2_pos X HX).
  assert (0 < 2 ^ k) by (apply Z.pow_pos_nonneg; lia).
  apply Zdigits2_unique; [|lia]. split.
  - replace (Zdigits2 X + k - 1) with ((Zdigits2 X - 1) + k) by lia.
    rewrite Z.pow_add_r by lia. nia.
  - rewrite Z.pow_add_r by lia. nia.
Qed.

(** ** Shifting to the right *)

Lemma iter_pos_nat {A : Type} (f : A -> A) (p : positive) (x : A) :
  SpecFloat.iter_pos f p x = Nat.iter (Pos.to_nat p) f x.
Proof.
  revert x. induction p as [p IH|p IH|]; intros x.
  - rewrite Pos2Nat.inj_xI. cbn [SpecFloat.iter_pos]. rewrite !IH.
    replace (S (2 * Pos.to_nat p))%nat with (Pos.to_nat p + (Pos.to_nat p + 1))%nat by lia.
    by rewrite !Nat.iter_add.
  - rewrite Pos2Nat.inj_xO. cbn [SpecFloat.iter_pos]. rewrite !IH.
    replace (2 * Pos.to_nat p)%nat with (Pos.to_nat p + Pos.to_nat p)%nat by lia.
    by rewrite Nat.iter_add.
  - done.
Qed.

Lemma shr_1_m (r : shr_record) : 0 <= shr_m r -> shr_m (shr_1 r) = shr_m r / 2.
Proof.
  destruct r as [m r s]. simpl. intros Hm.
  destruct m as [|[p|p|]|p]; cbn [shr_1 shr_m]; [done| | |done|lia].
  - apply Z.div_unique with 1; lia.
  - apply Z.div_unique with 0; lia.
Qed.

Lemma shr_iter_m (n : nat) (r : shr_record) :
  0 <= shr_m r -> shr_m (Nat.iter n shr_1 r) = shr_m r / 2 ^ Z.of_nat n.
Proof.
  intros Hm. induction n as [|n IH].
  - simpl. by rewrite Z.div_1_r.
  - rewrite Nat2Z.inj_succ, Z.pow_succ_r by lia. simpl.
    rewrite shr_1_m; rewrite IH; [|apply Z.div_pos; [lia|apply Z.pow_pos_nonneg; lia]].
    rewrite Z.div_div; [|apply Z.pow_nonzero; lia|lia].
    f_equal. lia.
Qed.

Lemma shr_1_exact (m : Z) :
  0 <= m -> m mod 2 = 0 ->
  shr_1 {| shr_m := m; shr_r := false; shr_s := false |}
  = {| shr_m := m / 2; shr_r := false; shr_s := false |}.
Proof.
  intros Hm Hmod. destruct m as [|[p|p|]|p]; cbn [shr_1 orb]; try done; try lia.
  - exfalso. assert (1 = Z.pos p~1 mod 2) as Hu; [|lia].
    apply (Z.mod_unique _ _ (Z.pos p)); lia.
  - f_equal. apply Z.div_unique with 0; lia.
Qed.

Lemma shr_iter_exact (n : nat) (m : Z) :
  0 <= m -> m mod 2 ^ Z.of_nat n = 0 ->
  Nat.iter n shr_1 {| shr_m := m; shr_r := false; shr_s := false |}
  = {| shr_m := m / 2 ^ Z.of_nat n; shr_r := false; shr_s := false |}.
Proof.
  revert m. induction n as [|n IH]; intros m Hm Hmod.
  - simpl. by rewrite Z.div_1_r.
  - rewrite Nat2Z.inj_succ, Z.pow_succ_r in * by lia.
    assert (0 < 2 ^ Z.of_nat n) as Hpow by (apply Z.pow_pos_nonneg; lia).
    simpl. rewrite IH; [| done |].
    + apply Z.mod_divide in Hmod as [c Hc]; [|lia].
      rewrite shr_1_exact.
      * f_equal. rewrite Z.div_div by lia. f_equal. lia.
      * apply Z.div_pos; lia.
      * subst m. replace (c * (2 * 2 ^ Z.of_nat n)) with ((c * 2) * 2 ^ Z.of_nat n) by lia.
        rewrite Z.div_mul by lia. by rewrite Z.mod_mul by lia.
    + apply Z.mod_divide in Hmod as [c Hc]; [|lia].
      subst m. replace (c * (2 * 2 ^ Z.of_nat n)) with ((c * 2) * 2 ^ Z.of_nat n) by lia.
      by rewrite Z.mod_mul by lia.
Qed.

Lemma round_nearest_even_bounds (q : Z) (l : location) :
  q <= round_nearest_even q l <= q + 1.
Proof.
  destruct l as [|[]]; simpl; try lia. destruct (Z.even q); lia.
Qed.


Lemma fexp_eq (e : Z) : fexp prec emax e = Z.max (e - 53) (-1074).
Proof. done. Qed.

Lemma shr_nonneg (r : shr_record) (e n : Z) :
  0 <= n -> shr r e n = (Nat.iter (Z.to_nat n) shr_1 r, e + n).
Proof.
  intros Hn. destruct n as [|p|p]; [|simpl|lia].
  - simpl. by rewrite Z.add_0_r.
  - by rewrite iter_pos_nat.
Qed.

Lemma shr_nonpos (r : shr_record) (e n : Z) : n <= 0 -> shr r e n = (r, e).
Proof. intros Hn. destruct n as [|p|p]; [done|lia|done]. Qed.

(** What rounding does to a positive integer [X] at the exponent [e1],
    when the exponent [e'] of its binade is not below [e1]: the mantissa is
    the quotient by the power of two in between, or the next integer, and
    a mantissa that has reached [2^53] is halved once. *)
Lemma binary_round_aux_form (sx : bool) (X e1 : Z) :
  0 < X -> e1 <= fexp prec emax (Zdigits2 X + e1) ->
  exists m' : Z,
    X / 2 ^ (fexp prec emax (Zdigits2 X + e1) - e1) <= m'
      <= X / 2 ^ (fexp prec emax (Zdigits2 X + e1) - e1) + 1 /\
    (X mod 2 ^ (fexp prec emax (Zdigits2 X + e1) - e1) = 0 ->
     m' = X / 2 ^ (fexp prec emax (Zdigits2 X + e1) - e1)) /\
    m' <= 2 ^ 53 /\
    binary_round_aux prec emax sx X e1 loc_Exact =
      let e' := fexp prec emax (Zdigits2 X + e1) in
      if decide (m' = 0) then S754_zero sx
      else if decide (m' < 2 ^ 53)
      then (if e' <=? 971 then S754_finite sx (Z.to_pos m') e'
            else S754_infinity sx)
      else (if e' + 1 <=? 971 then S754_finite sx 4503599627370496 (e' + 1)
            else S754_infinity sx).
Proof.
  intros HX He. set (e' := fexp prec emax (Zdigits2 X + e1)) in *.
  set (n := e' - e1). assert (0 <= n) as Hn by lia.
  assert (0 < 2 ^ n) as Hpow by (apply Z.pow_pos_nonneg; lia).
  set (r1 := Nat.iter (Z.to_nat n) shr_1 {| shr_m := X; shr_r := false; shr_s := false |}).
  assert (shr_m r1 = X / 2 ^ n) as Hq.
  { unfold r1. rewrite shr_iter_m by (simpl; lia). simpl. by rewrite Z2Nat.id by lia. }
  set (m' := round_nearest_even (shr_m r1) (loc_of_shr_record r1)).
  pose proof (round_nearest_even_bounds (shr_m r1) (loc_of_shr_record r1)) as Hb.
  fold m' in Hb. rewrite Hq in Hb.
  assert (0 <= X / 2 ^ n) as Hq0 by (apply Z.div_pos; lia).
  assert (X / 2 ^ n < 2 ^ 53) as Hq53.
  { apply Z.div_lt_upper_bound; [lia|].
    destruct (Zdigits2_bounds X HX) as [_ Hhi].
    eapply Z.lt_le_trans; [exact Hhi|].
    rewrite <- Z.pow_add_r by lia. apply Z.pow_le_mono_r; [lia|].
    unfold n, e'. rewrite fexp_eq. lia. }
  assert (-1074 <= e') as Hemin by (unfold e'; rewrite fexp_eq; lia).
  exists m'. split; [done|]. split; [|split; [lia|]].
  { intros Hmod. unfold m', r1.
    rewrite shr_iter_exact by (rewrite ?Z2Nat.id by lia; (lia || done)).
    simpl. by rewrite Z2Nat.id by lia. }
  unfold binary_round_aux, shr_fexp. cbn [shr_record_of_loc].
  fold e'. fold n. rewrite (shr_nonneg _ _ n) by done. fold r1. fold m'.
  replace (e1 + n) with e' by (unfold n; lia). cbv zeta.
  destruct (decide (m' = 0)) as [Hm0|Hm0].
  - rewrite Hm0. simpl Zdigits2. rewrite shr_nonpos by (rewrite fexp_eq; lia). done.
  - destruct (decide (m' < 2 ^ 53)) as [Hlt|Hge].
    + assert (0 < m') as Hpos by lia.
      assert (Zdigits2 m' <= 53) as Hd.
      { destruct (Zdigits2_bounds m' Hpos) as [Hlo _].
        destruct (Z.le_gt_cases (Zdigits2 m') 53) as [|Hgt]; [done|].
        assert (2 ^ 53 <= 2 ^ (Zdigits2 m' - 1)) by (apply Z.pow_le_mono_r; lia).
        lia. }
      rewrite shr_nonpos by (rewrite fexp_eq; lia). simpl.
      destruct m' as [|p|p]; [done| |lia]. done.
    + assert (m' = 2 ^ 53) as -> by lia.
      change (Zdigits2 (2 ^ 53)) with 54.
      replace (fexp prec emax (54 + e') - e') with 1 by (rewrite fexp_eq; lia).
      done.
Qed.

End digits.

Section rounding.
Open Scope Z_scope.

(** A valid mantissa and exponent. *)
Lemma bounded_spec (m : positive) (e : Z) :
  bounded prec emax m e = true ->
  e = Z.max (Z.pos (digits2_pos m) + e - 53) (-1074) /\ e <= 971 /\
  Z.pos m < 2 ^ 53.
Proof.
  unfold bounded, canonical_mantissa. intros H.
  apply andb_prop in H as [Hc He]. apply Z.eqb_eq in Hc. apply Z.leb_le in He.
  rewrite fexp_eq in Hc. change (emax - prec) with 971 in He.
  split; [lia|]. split; [done|].
  pose proof (digits2_pos_bound m) as Hd.
  eapply Z.lt_le_trans; [exact Hd|]. apply Z.pow_le_mono_r; lia.
Qed.

Lemma shl_align_ge (M : positive) (ez e' : Z) :
  ez <= e' -> shl_align M ez e' = (M, ez).
Proof. unfold shl_align. intros H. destruct (e' - ez) eqn:E; (done || lia). Qed.

Lemma shl_align_lt (M : positive) (ez e' : Z) :
  e' < ez ->
  exists mz, shl_align M ez e' = (mz, e') /\ Z.pos mz = Z.pos M * 2 ^ (ez - e').
Proof.
  unfold shl_align. intros H. destruct (e' - ez) as [|d|d] eqn:E; [lia..|].
  exists (Pos.iter xO M d). split; [done|].
  change (Pos.iter xO M d) with (shift_pos d M).
  rewrite shift_pos_correct, Z.pow_pos_fold.
  replace (ez - e') with (Z.pos d) by lia. lia.
Qed.

Lemma binary_round_form (sx : bool) (M : positive) (ez : Z) :
  exists m' : Z,
    let e' := fexp prec emax (Z.pos (digits2_pos M) + ez) in
    (ez <= e' ->
     Z.pos M / 2 ^ (e' - ez) <= m' <= Z.pos M / 2 ^ (e' - ez) + 1 /\
     (Z.pos M mod 2 ^ (e' - ez) = 0 -> m' = Z.pos M / 2 ^ (e' - ez))) /\
    (e' < ez -> m' = Z.pos M * 2 ^ (ez - e')) /\
    0 <= m' <= 2 ^ 53 /\
    binary_round prec emax sx M ez =
      if decide (m' = 0) then S754_zero sx
      else if decide (m' < 2 ^ 53)
      then (if e' <=? 971 then S754_finite sx (Z.to_pos m') e'
            else S754_infinity sx)
      else (if e' + 1 <=? 971 then S754_finite sx 4503599627370496 (e' + 1)
            else S754_infinity sx).
Proof.
  cbv zeta. set (e' := fexp prec emax (Z.pos (digits2_pos M) + ez)).
  unfold binary_round. fold e'.
  destruct (Z.le_gt_cases ez e') as [Hge|Hlt].
  - rewrite shl_align_ge by done.
    destruct (binary_round_aux_form sx (Z.pos M) ez) as (m' & Hb & Hex & H53 & Hr);
      [lia|simpl Zdigits2; fold e'; lia|].
    simpl Zdigits2 in *. fold e' in Hb, Hex, Hr.
    assert (0 <= Z.pos M / 2 ^ (e' - ez))
      by (apply Z.div_pos; [lia|apply Z.pow_pos_nonneg; lia]).
    exists m'. split; [done|]. split; [lia|]. split; [lia|done].
  - destruct (shl_align_lt M ez e' Hlt) as (mz & -> & Hshift).
    assert (Zdigits2 (Z.pos mz) + e' = Z.pos (digits2_pos M) + ez) as Hdig.
    { rewrite Hshift, Zdigits2_shift by lia. simpl Zdigits2. lia. }
    destruct (binary_round_aux_form sx (Z.pos mz) e')
      as (m' & Hb & Hex & H53 & Hr); [lia|rewrite Hdig; fold e'; lia|].
    rewrite Hdig in Hb, Hex, Hr. fold e' in Hb, Hex, Hr.
    rewrite Z.sub_diag in Hb, Hex. change (2 ^ 0) with 1 in Hb, Hex.
    rewrite Z.div_1_r in Hb, Hex.
    assert (m' = Z.pos mz) as Hm'.
    { apply Hex. apply Z.mod_1_r. }
    exists m'. split; [lia|]. split; [|split; [lia|done]].
    intros _. by rewrite Hm', Hshift.
Qed.

(** The order of two positive finite numbers, on their parts. *)
Lemma SFltb_finite_pos (m1 m2 : positive) (e1 e2 : Z) :
  SFltb (S754_finite false m1 e1) (S754_finite false m2 e2) = true
  <-> e1 < e2 \/ (e1 = e2 /\ Z.pos m1 < Z.pos m2).
Proof.
  unfold SFltb, SFcompare.
  change (PosDef.Pos.compare_cont Eq m1 m2) with (Pos.compare m1 m2).
  destruct (Z.compare_spec e1 e2) as [He|He|He].
  - destruct (Pos.compare_spec m1 m2) as [Hm|Hm|Hm].
    + subst. split; [done|]. intros [?|[_ ?]]; lia.
    + apply Pos2Z.pos_lt_pos in Hm. split; [|done]. intros _. right. lia.
    + apply Pos2Z.pos_lt_pos in Hm. split; [done|]. intros [?|[_ ?]]; lia.
  - split; [|done]. intros _. by left.
  - split; [done|]. intros [?|[? _]]; lia.
Qed.

Section against.
Variables (M ma : positive) (ez ea : Z).
Hypothesis Hvalid : bounded prec emax ma ea = true.
Hypothesis Hez : ez <= ea.

(** Rounding a number that is not below a representable one gives a
    number that is not below it. *)
Lemma round_ge :
  Z.pos ma * 2 ^ (ea - ez) <= Z.pos M ->
  SFltb (binary_round prec emax false M ez) (S754_finite false ma ea) = false.
Proof using Hvalid Hez.
  intros Hle. destruct (bounded_spec _ _ Hvalid) as (Hea & Hea971 & Hma53).
  assert (0 < 2 ^ (ea - ez)) as Hpow by (apply Z.pow_pos_nonneg; lia).
  assert (Z.pos (digits2_pos ma) + ea <= Z.pos (digits2_pos M) + ez) as Hmag.
  { pose proof (Zdigits2_le (Z.pos ma * 2 ^ (ea - ez)) (Z.pos M) ltac:(lia) Hle) as H.
    rewrite Zdigits2_shift in H by lia. simpl Zdigits2 in H. lia. }
  destruct (binary_round_form false M ez) as (m' & HB & _ & H053 & ->).
  cbv zeta in HB |- *. rewrite fexp_eq in *.
  set (e' := Z.max (Z.pos (digits2_pos M) + ez - 53) (-1074)) in *.
  assert (ea <= e') as He' by lia.
  destruct HB as [HQ _]; [lia|].
  assert (0 < 2 ^ (e' - ez)) as Hpow' by (apply Z.pow_pos_nonneg; lia).
  assert (1 <= Z.pos M / 2 ^ (e' - ez)) as HQ1.
  { apply Z.div_le_lower_bound; [lia|]. rewrite Z.mul_1_r.
    destruct (decide (e' = ea)) as [Heq|Hne].
    { rewrite Heq. pose proof (Pos2Z.is_pos ma). nia. }
    pose proof (digits2_pos_lower M) as Hlo.
    eapply Z.le_trans; [|exact Hlo]. apply Z.pow_le_mono_r; lia. }
  destruct (decide (m' = 0)) as [?|_]; [lia|].
  destruct (decide (m' < 2 ^ 53)) as [Hlt|Hge].
  - destruct (e' <=? 971); [|done].
    apply not_true_iff_false. rewrite SFltb_finite_pos.
    rewrite Z2Pos.id by lia. intros [?|[-> Hm]]; [lia|].
    assert (Z.pos ma <= Z.pos M / 2 ^ (ea - ez)); [|lia].
    apply Z.div_le_lower_bound; lia.
  - destruct (e' + 1 <=? 971); [|done].
    apply not_true_iff_false. rewrite SFltb_finite_pos. lia.
Qed.

(** Rounding a number that is not above a representable one gives a
    number that is not above it. *)
Lemma round_le :
  Z.pos M <= Z.pos ma * 2 ^ (ea - ez) ->
  SFltb (S754_finite false ma ea) (binary_round prec emax false M ez) = false.
Proof using Hvalid Hez.
  intros Hle. destruct (bounded_spec _ _ Hvalid) as (Hea & Hea971 & Hma53).
  assert (0 < 2 ^ (ea - ez)) as Hpow by (apply Z.pow_pos_nonneg; lia).
  assert (Z.pos (digits2_pos M) + ez <= Z.pos (digits2_pos ma) + ea) as Hmag.
  { pose proof (Zdigits2_le (Z.pos M) (Z.pos ma * 2 ^ (ea - ez)) ltac:(lia) Hle) as H.
    rewrite Zdigits2_shift in H by lia. simpl Zdigits2 in H. lia. }
  destruct (binary_round_form false M ez) as (m' & HB & HA & H053 & ->).
  cbv zeta in HB, HA |- *. rewrite fexp_eq in *.
  set (e' := Z.max (Z.pos (digits2_pos M) + ez - 53) (-1074)) in *.
  assert (e' <= ea) as He' by lia.
  destruct (decide (m' = 0)) as [?|Hm0]; [done|].
  destruct (decide (e' = ea)) as [Heq|Hne].
  - (* the same binade *)
    destruct HB as [HQ Hex]; [lia|]. rewrite Heq in *.
    assert (m' <= Z.pos ma) as Hm'.
    { destruct (decide (Z.pos M = Z.pos ma * 2 ^ (ea - ez))) as [HM|HM].
      - assert (m' = Z.pos M / 2 ^ (ea - ez)) as ->.
        { apply Hex. rewrite HM. by apply Z.mod_mul, Z.pow_nonzero; lia. }
        rewrite HM, Z.div_mul by lia. lia.
      - assert (Z.pos M / 2 ^ (ea - ez) < Z.pos ma); [|lia].
        apply Z.div_lt_upper_bound; lia. }
    destruct (decide (m' < 2 ^ 53)) as [_|?]; [|lia].
    replace (ea <=? 971) with true by (symmetry; apply Z.leb_le; lia).
    apply not_true_iff_false. rewrite SFltb_finite_pos.
    rewrite Z2Pos.id by lia. lia.
  - (* a lower binade *)
    destruct (decide (m' < 2 ^ 53)) as [_|Hge].
    + replace (e' <=? 971) with true by (symmetry; apply Z.leb_le; lia).
      apply not_true_iff_false. rewrite SFltb_finite_pos. lia.
    + replace (e' + 1 <=? 971) with true by (symmetry; apply Z.leb_le; lia).
      apply not_true_iff_false. rewrite SFltb_finite_pos.
      intros [?|[Heq Hm]]; [lia|].
      assert (Z.pos (digits2_pos ma) = 53) as Hd by lia.
      pose proof (digits2_pos_lower ma) as Hlo. rewrite Hd in Hlo.
      change (2 ^ (53 - 1)) with 4503599627370496 in Hlo. lia.
Qed.

End against.

End rounding.

(** ** The order of [SFcompare] *)

Section order.
Open Scope Z_scope.

(** The order of [SFcompare], which needs no validity: it is a strict
    order on the numbers, with the two zeros in one class. *)
Lemma SFcompare_Gt_Lt (x y : spec_float) :
  SFcompare x y = Some Gt -> SFcompare y x = Some Lt.
Proof.
  destruct x as [sx|sx| |sx mx ex], y as [sy|sy| |sy my ey]; simpl;
    try done; try (by destruct sx); try (by destruct sy);
    try (by destruct sx, sy).
  change (PosDef.Pos.compare_cont Eq mx my) with (Pos.compare mx my).
  change (PosDef.Pos.compare_cont Eq my mx) with (Pos.compare my mx).
  rewrite (Z.compare_antisym ex ey), (Pos.compare_antisym mx my).
  destruct sx, sy; try done;
    destruct (ex ?= ey); simpl; try done; by destruct (mx ?= my)%positive.
Qed.

Lemma SFcompare_Eq (x y : spec_float) :
  SFcompare x y = Some Eq ->
  x = y \/ ((exists s, x = S754_zero s) /\ (exists s, y = S754_zero s)).
Proof.
  destruct x as [sx|sx| |sx mx ex], y as [sy|sy| |sy my ey]; simpl; intros H;
    try discriminate H; try (by destruct sx); try (by destruct sy).
  - right. split; eexists; done.
  - destruct sx, sy; try discriminate H; by left.
  - change (PosDef.Pos.compare_cont Eq mx my) with (Pos.compare mx my) in H.
    destruct sx, sy; try discriminate H;
      destruct (Z.compare_spec ex ey); try discriminate H;
      destruct (Pos.compare_spec mx my); try discriminate H; subst; by left.
Qed.

Lemma SFcompare_zero_l (s s' : bool) (y : spec_float) :
  SFcompare (S754_zero s) y = SFcompare (S754_zero s') y.
Proof. by destruct y. Qed.

Lemma SFcompare_Lt_trans (x y z : spec_float) :
  SFcompare x y = Some Lt -> SFcompare y z = Some Lt -> SFcompare x z = Some Lt.
Proof.
  destruct x as [sx|sx| |sx mx ex], y as [sy|sy| |sy my ey],
    z as [sz|sz| |sz mz ez]; simpl;
    try done; try (by destruct sx); try (by destruct sy); try (by destruct sz);
    try (by destruct sx, sy); try (by destruct sy, sz); try (by destruct sx, sz);
    try (by destruct sx, sy, sz).
  change (PosDef.Pos.compare_cont Eq mx my) with (Pos.compare mx my).
  change (PosDef.Pos.compare_cont Eq my mz) with (Pos.compare my mz).
  change (PosDef.Pos.compare_cont Eq mx mz) with (Pos.compare mx mz).
  destruct sx, sy, sz; try done;
    destruct (Z.compare_spec ex ey), (Z.compare_spec ey ez),
      (Z.compare_spec ex ez); simpl; try done; try lia;
    destruct (Pos.compare_spec mx my), (Pos.compare_spec my mz),
      (Pos.compare_spec mx mz); simpl; try done; lia.
Qed.

(** [r <= u < x] gives [r < x]. *)
Lemma SFcompare_le_lt (r u x : spec_float) :
  SFcompare r u = Some Lt \/ SFcompare r u = Some Eq ->
  SFcompare u x = Some Lt -> SFcompare r x = Some Lt.
Proof.
  intros [H|H] Hux; [by eapply SFcompare_Lt_trans|].
  apply SFcompare_Eq in H as [->|[[s ->] [s' ->]]]; [done|].
  by rewrite (SFcompare_zero_l s s').
Qed.

End order.

(** ** Sums against a summand *)

Section addition.
Open Scope Z_scope.

Lemma shl_align_fst (m : positive) (e ez : Z) :
  ez <= e -> Z.pos (shl_align m e ez).1 = Z.pos m * 2 ^ (e - ez).
Proof.
  intros H. destruct (decide (ez = e)) as [->|Hne].
  - rewrite shl_align_ge by lia. rewrite Z.sub_diag. simpl. lia.
  - destruct (shl_align_lt m e ez) as (mz & -> & Hmz); [lia|exact Hmz].
Qed.

(** Rounding keeps the sign, and gives a number. *)
Lemma binary_round_sign (sx : bool) (M : positive) (ez : Z) :
  binary_round prec emax sx M ez = S754_zero sx \/
  binary_round prec emax sx M ez = S754_infinity sx \/
  exists m e, binary_round prec emax sx M ez = S754_finite sx m e.
Proof.
  destruct (binary_round_form sx M ez) as (m' & _ & _ & _ & ->).
  cbv zeta. repeat case_match; eauto.
Qed.

Lemma binary_round_opp (M : positive) (ez : Z) :
  binary_round prec emax true M ez = SFopp (binary_round prec emax false M ez).
Proof.
  unfold binary_round. destruct (shl_align _ _ _) as [mz e'].
  apply (binary_round_aux_opp false).
Qed.

(** Adding a positive number to a finite one never gives less. *)
Lemma add_positive_not_below (sv : bool) (mv ms : positive) (ev es : Z) :
  bounded prec emax mv ev = true ->
  SFltb (SF64add (S754_finite sv mv ev) (S754_finite false ms es))
        (S754_finite sv mv ev) = false.
Proof.
  intros Hv. unfold SF64add, SFadd.
  set (ez := IntDef.Z.min ev es).
  assert (ez = Z.min ev es) as Hez by done.
  pose proof (shl_align_fst mv ev ez ltac:(lia)) as HMv.
  pose proof (shl_align_fst ms es ez ltac:(lia)) as HMs.
  assert (0 < 2 ^ (ev - ez)) as Hpv by (apply Z.pow_pos_nonneg; lia).
  assert (0 < 2 ^ (es - ez)) as Hps by (apply Z.pow_pos_nonneg; lia).
  destruct sv; unfold cond_Zopp.
  - destruct (- Z.pos (shl_align mv ev ez).1 + Z.pos (shl_align ms es ez).1)
      as [|p|p] eqn:Hsum; unfold binary_normalize.
    + done.
    + by destruct (binary_round_sign false p ez) as [->|[->|(m & e & ->)]].
    + rewrite binary_round_opp.
      rewrite <- (ltb_mirror (S754_finite false mv ev) (S754_finite true mv ev))
        by (by left).
      apply round_le; [done|lia|]. nia.
  - change (Z.pos (shl_align mv ev ez).1 + Z.pos (shl_align ms es ez).1)
      with (Z.pos ((shl_align mv ev ez).1 + (shl_align ms es ez).1)).
    unfold binary_normalize. apply round_ge; [done|lia|].
    rewrite Pos2Z.inj_add. lia.
Qed.

Lemma SFltb_zero_l (s s' : bool) (y : spec_float) :
  SFltb (S754_zero s) y = SFltb (S754_zero s') y.
Proof. by destruct y. Qed.

(** Adding a negative number to a finite one never gives more. *)
Lemma add_negative_not_above (sv : bool) (mv ms : positive) (ev es : Z) :
  bounded prec emax mv ev = true ->
  SFltb (S754_finite sv mv ev)
        (SF64add (S754_finite sv mv ev) (S754_finite true ms es)) = false.
Proof.
  intros Hv.
  rewrite (ltb_mirror (S754_finite sv mv ev) (S754_finite (negb sv) mv ev))
    by (by left).
  pose proof (add_mirror (S754_finite sv mv ev) (S754_finite (negb sv) mv ev)
                (S754_finite true ms es) (S754_finite false ms es)
                ltac:(by left) ltac:(by left)) as [<-|[[s H] [s' H']]].
  - by apply add_positive_not_below.
  - rewrite H. simpl SFopp. rewrite (SFltb_zero_l _ s'), <- H'.
    by apply add_positive_not_below.
Qed.

(** A sum of two finite numbers is a number. *)
Lemma add_finite_not_nan (sv ss : bool) (mv ms : positive) (ev es : Z) :
  SF64add (S754_finite sv mv ev) (S754_finite ss ms es) <> S754_nan.
Proof.
  unfold SF64add, SFadd, binary_normalize.
  destruct (_ + _) as [|p|p]; [done| |].
  - by destruct (binary_round_sign false p (IntDef.Z.min ev es))
      as [->|[->|(m & e & ->)]].
  - by destruct (binary_round_sign true p (IntDef.Z.min ev es))
      as [->|[->|(m & e & ->)]].
Qed.

End addition.

(** ** Sums that keep moving

    A coordinate loop that returns has moved its coordinate at every
    round: a step that does not move the coordinate, or moves it away
    from the bound, keeps the loop running for ever. *)

Lemma SFcompare_None (a b : spec_float) :
  SFcompare a b = None -> a = S754_nan \/ b = S754_nan.
Proof.
  destruct a as [sa|sa| |sa ma ea], b as [sb|sb| |sb mb eb]; simpl; intros H;
    try discriminate H; try (by left); try (by right);
    try (by destruct sa); try (by destruct sb); by destruct sa, sb.
Qed.

(** For numbers, "not below" is "above or equal". *)
Lemma not_ltb_le (a b : spec_float) :
  a <> S754_nan -> b <> S754_nan -> SFltb a b = false ->
  SFcompare b a = Some Lt \/ SFcompare b a = Some Eq.
Proof.
  intros Ha Hb. unfold SFltb.
  destruct (SFcompare a b) as [[]|] eqn:Hc; [|done| |]; intros _.
  - right. apply SFcompare_Eq in Hc as [->|[[s ->] [s' ->]]]; [|done].
    by apply SFcompare_refl.
  - left. by apply SFcompare_Gt_Lt.
  - by apply SFcompare_None in Hc as [?|?].
Qed.

Lemma SFcompare_inf_Lt (x : spec_float) :
  SFcompare (S754_infinity false) x <> Some Lt.
Proof. by destruct x as [|[]| |[] m e]. Qed.

(** With a step that is zero or negative, a coordinate below the bound
    stays below it. *)
Lemma step_down_stays (s u x : float) :
  step_down s = true -> (u <? x) = true -> (u + s <? x) = true.
Proof.
  unfold step_down. rewrite !FloatAxioms.ltb_spec, add_spec.
  pose proof (Prim2SF_valid u) as Hv. unfold SFltb.
  destruct (SFcompare (Prim2SF u) (Prim2SF x)) as [[]|] eqn:Hux; try done.
  intros Hs _.
  rewrite (SFcompare_le_lt _ (Prim2SF u) _); [done| |done].
  destruct (Prim2SF u) as [su|su| |su mu eu] eqn:Eu,
    (Prim2SF s) as [ss|ss| |ss ms es] eqn:Es; try done.
  - right. by destruct su, ss.
  - destruct ss; [|done]. left. by destruct su.
  - destruct ss; [|done]. left. by destruct su.
  - destruct su; [by right|]. by apply SFcompare_inf_Lt in Hux.
  - destruct su; [|by apply SFcompare_inf_Lt in Hux].
    destruct ss; [by right|done].
  - destruct su; [by right|]. by apply SFcompare_inf_Lt in Hux.
  - right. by apply (SFcompare_refl (S754_finite su mu eu)).
  - destruct ss; [|done]. left. by destruct su.
  - destruct ss; [|done].
    apply not_ltb_le; [done|by apply add_finite_not_nan|].
    by apply add_negative_not_above.
Qed.

(** With any other step, a coordinate below the bound whose successor is
    below the bound too has moved up, or has not moved at all. *)
Lemma step_up_moves (s v x : float) :
  step_down s = false -> (v <? x) = true -> (v + s <? x) = true ->
  (v <? v + s) = true \/ v + s = v.
Proof.
  unfold step_down. rewrite !FloatAxioms.ltb_spec.
  pose proof (Prim2SF_valid v) as Hv.
  pose proof (Prim2SF_inj (v + s) v) as Hinj. rewrite add_spec in *.
  assert (forall y, SFltb (S754_infinity false) y = false) as Hinf
    by (by intros [|[]| |[] m e]).
  destruct (Prim2SF v) as [sv|sv| |sv mv ev] eqn:Ev,
    (Prim2SF s) as [ss|ss| |ss ms es] eqn:Es; try done.
  - destruct ss; [done|]. intros _ _ _. left. by destruct sv.
  - destruct ss; [done|]. intros _ _ _. left. by destruct sv.
  - destruct ss; [done|]. intros _ H1 H2.
    destruct sv; [cbn in H2; discriminate H2|rewrite Hinf in H1; discriminate H1].
  - destruct ss; [done|]. intros _ H1 _.
    destruct sv; [right; by apply Hinj|rewrite Hinf in H1; discriminate H1].
  - destruct ss; [done|]. intros _ _ _. left. by destruct sv.
  - destruct ss; [done|]. intros _ _ _.
    pose proof (add_positive_not_below sv mv ms ev es Hv) as H.
    apply not_ltb_le in H; [|by apply add_finite_not_nan|done].
    destruct H as [H|H]; [left; unfold SFltb; by rewrite H|].
    right. apply Hinj.
    apply SFcompare_Eq in H as [Heq|[[? Hz] _]]; [by symmetry|discriminate Hz].
Qed.

Section ascending.
Variables (bound s : float).

Lemma running_below (n : nat) (v : float) :
  step_down s = true -> (v <? bound) = true -> (running s n v <? bound) = true.
Proof.
  intros Hs. induction n as [|n IH]; intros Hv; [done|].
  unfold running. simpl. by apply step_down_stays, IH.
Qed.

Lemma running_fixed (n : nat) (v : float) : v + s = v -> running s n v = v.
Proof.
  intros Hv. induction n as [|n IH]; [done|].
  unfold running in *. simpl. by rewrite IH.
Qed.

Lemma strictly_ascending_cons (a b : float) (l : list float) :
  strictly_ascending (a :: b :: l) = (a <? b) && strictly_ascending (b :: l).
Proof. done. Qed.

(** The sums accumulated below the bound, up to the first that is not
    below it, are strictly ascending. *)
Lemma accumulate_ascending (n : nat) (v : float) :
  Forall (fun u => (u <? bound) = true) (accumulate n v s) ->
  (running s n v <? bound) = false ->
  strictly_ascending (accumulate n v s) = true.
Proof.
  revert v. induction n as [|n IH]; intros v Hall Hstop; [done|].
  destruct n as [|n]; [done|].
  change (accumulate (S (S n)) v s) with (v :: accumulate (S n) (v + s) s) in *.
  apply Forall_cons in Hall as [Hv Hall].
  change (accumulate (S n) (v + s) s)
    with ((v + s) :: accumulate n (v + s + s) s) in *.
  rewrite strictly_ascending_cons. apply andb_true_intro. split.
  - pose proof Hall as Hall'. apply Forall_cons in Hall' as [Hv' _].
    destruct (step_down s) eqn:Hs.
    + by rewrite running_below in Hstop.
    + destruct (step_up_moves s v bound Hs Hv Hv') as [H|H]; [done|].
      by rewrite running_fixed, Hv in Hstop.
  - apply IH; [done|]. by rewrite running_S_l.
Qed.

End ascending.

(** ** The y loop, as the mirror image of the x loop *)

Lemma sf_mirror_sym (a b : spec_float) : sf_mirror a b -> sf_mirror b a.
Proof.
  intros [->|[Ha Hb]]; [left|by right]. by destruct a as [[]|[]| |[] m e].
Qed.

Lemma ltb_mirror_both (a a' b b' : float) :
  mirror a a' -> mirror b b' -> (a <? b) = (b' <? a').
Proof.
  unfold mirror. intros Ha Hb. rewrite !FloatAxioms.ltb_spec.
  rewrite (ltb_mirror _ _ (Prim2SF b) Ha).
  destruct Hb as [->|[[sb ->] [sb' ->]]]; [done|apply SFltb_zero_l].
Qed.

Lemma accumulate_mirror (n : nat) (v v' s s' : float) :
  mirror v v' -> mirror s s' ->
  Forall2 mirror (accumulate n v s) (accumulate n v' s').
Proof.
  intros Hv Hs. revert v v' Hv. induction n as [|n IH]; intros v v' Hv;
    simpl; constructor; [done|].
  apply IH. unfold mirror. rewrite !add_spec. by apply add_mirror.
Qed.

Lemma running_mirror (n : nat) (v v' s s' : float) :
  mirror v v' -> mirror s s' -> mirror (running s n v) (running s' n v').
Proof.
  intros Hv Hs. induction n as [|n IH]; [done|].
  unfold running in *. simpl. unfold mirror. rewrite !add_spec.
  by apply add_mirror.
Qed.

Lemma descending_mirror (l l' : list float) :
  Forall2 mirror l l' -> strictly_descending l = strictly_ascending l'.
Proof.
  induction 1 as [|a a' l l' Ha Hl IH]; [done|].
  destruct Hl as [|b b' l l' Hb Hl]; [done|].
  change (strictly_descending (a :: b :: l))
    with ((b <? a) && strictly_descending (b :: l)).
  rewrite strictly_ascending_cons, IH. f_equal. by apply ltb_mirror_both.
Qed.

(** The sums accumulated above the bound, down to the first that is not
    above it, are strictly descending. *)
Lemma accumulate_descending (y s : float) (n : nat) (v : float) :
  Forall (fun u => (y <? u) = true) (accumulate n v s) ->
  (y <? running s n v) = false ->
  strictly_descending (accumulate n v s) = true.
Proof.
  intros Hall Hstop.
  pose proof (accumulate_mirror n v (- v) s (- s) (mirror_opp v) (mirror_opp s))
    as Hm.
  rewrite (descending_mirror _ _ Hm).
  apply (accumulate_ascending (- y)).
  - clear Hstop. induction Hm as [|a a' l l' Ha Hl IH]; [done|].
    apply Forall_cons in Hall as [Hy Hall]. constructor; [|by apply IH].
    by rewrite <- (ltb_mirror_both y (- y) a a' (mirror_opp y) Ha).
  - rewrite <- (ltb_mirror_both y (- y) (running s n v) _ (mirror_opp y)
                  (running_mirror n v (- v) s (- s) (mirror_opp v) (mirror_opp s))).
    done.
Qed.

(** The two coordinate lists are strictly monotone. *)
Lemma build_grid_monotone (fuel : nat) (g : Globals) (desired_width : Z)
    (x y : list float) (zs cs : list complex) :
  build_grid fuel g desired_width = Ok (x, y, zs, cs) ->
  strictly_ascending x = true /\ strictly_descending y = true.
Proof.
  intros H. apply build_grid_Ok in H as (x_step & y_step & _ & Hy & Hx & _).
  apply x_list_Ok in Hx as (Hx1 & Hx2 & Hx3).
  apply y_list_Ok in Hy as (Hy1 & Hy2 & Hy3).
  split.
  - rewrite Hx1. rewrite Hx1 in Hx2. by apply (accumulate_ascending (x2 g)).
  - rewrite Hy1. rewrite Hy1 in Hy2. by apply (accumulate_descending (y1 g)).
Qed.

(** ** Widths for which the loops end *)

Lemma loop_ends_while (below : float -> bool) (step : float) (fuel : nat)
    (l : list float) (cur : float) :
  loop_ends below step fuel cur = true ->
  exists r, while fuel
    (fun '(l, cur) => mret (below cur))
    (fun '(l, cur) => mret (l ++ [cur], cur + step)) (l, cur) = Ok r.
Proof.
  revert l cur. induction fuel as [|fuel IH]; intros l cur; simpl; [done|].
  destruct (below cur); [apply IH|]. intros _. by eexists.
Qed.

Lemma grid_loops_end_Ok (fuel : nat) (g : Globals) (desired_width : Z) :
  grid_loops_end fuel g desired_width = true ->
  exists x y zs cs, build_grid fuel g desired_width = Ok (x, y, zs, cs).
Proof.
  unfold grid_loops_end.
  destruct (coordinate_steps g desired_width) as [[x_step y_step]| |] eqn:Hs;
    [|done..].
  intros [Hy Hx]%andb_prop.
  destruct (loop_ends_while _ _ _ [] _ Hy) as ([y cy] & Hy').
  destruct (loop_ends_while _ _ _ [] _ Hx) as ([x cx] & Hx').
  exists x, y, (grid_points x y), (grid_params g x y).
  apply build_grid_Ok. exists x_step, y_step. split_and!; [done| | |done..].
  - unfold y_list. by rewrite Hy'.
  - unfold x_list. by rewrite Hx'.
Qed.

(** For the module's bounds and every width from 1 to 1000 the two loops
    end, after at most [desired_width + 1] rounds each. *)
Lemma reference_widths :
  forallb (fun w => grid_loops_end (w + 2) module_globals (Z.of_nat w))
    (seq 1 1000) = true.
Proof. by vm_compute. Qed.

Lemma reference_grids_built (desired_width : Z) :
  (1 <= desired_width <= 1000)%Z ->
  exists x y zs cs,
    build_grid (Z.to_nat desired_width + 2) module_globals desired_width
      = Ok (x, y, zs, cs).
Proof.
  intros Hw. apply grid_loops_end_Ok.
  pose proof reference_widths as H. rewrite forallb_forall in H.
  specialize (H (Z.to_nat desired_width)). rewrite Z2Nat.id in H by lia.
  apply H. apply in_seq. lia.
Qed.

(** ** The grid *)

(** C7 (amended).  Whenever the grid builder returns (its two coordinate
    loops terminate), [zs] and [cs] have the same length, the number of x
    values times the number of y values, and the layout is row-major with
    [y], which is strictly descending, as the outer loop and [x], which is
    strictly ascending, as the inner one: the element of [zs] at flat
    index [i * len(x) + j] is [complex(x[j], y[i])], and the element of
    [cs] at the same index is the fixed parameter.  (The builder returns
    for the module's bounds and every width from 1 to 1000,
    [reference_grids_built]; it does not for every positive width, see the
    counterexample.) *)
Theorem grid_row_major (fuel : nat) (g : Globals) (desired_width : Z)
    (x y : list float) (zs cs : list complex) :
  build_grid fuel g desired_width = Ok (x, y, zs, cs) ->
  length zs = length cs /\
  length zs = (length x * length y)%nat /\
  strictly_descending y = true /\ strictly_ascending x = true /\
  forall (i j : nat) (xcoord ycoord : float),
    y !! i = Some ycoord -> x !! j = Some xcoord ->
    zs !! (i * length x + j)%nat = Some (Complex xcoord ycoord) /\
    cs !! (i * length x + j)%nat = Some (Complex (c_real g) (c_imag g)).
Proof.
  intros H. destruct (build_grid_monotone _ _ _ _ _ _ _ H) as [Hx Hy].
  apply build_grid_Ok in H as (x_step & y_step & _ & _ & _ & -> & ->).
  unfold grid_params. rewrite length_grid_points, length_replicate.
  split_and!; [done|lia|done..|]. intros i j xcoord ycoord Hi Hj. split.
  - by apply lookup_grid_points.
  - apply lookup_replicate_2.
    apply lookup_lt_Some in Hi. apply lookup_lt_Some in Hj. nia.
Qed.

Lemma grid_row_major_witness :
  exists (x y : list float) (zs cs : list complex),
    build_grid 10 module_globals 3 = Ok (x, y, zs, cs) /\
    length x = 4%nat /\ length y = 4%nat /\
    length zs = length cs /\
    length zs = Nat.mul (length x) (length y) /\
    strictly_descending y = true /\ strictly_ascending x = true /\
    forall (i j : nat) (xcoord ycoord : float),
      y !! i = Some ycoord -> x !! j = Some xcoord ->
      zs !! Nat.add (Nat.mul i (length x)) j = Some (Complex xcoord ycoord) /\
      cs !! Nat.add (Nat.mul i (length x)) j
        = Some (Complex (c_real module_globals) (c_imag module_globals)).
Proof.
  destruct (build_grid 10 module_globals 3) as [[[[x y] zs] cs]| |] eqn:Hg;
    [|vm_compute in Hg; discriminate Hg..].
  pose proof (grid_row_major 10 module_globals 3 x y zs cs Hg) as H.
  assert (length x = 4%nat /\ length y = 4%nat) as [Hx Hy].
  { vm_compute in Hg. injection Hg as <- <- _ _. split; reflexivity. }
  exists x, y, zs, cs. split; [reflexivity|].
  split; [exact Hx|]. split; [exact Hy|exact H].
Defined.

(** C7, counterexample.  With [desired_width = 10**17] (a positive width,
    and the module's bounds, whose upper ends are above the lower ones)
    the step is so small that adding it to [y2 = 1.8] gives [1.8] again:
    the first coordinate loop never ends, and no grid is produced. *)
Lemma grid_never_built :
  (0 < 10 ^ 17)%Z /\
  (x1 module_globals <? x2 module_globals) = true /\
  (y1 module_globals <? y2 module_globals) = true /\
  ~ exists (fuel : nat) r, build_grid fuel module_globals (10 ^ 17) = Ok r.
Proof.
  split_and!; [done..|]. intros (fuel & [[[x y] zs] cs] & H).
  apply build_grid_Ok in H as (x_step & y_step & Hs & Hy & _).
  vm_compute in Hs. injection Hs as <- <-.
  unfold y_list in Hy.
  rewrite (coordinate_loop_stuck (fun v => y1 module_globals <? v)) in Hy;
    done.
Qed.

(** ** The two sequences *)

(** C8 (amended).  Whenever the grid builder returns, the x sequence is
    the accumulation from [x1]: it starts at [x1] and every later element
    is the float sum of its predecessor and [x_step = (x2 - x1) /
    desired_width]; it is strictly increasing; every element, the last
    one included, is strictly less than [x2], and the sum that follows
    the last element is not.  Symmetrically the y sequence is the
    accumulation from [y2] by [y_step = (y1 - y2) / desired_width], it is
    strictly decreasing, every element is strictly greater than [y1], and
    the sum that follows the last one is not.  The length is the number of
    accumulated sums on the right side of the bound, whatever the ceiling
    of the quotient is. *)
Theorem coordinate_lists_accumulate (fuel : nat) (g : Globals)
    (desired_width : Z) (x y : list float) (zs cs : list complex) :
  build_grid fuel g desired_width = Ok (x, y, zs, cs) ->
  exists w x_step y_step : float,
    float_of_int desired_width = Ok w /\
    x_step = (x2 g - x1 g) / w /\ y_step = (y1 g - y2 g) / w /\
    x = accumulate (length x) (x1 g) x_step /\
    strictly_ascending x = true /\
    Forall (fun v => (v <? x2 g) = true) x /\
    (running x_step (length x) (x1 g) <? x2 g) = false /\
    y = accumulate (length y) (y2 g) y_step /\
    strictly_descending y = true /\
    Forall (fun v => (y1 g <? v) = true) y /\
    (y1 g <? running y_step (length y) (y2 g)) = false.
Proof.
  intros H. destruct (build_grid_monotone _ _ _ _ _ _ _ H) as [Hxm Hym].
  apply build_grid_Ok in H as (x_step & y_step & Hs & Hy & Hx & _).
  unfold coordinate_steps, truediv in Hs.
  destruct (float_of_int desired_width) as [w| |] eqn:Hw; simplify_eq/=.
  destruct (w =? 0); simplify_eq/=. injection Hs as <- <-.
  apply x_list_Ok in Hx as (Hx1 & Hx2 & Hx3).
  apply y_list_Ok in Hy as (Hy1 & Hy2 & Hy3).
  by exists w, ((x2 g - x1 g) / w), ((y1 g - y2 g) / w).
Qed.

Lemma coordinate_lists_accumulate_witness :
  exists (x y : list float) (zs cs : list complex),
    build_grid 10 module_globals 3 = Ok (x, y, zs, cs) /\
    length x = 4%nat /\ length y = 4%nat /\
    exists w x_step y_step : float,
      float_of_int 3 = Ok w /\
      x_step = (x2 module_globals - x1 module_globals) / w /\
      y_step = (y1 module_globals - y2 module_globals) / w /\
      x = accumulate (length x) (x1 module_globals) x_step /\
      strictly_ascending x = true /\
      Forall (fun v => (v <? x2 module_globals) = true) x /\
      (running x_step (length x) (x1 module_globals) <? x2 module_globals)
        = false /\
      y = accumulate (length y) (y2 module_globals) y_step /\
      strictly_descending y = true /\
      Forall (fun v => (y1 module_globals <? v) = true) y /\
      (y1 module_globals <? running y_step (length y) (y2 module_globals))
        = false.
Proof.
  destruct (build_grid 10 module_globals 3) as [[[[x y] zs] cs]| |] eqn:Hg;
    [|vm_compute in Hg; discriminate Hg..].
  pose proof (coordinate_lists_accumulate 10 module_globals 3 x y zs cs Hg) as H.
  assert (length x = 4%nat /\ length y = 4%nat) as [Hx Hy].
  { vm_compute in Hg. injection Hg as <- <- _ _. split; reflexivity. }
  exists x, y, zs, cs. split; [reflexivity|].
  split; [exact Hx|]. split; [exact Hy|exact H].
Defined.

(** C8, counterexample.  For [desired_width = 3] the x sequence has four
    elements, [-1.8, -0.6000000000000001, 0.5999999999999999,
    1.7999999999999998], while [ceil((x2 - x1) / x_step)] is 3: the third
    sum falls just short of [x2]. *)
Lemma grid_length_exceeds_ceil :
  (0 < 3)%Z /\
  exists (x y : list float) (zs cs : list complex) (x_step y_step : float),
    build_grid 10 module_globals 3 = Ok (x, y, zs, cs) /\
    coordinate_steps module_globals 3 = Ok (x_step, y_step) /\
    length x = 4%nat /\
    ceil ((x2 module_globals - x1 module_globals) / x_step) = Ok 3%Z.
Proof.
  split; [done|].
  destruct (build_grid 10 module_globals 3) as [[[[x y] zs] cs]| |] eqn:Hg;
    [|by vm_compute in Hg..].
  destruct (coordinate_steps module_globals 3) as [[x_step y_step]| |] eqn:Hs;
    [|by vm_compute in Hs..].
  exists x, y, zs, cs, x_step, y_step. split_and!; [done..| |].
  - vm_compute in Hg. by injection Hg as <- _ _ _.
  - vm_compute in Hs. injection Hs as <- _. by vm_compute.
Qed.

(* ===================================================================== *)
(** * More on the particle integrators *)
(* ===================================================================== *)

(** A loop whose body does not read the loop variable depends on the
    number of rounds only. *)
Lemma for_in_rounds {A B S : Type} (l : list A) (l' : list B)
    (body : S -> res S) (s : S) :
  length l = length l' ->
  for_in l (fun _ => body) s = for_in l' (fun _ => body) s.
Proof.
  revert l' s. induction l as [|a l IH]; intros [|b l'] s Hlen;
    simplify_eq/=; [done|].
  destruct (body s); simpl; [by apply IH|done..].
Qed.

Lemma range_add (n1 n2 : Z) :
  (0 <= n1)%Z -> (0 <= n2)%Z ->
  range (n1 + n2) = range n1 ++ seq (Z.to_nat n1) (Z.to_nat n2).
Proof.
  intros H1 H2. unfold range. rewrite Z2Nat.inj_add by done. apply seq_app.
Qed.

Lemma steps_ang_vel (l : list nat) (ps ps' : list Particle) :
  for_in l (fun _ ps => step_all ps) ps = Ok ps' ->
  ang_vel <$> ps' = ang_vel <$> ps.
Proof.
  revert ps. induction l as [|i l IH]; intros ps; simpl.
  - by intros [= <-].
  - intros H. apply bind_Ok in H as (ps1 & H1 & H).
    apply step_all_numpy in H1 as [_ Hws]. apply IH in H. congruence.
Qed.

(** X11.  A call of [evolve_python] that returns has moved the particles
    and nothing else: their number, their order and every [ang_vel] are
    as before, and the arrays of the batch method are left as they were
    (missing if they were missing). *)
Theorem evolve_python_keeps (self s' : ParticleSimulator) (dt : float) :
  evolve_python self dt = Ok s' ->
  length (particles s') = length (particles self) /\
  ang_vel <$> particles s' = ang_vel <$> particles self /\
  r_i s' = r_i self /\ ang_vel_i s' = ang_vel_i self.
Proof.
  unfold evolve_python. intros H.
  apply bind_Ok in H as (n & _ & H). apply bind_Ok in H as (ps & Hloop & [= <-]).
  simpl. apply steps_ang_vel in Hloop. split_and!; [|done..].
  by rewrite <- (length_fmap ang_vel ps), Hloop, length_fmap.
Qed.

Lemma evolve_python_keeps_witness :
  exists s' : ParticleSimulator,
    evolve_python (init test_particles) 0.001 = Ok s' /\
    length (particles s') = 3%nat /\
    ang_vel <$> particles s' = [1; -1; 3].
Proof.
  destruct (evolve_python (init test_particles) 0.001) as [s'| |] eqn:H;
    [|vm_compute in H; discriminate H..].
  exists s'. split; [reflexivity|].
  destruct (evolve_python_keeps _ _ _ H) as (Hlen & Hw & _). split; assumption.
Defined.

Lemma copy_back_Ok (ps ps' : list Particle) (i : nat) (r : list (float * float)) :
  copy_back i r ps = Ok ps' ->
  (i + length ps <= length r)%nat \/ ps = [].
Proof.
  revert ps' i. induction ps as [|p ps IH]; intros ps' i; simpl; [by right|].
  intros H. left. apply bind_Ok in H as (row & Hrow & H).
  apply bind_Ok in H as (ps'' & Hps'' & _).
  unfold getitem in Hrow. destruct (r !! i) as [row'|] eqn:Hi; [|done].
  apply lookup_lt_Some in Hi.
  destruct (IH _ _ Hps'') as [?| ->]; simpl; lia.
Qed.

Lemma positions_moved (r : list (float * float)) (ps : list Particle) :
  positions (zip_with moved r ps) = take (length ps) r /\
  ang_vel <$> zip_with moved r ps = ang_vel <$> take (length r) ps.
Proof.
  revert ps. induction r as [|row r IH]; intros [|p ps]; simpl; try done.
  destruct (IH ps) as [IH1 IH2]. unfold positions in *.
  split.
  - destruct row. f_equal. exact IH1.
  - f_equal. exact IH2.
Qed.

(** X12.  A call of [evolve_numpy] that returns leaves the simulator with
    a position array, and every particle at the position its row of that
    array holds; the number of particles and every [ang_vel] are as
    before. *)
Theorem evolve_numpy_copies_back (self s' : ParticleSimulator) (dt : float) :
  evolve_numpy self dt = Ok s' ->
  length (particles s') = length (particles self) /\
  ang_vel <$> particles s' = ang_vel <$> particles self /\
  exists r : list (float * float),
    r_i s' = Some r /\ positions (particles s') = take (length (particles self)) r.
Proof.
  intros H. unfold evolve_numpy in H.
  apply bind_Ok in H as (n & _ & H). apply bind_Ok in H as (r0 & _ & H).
  apply bind_Ok in H as (r & _ & H). apply bind_Ok in H as (ps & Hcopy & [= <-]).
  simpl.
  assert (particles match r_i self with
                    | Some _ => self
                    | None => mkSimulator (particles self)
                                (Some ((fun p => (x p, y p)) <$> particles self))
                                (Some (ang_vel <$> particles self))
                    end = particles self) as Hps by (by destruct (r_i self)).
  rewrite Hps in Hcopy. clear Hps.
  pose proof (length_copy_back _ _ _ _ Hcopy) as Hlen.
  split; [done|].
  destruct (copy_back_Ok _ _ _ _ Hcopy) as [Hle| Hnil].
  - rewrite copy_back_drop in Hcopy by done. injection Hcopy as <-.
    rewrite drop_0. destruct (positions_moved r (particles self)) as [Hp Hw].
    split; [|by exists r]. rewrite Hw. by rewrite take_ge by (simpl in Hle; lia).
  - rewrite Hnil in *. destruct ps; [|done]. split; [done|]. by exists r.
Qed.

Lemma evolve_numpy_copies_back_witness :
  exists s' : ParticleSimulator,
    evolve_numpy (init test_particles) 0.001 = Ok s' /\
    length (particles s') = 3%nat /\
    ang_vel <$> particles s' = [1; -1; 3] /\
    exists r : list (float * float),
      r_i s' = Some r /\ positions (particles s') = take 3 r.
Proof.
  destruct (evolve_numpy (init test_particles) 0.001) as [s'| |] eqn:H;
    [|vm_compute in H; discriminate H..].
  exists s'. split; [reflexivity|].
  exact (evolve_numpy_copies_back _ _ _ H).
Defined.

(** ** Successive calls *)

Lemma successive_calls_with (pw : libm_pow) (dts : list float)
    (s0 t0 : ParticleSimulator) :
  particles s0 <> [] -> particles s0 = particles t0 ->
  r_i s0 = None \/ in_sync s0 ->
  norms_agree_calls pw (ang_vel <$> particles s0) dts (positions (particles s0))
    = true ->
  exists t s,
    for_in dts (fun dt self => evolve_python_with pw self dt) t0 = Ok t /\
    for_in dts (fun dt self => evolve_numpy self dt) s0 = Ok s /\
    particles s = particles t /\
    (in_sync s0 \/ dts <> [] -> in_sync s).
Proof.
  revert s0 t0. induction dts as [|dt dts IH]; intros s0 t0 Hne0 Hps Hsync; simpl.
  - intros _. exists t0, s0. split_and!; [done..|]. by intros [?|?].
  - destruct (nsteps_of dt) as [n| |] eqn:Hn; [|done..].
    intros [H1 H]%andb_prop.
    destruct (evolve_with_follows pw s0 t0 dt n Hne0 Hps Hsync Hn H1)
      as (t1 & s1 & -> & -> & Hps1 & Hsync1 & Hne1 & Hws & Hrows).
    simpl. rewrite <- Hrows, <- Hws in H.
    destruct (IH s1 t1 Hne1 Hps1 (or_intror Hsync1) H) as (t & s & Ht & Hs & Hpss & Hfin).
    exists t, s. split_and!; [done..|]. intros _. apply Hfin. by left.
Qed.

(** X13.  Successive calls compose alike in both methods.  Whatever the
    C library's [pow] is: on a non-empty particle list and for durations
    [dts] with step counts, if on every row that the array loop meets in
    these calls the norm that [evolve_python] computes and the norm that
    [evolve_numpy] computes are the same nonzero float, then the sequence
    of [evolve_python] calls and the sequence of [evolve_numpy] calls,
    each on a fresh simulator, both return and leave the particles in the
    same state, bit for bit; after the first call the arrays of
    [evolve_numpy] hold exactly what the particles hold. *)
Theorem successive_calls_agree (pw : libm_pow) (ps : list Particle)
    (dts : list float) :
  ps <> [] ->
  norms_agree_calls pw (ang_vel <$> ps) dts (positions ps) = true ->
  exists t s : ParticleSimulator,
    for_in dts (fun dt self => evolve_python_with pw self dt) (init ps) = Ok t /\
    for_in dts (fun dt self => evolve_numpy self dt) (init ps) = Ok s /\
    particles s = particles t /\
    (dts <> [] -> in_sync s).
Proof.
  intros Hne H.
  destruct (successive_calls_with pw dts (init ps) (init ps) Hne eq_refl
              (or_introl eq_refl) H) as (t & s & Ht & Hs & Hps & Hsync).
  exists t, s. split_and!; [done..|]. intros Hdts. apply Hsync. by right.
Qed.

Lemma successive_calls_agree_witness :
  exists t s : ParticleSimulator,
    for_in [0.0002; 0.0001; 0.0003]
      (fun dt self => evolve_python_with rounded_pow self dt)
      (init test_particles) = Ok t /\
    for_in [0.0002; 0.0001; 0.0003] (fun dt self => evolve_numpy self dt)
      (init test_particles) = Ok s /\
    particles s = particles t /\ in_sync s.
Proof.
  destruct (successive_calls_agree rounded_pow test_particles
              [0.0002; 0.0001; 0.0003])
    as (t & s & Ht & Hs & Hps & Hsync);
    [discriminate|vm_compute; reflexivity|].
  exists t, s. split; [exact Ht|]. split; [exact Hs|].
  split; [exact Hps|]. apply Hsync. discriminate.
Defined.

(** ** Splitting a duration *)

(** X14.  Splitting a duration: two successive [evolve_python] calls do
    what one call does whenever the step counts add up, that is when
    [int(dt / timestep)] is the sum of the (non-negative) step counts of
    the two parts; the durations themselves need not add up. *)
Theorem evolve_python_splits (self : ParticleSimulator) (dt dt1 dt2 : float)
    (n1 n2 : Z) :
  nsteps_of dt1 = Ok n1 -> nsteps_of dt2 = Ok n2 ->
  (0 <= n1)%Z -> (0 <= n2)%Z -> nsteps_of dt = Ok (n1 + n2)%Z ->
  (s1 ← evolve_python self dt1; evolve_python s1 dt2) = evolve_python self dt.
Proof.
  intros H1 H2 Hn1 Hn2 H. unfold evolve_python. rewrite H1, H. simpl.
  rewrite range_add, for_in_app by done.
  destruct (for_in (range n1) _ (particles self)) as [ps1| |]; simpl; [|done..].
  rewrite H2. simpl.
  by rewrite (for_in_rounds (range n2) (seq (Z.to_nat n1) (Z.to_nat n2)))
    by (unfold range; by rewrite !length_seq).
Qed.

Lemma evolve_python_splits_witness :
  (s1 ← evolve_python (init test_particles) 0.0005; evolve_python s1 0.00025)
  = evolve_python (init test_particles) 0.00075.
Proof.
  apply (evolve_python_splits _ _ _ _ 50 25); by vm_compute.
Defined.

(** ** A simulator without particles *)

(** X15.  A simulator without particles: [evolve_python] returns for
    every duration that has a step count, having done nothing, whereas
    [evolve_numpy] raises [AxisError] at the row norm as soon as there is
    one step to take (the array of no rows has one dimension), and
    returns, with empty arrays, only when there is none. *)
Theorem empty_simulator (dt : float) (n : Z) :
  nsteps_of dt = Ok n ->
  evolve_python (init []) dt = Ok (init []) /\
  evolve_numpy (init []) dt =
    if (1 <=? n)%Z then Raise AxisError
    else Ok (mkSimulator [] (Some []) (Some [])).
Proof.
  intros Hn. split.
  - unfold evolve_python. rewrite Hn. simpl.
    assert (forall l : list nat,
              for_in l (fun _ ps => step_all ps) [] = Ok []) as ->; [|done].
    induction l as [|i l IH]; [done|]. simpl. apply IH.
  - rewrite evolve_numpy_fresh by done. simpl. rewrite Hn. simpl.
    destruct (Z.leb_spec 1 n) as [Hpos|Hneg].
    + unfold range. destruct (Z.to_nat n) as [|k] eqn:Hk; [lia|]. done.
    + unfold range. by replace (Z.to_nat n) with 0%nat by lia.
Qed.

Lemma empty_simulator_witness :
  evolve_python (init []) 0.1 = Ok (init []) /\
  evolve_numpy (init []) 0.1 =
    if (1 <=? 10000)%Z then Raise AxisError
    else Ok (mkSimulator [] (Some []) (Some [])).
Proof. apply empty_simulator. by vm_compute. Defined.

(** ** Durations that are not finite *)

Lemma is_nan_spec (f : float) : is_nan f = true -> Prim2SF f = S754_nan.
Proof.
  unfold is_nan. rewrite FloatAxioms.eqb_spec. unfold SFeqb.
  destruct (Prim2SF f) as [s|s| |s m e] eqn:E; try done.
  - by destruct s.
  - by rewrite (SFcompare_refl (S754_finite s m e)).
Qed.

Lemma is_infinity_spec (f : float) :
  is_infinity f = true -> exists s, Prim2SF f = S754_infinity s.
Proof.
  unfold is_infinity. rewrite FloatAxioms.eqb_spec, abs_spec. unfold SFeqb.
  change (Prim2SF infinity) with (S754_infinity false).
  destruct (Prim2SF f) as [s|s| |s m e]; try done. by exists s.
Qed.

Lemma is_finite_spec (f : float) :
  is_finite f = true ->
  (exists s, Prim2SF f = S754_zero s) \/ exists s m e, Prim2SF f = S754_finite s m e.
Proof.
  rewrite is_finite_abs, FloatAxioms.ltb_spec, abs_spec.
  change (Prim2SF infinity) with (S754_infinity false).
  destruct (Prim2SF f) as [s|s| |s m e]; try done.
  - left. by exists s.
  - right. by exists s, m, e.
Qed.

(** X16.  The duration is the only argument that makes the methods raise
    before they touch anything.  If [dt / timestep] is finite the step
    count exists; if it is a NaN both methods raise [ValueError], and if
    it is infinite both raise [OverflowError], at [int(...)]. *)
Theorem duration_errors (self : ParticleSimulator) (dt : float) :
  (is_finite (dt / timestep) = true /\ exists n, nsteps_of dt = Ok n) \/
  (is_nan (dt / timestep) = true /\
   evolve_python self dt = Raise ValueError /\
   evolve_numpy self dt = Raise ValueError) \/
  (is_infinity (dt / timestep) = true /\
   evolve_python self dt = Raise OverflowError /\
   evolve_numpy self dt = Raise OverflowError).
Proof.
  unfold evolve_python, evolve_numpy. rewrite !nsteps_of_eq.
  unfold is_finite.
  destruct (is_nan (dt / timestep)) eqn:Hnan; simpl.
  - right. left. apply is_nan_spec in Hnan. unfold int_of_float. by rewrite Hnan.
  - destruct (is_infinity (dt / timestep)) eqn:Hinf; simpl.
    + right. right. apply is_infinity_spec in Hinf as [s Hinf].
      unfold int_of_float. by rewrite Hinf.
    + left. split; [done|].
      destruct (is_finite_spec (dt / timestep)) as [[s H]|(s & m & e & H)].
      { unfold is_finite. by rewrite Hnan, Hinf. }
      * exists 0%Z. unfold int_of_float. by rewrite H.
      * eexists. unfold int_of_float. by rewrite H.
Qed.

(** ** The test of the module *)

(** X17.  The class defines no method [evolve]: on every simulator and
    duration the call [simulator.evolve(dt)], which [test_evolve] and the
    animation callback make, raises [AttributeError]; so [test_evolve]
    fails there as written.  With [evolve] bound to either of the two
    methods, all six assertions of [test_evolve] pass. *)
Theorem test_evolve_raises :
  (forall (self : ParticleSimulator) (dt : float),
     call_method class_methods "evolve" self dt = Raise AttributeError) /\
  test_evolve class_methods = Raise AttributeError /\
  test_evolve (("evolve"%string, evolve_python) :: class_methods) = Ok tt /\
  test_evolve (("evolve"%string, evolve_numpy) :: class_methods) = Ok tt.
Proof. split_and!; by vm_compute. Qed.

(* ===================================================================== *)
(** * The comparisons of the census frames *)
(* ===================================================================== *)

Import Agebs.

Section comparisons.
Context {G : Type}.
Implicit Types a b gdf : list (Ageb G).

Lemma filter_ext_in {A : Type} (P Q : A -> Prop)
    `{!forall x, Decision (P x)} `{!forall x, Decision (Q x)} (l : list A) :
  (forall x, x ∈ l -> P x <-> Q x) -> filter P l = filter Q l.
Proof.
  induction l as [|x l IH]; intros Hall; [done|].
  rewrite !filter_cons.
  rewrite IH by (intros y Hy; apply Hall; by right).
  pose proof (Hall x ltac:(by left)) as Hx.
  destruct (decide (P x)), (decide (Q x)); tauto || done.
Qed.

Lemma elem_of_column_set gdf (i : string) :
  i ∈ column_set gdf <-> exists r, r ∈ gdf /\ CVEGEO r = i.
Proof.
  unfold column_set. rewrite elem_of_list_to_set, list_elem_of_fmap.
  split; intros (r & ? & ?); by exists r.
Qed.

Lemma column_set_isin gdf (ids : gset string) :
  column_set (isin_rows gdf ids) = column_set gdf ∩ ids.
Proof.
  apply set_eq. intros i.
  rewrite elem_of_intersection, !elem_of_column_set. unfold isin_rows. split.
  - intros (r & Hr & <-). apply list_elem_of_filter in Hr as [? ?].
    split; [by exists r|done].
  - intros [(r & Hr & <-) Hi]. exists r. split; [|done].
    by apply list_elem_of_filter.
Qed.

Lemma remain_rows a b :
  remain a b = filter (fun r => CVEGEO r ∈ column_set b) a.
Proof.
  unfold remain, isin_rows. apply filter_ext_in. intros r Hr.
  rewrite elem_of_intersection, (elem_of_column_set a). split; [tauto|].
  intros ?. split; [by exists r|done].
Qed.

Lemma dissapear_rows a b :
  dissapear a b = filter (fun r => CVEGEO r ∉ column_set b) a.
Proof.
  unfold dissapear, isin_rows. apply filter_ext_in. intros r Hr.
  rewrite elem_of_difference, (elem_of_column_set a). split; [tauto|].
  intros ?. split; [by exists r|done].
Qed.

(** X18.  [remain] and [dissapear] split the 2010 frame: every row of
    [gdf_2010] is in exactly one of the two results, each result keeps
    the rows in the order of the frame, and a row remains exactly when
    some row of [gdf_2020] carries its identifier. *)
Theorem remain_dissapear_partition a b :
  remain a b ++ dissapear a b ≡ₚ a /\
  remain a b `sublist_of` a /\ dissapear a b `sublist_of` a /\
  (forall r, r ∈ a -> r ∈ remain a b <-> r ∉ dissapear a b) /\
  (forall r, r ∈ remain a b <-> r ∈ a /\ exists r', r' ∈ b /\ CVEGEO r' = CVEGEO r).
Proof.
  rewrite remain_rows, dissapear_rows. split_and!.
  - apply filter_app_complement.
  - apply sublist_filter.
  - apply sublist_filter.
  - intros r Hr. rewrite !list_elem_of_filter.
    destruct (decide (CVEGEO r ∈ column_set b)); tauto.
  - intros r. rewrite list_elem_of_filter, elem_of_column_set. tauto.
Qed.

(** X19.  [new] is [dissapear] with the frames exchanged, and with
    [remain] on the exchanged frames it splits the 2020 frame; a row of
    [gdf_2020] is new exactly when no row of [gdf_2010] carries its
    identifier. *)
Theorem new_is_dissapear_swapped a b :
  new a b = dissapear b a /\
  remain b a ++ new a b ≡ₚ b /\
  (forall r, r ∈ new a b <-> r ∈ b /\ forall r', r' ∈ a -> CVEGEO r' <> CVEGEO r).
Proof.
  split; [done|]. change (new a b) with (dissapear b a).
  rewrite remain_rows, dissapear_rows. split.
  - apply filter_app_complement.
  - intros r. rewrite list_elem_of_filter, elem_of_column_set. split.
    + intros [Hn ?]. split; [done|]. intros r' ? ?. apply Hn. by exists r'.
    + intros [? Hn]. split; [|done]. intros (r' & ? & ?). by apply (Hn r').
Qed.

(** X20.  On identifiers the three functions are the set operations:
    the identifiers of [remain], [new] and [dissapear] are the
    intersection and the two differences of the identifier sets of the
    frames; they are pairwise disjoint, together they are all identifiers
    of both frames, and [remain] yields the same identifiers whichever
    frame comes first. *)
Theorem identifier_sets a b :
  column_set (remain a b) = column_set a ∩ column_set b /\
  column_set (new a b) = column_set b ∖ column_set a /\
  column_set (dissapear a b) = column_set a ∖ column_set b /\
  column_set (remain a b) = column_set (remain b a) /\
  column_set a ∪ column_set b
    = column_set (dissapear a b) ∪ column_set (remain a b) ∪ column_set (new a b) /\
  column_set (dissapear a b) ## column_set (remain a b) /\
  column_set (remain a b) ## column_set (new a b) /\
  column_set (dissapear a b) ## column_set (new a b).
Proof.
  unfold remain, new, dissapear. cbv zeta. rewrite !column_set_isin.
  generalize (column_set a) (column_set b). intros A B.
  split_and!;
    try (apply set_eq; intros i); try (apply elem_of_disjoint; intros i);
    rewrite ?elem_of_union, ?elem_of_intersection, ?elem_of_difference;
    destruct (decide (i ∈ A)), (decide (i ∈ B)); tauto.
Qed.


Lemma filter_all {A : Type} (P : A -> Prop) `{!forall x, Decision (P x)}
    (l : list A) :
  (forall x, x ∈ l -> P x) -> filter P l = l.
Proof.
  induction l as [|x l IH]; intros Hall; [done|].
  rewrite filter_cons, decide_True by (apply Hall; by left).
  f_equal. apply IH. intros y Hy. apply Hall. by right.
Qed.

Lemma filter_none {A : Type} (P : A -> Prop) `{!forall x, Decision (P x)}
    (l : list A) :
  (forall x, x ∈ l -> ~ P x) -> filter P l = [].
Proof.
  induction l as [|x l IH]; intros Hall; [done|].
  rewrite filter_cons, decide_False by (apply Hall; by left).
  apply IH. intros y Hy. apply Hall. by right.
Qed.

(** X21.  Edge cases: a frame compared with itself remains whole, with
    nothing new and nothing disappeared; compared with an empty 2020
    frame everything disappears; starting from an empty 2010 frame
    everything is new. *)
Theorem compare_with_itself a b :
  (remain a a = a /\ new a a = [] /\ dissapear a a = []) /\
  (remain a [] = [] /\ dissapear a [] = a /\ new a [] = []) /\
  (remain [] b = [] /\ dissapear [] b = [] /\ new [] b = b).
Proof.
  assert (Hin : forall r, r ∈ a -> CVEGEO r ∈ column_set a).
  { intros r Hr. apply elem_of_column_set. by exists r. }
  assert (Hempty : forall r : Ageb G, CVEGEO r ∉ column_set (@nil (Ageb G))).
  { intros r. unfold column_set. simpl. apply not_elem_of_empty. }
  change (new a a) with (dissapear a a).
  change (new a []) with (dissapear (@nil (Ageb G)) a).
  change (new [] b) with (dissapear b []).
  rewrite !remain_rows, !dissapear_rows. split_and!.
  - by apply filter_all.
  - apply filter_none. intros r Hr Hn. by apply Hn, Hin.
  - apply filter_none. intros r Hr Hn. by apply Hn, Hin.
  - apply filter_none. intros r _. apply Hempty.
  - apply filter_all. intros r _. apply Hempty.
  - done.
  - done.
  - done.
  - apply filter_all. intros r _. apply Hempty.
Qed.

(** X22.  Applying a comparison to its own result changes nothing more:
    [remain], [dissapear] and [new] are idempotent in the frame they
    filter, and what remains holds nothing that disappeared, nor the
    converse. *)
Theorem compare_again a b :
  remain (remain a b) b = remain a b /\
  dissapear (dissapear a b) b = dissapear a b /\
  dissapear (remain a b) b = [] /\
  remain (dissapear a b) b = [] /\
  new a (new a b) = new a b.
Proof.
  change (new a (new a b)) with (dissapear (dissapear b a) a).
  change (new a b) with (dissapear b a).
  rewrite !remain_rows, !dissapear_rows. split_and!.
  - by apply list_filter_filter_r.
  - by apply list_filter_filter_r.
  - apply filter_none. intros r Hr. apply list_elem_of_filter in Hr. tauto.
  - apply filter_none. intros r Hr. apply list_elem_of_filter in Hr. tauto.
  - by apply list_filter_filter_r.
Qed.

Lemma column_set_read_shp gdf (i : string) :
  i ∈ column_set (read_shp gdf)
  <-> i ∈ column_set gdf /\ String.prefix "310500001" i = true.
Proof.
  unfold read_shp. rewrite !elem_of_column_set. split.
  - intros (r & Hr & <-). apply list_elem_of_filter in Hr as [? ?].
    split; [by exists r|done].
  - intros [(r & Hr & <-) Hi]. exists r. split; [|done].
    by apply list_elem_of_filter.
Qed.

Lemma read_shp_twice gdf : read_shp (read_shp gdf) = read_shp gdf.
Proof. unfold read_shp. by apply list_filter_filter_r. Qed.

(** X23.  The Mérida filter of [read_shp] commutes with the three
    comparisons: comparing the filtered frames gives the filtered
    comparison of the whole frames, and filtering twice is filtering
    once. *)
Theorem read_shp_commutes a b :
  remain (read_shp a) (read_shp b) = read_shp (remain a b) /\
  new (read_shp a) (read_shp b) = read_shp (new a b) /\
  dissapear (read_shp a) (read_shp b) = read_shp (dissapear a b) /\
  read_shp (read_shp a) = read_shp a /\
  Forall (fun r => String.prefix "310500001" (CVEGEO r) = true) (read_shp a).
Proof.
  assert (Forall (fun r => String.prefix "310500001" (CVEGEO r) = true)
            (read_shp a)) as Hall.
  { apply Forall_forall. intros r Hr. unfold read_shp in Hr.
    by apply list_elem_of_filter in Hr as [? _]. }
  cut (remain (read_shp a) (read_shp b) = read_shp (remain a b) /\
       new (read_shp a) (read_shp b) = read_shp (new a b) /\
       dissapear (read_shp a) (read_shp b) = read_shp (dissapear a b)).
  { intros (? & ? & ?). split_and!; [done..|apply read_shp_twice|done]. }
  clear Hall.
  assert (Hd : forall a b : list (Ageb G),
    dissapear (read_shp a) (read_shp b) = read_shp (dissapear a b)).
  { clear a b. intros a b. rewrite !dissapear_rows. unfold read_shp. cbv zeta.
    rewrite !list_filter_filter. apply list_filter_iff. intros r.
    pose proof (column_set_read_shp b (CVEGEO r)) as Hr.
    unfold read_shp in Hr. cbv zeta in Hr. tauto. }
  split_and!; [|apply Hd..].
  rewrite !remain_rows. unfold read_shp. cbv zeta.
  rewrite !list_filter_filter. apply list_filter_iff. intros r.
  pose proof (column_set_read_shp b (CVEGEO r)) as Hr.
  unfold read_shp in Hr. cbv zeta in Hr. tauto.
Qed.

End comparisons.
